(** * Word-boundary reconstruction engine of [scripts/clean_tb2_syllable_spacing.py]

    A shallow embedding of the text-repair functions of the script and the
    properties its specification states about them.

    Conventions of the embedding.
    - A Python [str] is a list of Unicode code points ([char := N]).
    - A Python [float] is an IEEE 754 binary64 number.  The lexicon scores
      are Rocq's primitive floats ([float]), whose sum, difference, product
      and comparisons are those of the hardware, as Python's are.  What the
      script takes from its platform ([math.log10], the built-in [sum], the
      optional [wordfreq] package, the Unicode tables behind [int]) is a
      parameter, the record [Runtime].  The similarity ratio and the length
      bands of the tail trimmer, which are quotients and products of small
      integers, are kept as rationals ([Q]).
    - A [dict] is a [gmap]; a Python list used as an array is a list read
      with [!!] and written with [<[ i := x ]>].
    - The regular expressions of the normaliser and of the tokenizer are
      runs of character classes; each is embedded as the scanner that
      [re.sub] / [re.findall] performs for it, leftmost match first. *)

From Stdlib Require Import List NArith ZArith QArith Qround Lia String Ascii Bool Sorted.
From Stdlib Require Import Floats Uint63.
From stdpp Require Import base option list gmap strings.

Set Warnings "-inexact-float".

Local Open Scope N_scope.

(** ** Strings and character classes *)

Abbreviation char := N (only parsing).
Abbreviation str := (list N) (only parsing).

(** [py s] is the Python string with the code points of the ASCII literal [s]. *)
Definition py (s : string) : str := map N_of_ascii (list_ascii_of_string s).

Definition SP : char := 32.
Definition DQUOTE : char := 34.
Definition SQUOTE : char := 39.
Definition HYPHEN : char := 45.
Definition COLON : char := 58.

Definition in_range (lo hi c : char) : bool := (lo <=? c) && (c <=? hi).

(** [str.isspace] of one character, which is also [\s] of [re] on [str]
    patterns (both are [Py_UNICODE_ISSPACE]). *)
Definition isspace (c : char) : bool :=
  in_range 9 13 c || in_range 28 32 c || (c =? 133) || (c =? 160)
  || (c =? 5760) || in_range 8192 8202 c || (c =? 8232) || (c =? 8233)
  || (c =? 8239) || (c =? 8287) || (c =? 12288).

(** [LETTER_CLASS = A-Za-zÀ-ÖØ-öø-ÿ]. *)
Definition is_letter (c : char) : bool :=
  in_range 65 90 c || in_range 97 122 c
  || in_range 192 214 c || in_range 216 246 c || in_range 248 255 c.

(** The class [[LETTER_CLASS-]] of [WORD_TOKEN_RE], [TOKEN_RE], [WORD_RUN_RE]. *)
Definition is_word_char (c : char) : bool := is_letter c || (c =? HYPHEN).

(** [str.lower] on Basic Latin and Latin-1.  The script lowers only text it
    has cut down to [LETTER_CLASS] (and hyphens) first; on those code points
    this is the runtime's mapping.  Other code points are left as they are. *)
Definition lower_char (c : char) : char :=
  if in_range 65 90 c then c + 32
  else if in_range 192 222 c && negb (c =? 215) then c + 32
  else c.

Definition lower (s : str) : str := map lower_char s.

(** [text.strip()] *)
Fixpoint lstrip (s : str) : str :=
  match s with
  | [] => []
  | c :: rest => if isspace c then lstrip rest else s
  end.
Fixpoint rstrip (s : str) : str :=
  match s with
  | [] => []
  | c :: rest =>
      match rstrip rest with
      | [] => if isspace c then [] else [c]
      | r => c :: r
      end
  end.
Definition strip (s : str) : str := rstrip (lstrip s).

(** [text.replace(old, new)] for a one-character [old]. *)
Definition replace_char (old : char) (new : str) (text : str) : str :=
  flat_map (fun c => if c =? old then new else [c]) text.

(** ** Normalizer *)

(** [MULTISPACE_RE.sub] with one space: every maximal run of [\s] becomes one
    space. *)
Fixpoint collapse_spaces (text : str) : str :=
  match text with
  | [] => []
  | c :: rest =>
      if isspace c then
        match rest with
        | c' :: _ => if isspace c' then collapse_spaces rest
                     else SP :: collapse_spaces rest
        | [] => [SP]
        end
      else c :: collapse_spaces rest
  end.

Definition normalize_spacing (text : str) : str :=
  let text := replace_char 13 [] text in
  let text := replace_char 160 [SP] text in
  let text := replace_char 8239 [SP] text in
  let text := replace_char 8201 [SP] text in
  let text := replace_char 8221 [DQUOTE] text in
  let text := replace_char 8220 [DQUOTE] text in
  let text := replace_char 8217 [SQUOTE] text in
  let text := replace_char 8216 [SQUOTE] text in
  let text := replace_char 8212 [HYPHEN] text in
  let text := replace_char 8211 [HYPHEN] text in
  let text := replace_char 173 [] text in
  let text := replace_char 64257 (py "fi") text in
  let text := replace_char 64258 (py "fl") text in
  strip (collapse_spaces text).

(** The character classes of [normalize_punctuation_spacing]. *)
Definition is_closing_punct (c : char) : bool :=
  (c =? 44) || (c =? 46) || (c =? 59) || (c =? 58) || (c =? 33) || (c =? 63).
Definition is_open_bracket (c : char) : bool :=
  (c =? 40) || (c =? 91) || (c =? 123).
Definition is_close_bracket (c : char) : bool :=
  (c =? 41) || (c =? 93) || (c =? 125).
Definition is_quote (c : char) : bool := (c =? SQUOTE) || (c =? DQUOTE).
Definition is_colon (c : char) : bool := c =? COLON.

(** Does the text, after its leading whitespace, start with a character of
    class [P]? *)
Fixpoint next_after_spaces (P : char -> bool) (text : str) : bool :=
  match text with
  | [] => false
  | c :: rest => if isspace c then next_after_spaces P rest else P c
  end.

(** [re.sub] of [\s+([P])] by [\1]: a run of whitespace that ends at a
    character of [P] is deleted. *)
Fixpoint drop_space_before (P : char -> bool) (text : str) : str :=
  match text with
  | [] => []
  | c :: rest =>
      if isspace c && next_after_spaces P text then drop_space_before P rest
      else c :: drop_space_before P rest
  end.

(** [re.sub] of [([P])\s+] by [\1]: the whitespace that follows a
    character of [P] is deleted.  [after] holds while the scan is inside
    such a run. *)
Fixpoint drop_space_after_from (P : char -> bool) (after : bool) (text : str) : str :=
  match text with
  | [] => []
  | c :: rest =>
      if after && isspace c then drop_space_after_from P true rest
      else c :: drop_space_after_from P (P c) rest
  end.

Definition drop_space_after (P : char -> bool) (text : str) : str :=
  drop_space_after_from P false text.

(** The fifth substitution of [normalize_punctuation_spacing], of a colon
    followed by a quote mark (single or double): one space is put between
    them. *)
Fixpoint space_colon_quote (text : str) : str :=
  match text with
  | [] => []
  | c :: rest =>
      let q := match rest with q :: _ => is_quote q | [] => false end in
      if is_colon c && q then c :: SP :: space_colon_quote rest
      else c :: space_colon_quote rest
  end.

(** The sixth substitution, of a quote mark followed by [\s+]: the
    whitespace that follows a quote mark becomes one space. *)
Inductive quote_scan := QNone | QAfter | QRun.

Fixpoint one_space_after_quote_from (st : quote_scan) (text : str) : str :=
  match text with
  | [] => []
  | c :: rest =>
      if isspace c then
        match st with
        | QNone => c :: one_space_after_quote_from QNone rest
        | QAfter => SP :: one_space_after_quote_from QRun rest
        | QRun => one_space_after_quote_from QRun rest
        end
      else c :: one_space_after_quote_from (if is_quote c then QAfter else QNone) rest
  end.

Definition one_space_after_quote (text : str) : str :=
  one_space_after_quote_from QNone text.

Definition normalize_punctuation_spacing (text : str) : str :=
  let text := normalize_spacing text in
  let text := drop_space_before is_closing_punct text in
  let text := drop_space_after is_open_bracket text in
  let text := drop_space_before is_close_bracket text in
  let text := drop_space_before is_quote text in
  let text := space_colon_quote text in
  let text := one_space_after_quote text in
  strip (collapse_spaces text).

(** ** Tokens and letter streams *)

Local Open Scope nat_scope.

(** [normalize_letters]: everything outside [LETTER_CLASS] removed, then
    lowered. *)
Definition normalize_letters (text : str) : str := lower (List.filter is_letter text).

(** [split_tokens] is [TOKEN_RE.findall]: the text cut into its maximal runs
    of word characters and of other characters, in order. *)
Fixpoint split_tokens (text : str) : list str :=
  match text with
  | [] => []
  | c :: rest =>
      match split_tokens rest with
      | (d :: token) :: tokens =>
          if eqb (is_word_char c) (is_word_char d) then (c :: d :: token) :: tokens
          else [c] :: (d :: token) :: tokens
      | tokens => [c] :: tokens
      end
  end.

(** [WORD_TOKEN_RE.fullmatch(token)] *)
Definition is_word_token (token : str) : bool :=
  match token with [] => false | _ => forallb is_word_char token end.

Definition word_norm (word : str) : str := lower (List.filter is_letter word).

(** [token.isspace()] of a whole string. *)
Definition isspace_str (token : str) : bool :=
  match token with [] => false | _ => forallb isspace token end.

Record Stream := {
  tokens : list str;
  word_indexes : list nat;
  words : list str;
  boundaries : list nat;
  stream : str;
  boundary_set : gset nat
}.

(** The second loop of [build_stream]: the stream grows by each word's
    letters and the offset reached is recorded. *)
Definition stream_step (acc : str * list nat) (word : str) : str * list nat :=
  let stream := fst acc ++ word_norm word in
  (stream, snd acc ++ [length stream]).

Definition build_stream (text : str) : Stream :=
  let tokens := split_tokens text in
  let indexed :=
    List.filter (fun it => is_word_token (snd it)) (combine (seq 0 (length tokens)) tokens) in
  let words := map snd indexed in
  let acc := fold_left stream_step words ([], []) in
  {| tokens := tokens;
     word_indexes := map fst indexed;
     words := words;
     boundaries := snd acc;
     stream := fst acc;
     boundary_set := list_to_set (removelast (snd acc)) |}.

(** ** Similarity scorer: [difflib.SequenceMatcher(a, b, autojunk=False)]

    The matcher belongs to the Python standard library.  It is modelled from
    its documented contract: with no junk, [find_longest_match] returns the
    longest block [a[i:i+k] == b[j:j+k]] inside the given ranges, the one
    that starts earliest in [a] and, among those, earliest in [b];
    [get_matching_blocks] splits around that block, left part first, merges
    blocks that touch, and ends with the block [(len a, len b, 0)]. *)

Record Match := { m_a : nat; m_b : nat; m_size : nat }.

Fixpoint common_prefix (x y : str) : nat :=
  match x, y with
  | c :: x', d :: y' => if (c =? d)%N then S (common_prefix x' y') else 0
  | _, _ => 0%nat
  end.

(** The elements [s[lo:hi]]. *)
Definition slice {A} (s : list A) (lo hi : nat) : list A := take (hi - lo) (drop lo s).

Definition better_match (a b : str) (ahi bhi : nat) (best : Match) (i j : nat) : Match :=
  let k := common_prefix (slice a i ahi) (slice b j bhi) in
  if (m_size best <? k)%nat then {| m_a := i; m_b := j; m_size := k |} else best.

Definition find_longest_match (a b : str) (alo ahi blo bhi : nat) : Match :=
  fold_left
    (fun best i => fold_left (fun best j => better_match a b ahi bhi best i j)
                     (seq blo (bhi - blo)) best)
    (seq alo (ahi - alo))
    {| m_a := alo; m_b := blo; m_size := 0 |}.

(** The blocks of [a[alo:ahi]] against [b[blo:bhi]], in increasing order.
    Each level of the recursion removes at least one element of the range
    of [a], which [fuel] counts. *)
Fixpoint blocks_between (fuel : nat) (a b : str) (alo ahi blo bhi : nat) : list Match :=
  match fuel with
  | O => []
  | S fuel' =>
      let x := find_longest_match a b alo ahi blo bhi in
      if (m_size x =? 0)%nat then []
      else
        (if (alo <? m_a x)%nat && (blo <? m_b x)%nat
         then blocks_between fuel' a b alo (m_a x) blo (m_b x) else [])
        ++ x ::
        (if (m_a x + m_size x <? ahi)%nat && (m_b x + m_size x <? bhi)%nat
         then blocks_between fuel' a b (m_a x + m_size x) ahi (m_b x + m_size x) bhi
         else [])
  end.

(** The loop of [get_matching_blocks] that merges adjacent blocks: [cur] is
    [(i1, j1, k1)], [done] the list [non_adjacent]. *)
Definition merge_adjacent_step (st : Match * list Match) (x : Match) : Match * list Match :=
  let cur := fst st in
  if (m_a cur + m_size cur =? m_a x)%nat && (m_b cur + m_size cur =? m_b x)%nat
  then ({| m_a := m_a cur; m_b := m_b cur; m_size := m_size cur + m_size x |}, snd st)
  else (x, if (m_size cur =? 0)%nat then snd st else snd st ++ [cur]).

Definition get_matching_blocks (a b : str) : list Match :=
  let raw := blocks_between (S (length a)) a b 0 (length a) 0 (length b) in
  let st := fold_left merge_adjacent_step raw ({| m_a := 0; m_b := 0; m_size := 0 |}, []) in
  let non_adjacent :=
    if (m_size (fst st) =? 0)%nat then snd st else snd st ++ [fst st] in
  non_adjacent ++ [{| m_a := length a; m_b := length b; m_size := 0 |}].

(** [SequenceMatcher.ratio()]: twice the matched length over the total
    length, 1 when both sequences are empty. *)
Definition matcher_ratio (a b : str) : Q :=
  let matches := list_sum (map m_size (get_matching_blocks a b)) in
  let total := (length a + length b)%nat in
  if (total =? 0)%nat then 1%Q
  else Qmake (2 * Z.of_nat matches) (Pos.of_nat total).

Definition sequence_ratio (a b : str) : Q :=
  match a, b with
  | [], _ | _, [] => 0%Q
  | _, _ => matcher_ratio a b
  end.

(** ** Recorded calls

    Two sentences of the specification are about which calls are made, not
    about their results.  The functions concerned are written in a writer
    monad that records those calls: a similarity ratio computed against a
    reference unit, and a call of the tail trimmer. *)

Inductive event :=
| EvRatio (verse : Z)
| EvTrim (text reference : str).

Definition traced (A : Type) : Type := A * list event.

Definition ret {A} (x : A) : traced A := (x, []).

Definition bind {A B} (m : traced A) (k : A -> traced B) : traced B :=
  let r := k (fst m) in (fst r, snd m ++ snd r).

Definition emit (e : event) : traced unit := (tt, [e]).

Notation "x <~ m ; k" := (bind m (fun x => k))
  (at level 20, m at level 100, k at level 200, only parsing).

Definition value {A} (m : traced A) : A := fst m.
Definition trace {A} (m : traced A) : list event := snd m.

(** A [for] loop whose body records calls. *)
Fixpoint for_traced {A S} (xs : list A) (body : S -> A -> traced S) (st : S) : traced S :=
  match xs with
  | [] => ret st
  | x :: xs' => st' <~ body st x ; for_traced xs' body st'
  end.

(** ** Reference selector *)

Record RowRef := { verse : Z; text : str; normalized : str }.

Inductive ref_mode := ModeSame | ModeNeighbor | ModeNone.

Definition Qlt_bool (x y : Q) : bool := negb (Qle_bool y x).

(** [sequence_ratio(tb2_norm, r.normalized)], recorded under the verse
    number the unit was looked up at. *)
Definition ratio_against (tb2_norm : str) (key : Z) (r : RowRef) : traced Q :=
  _ <~ emit (EvRatio key) ; ret (sequence_ratio tb2_norm (normalized r)).

Definition best := (option RowRef * ref_mode * Q)%type.

(** The body of the neighbour loop of [choose_reference]. *)
Definition neighbor_step (tb2_norm : str) (ref_rows : gmap Z RowRef) (verse : Z)
    (st : best) (candidate_verse : Z) : traced best :=
  if (candidate_verse =? verse)%Z then ret st
  else
    match ref_rows !! candidate_verse with
    | None => ret st
    | Some candidate =>
        ratio <~ ratio_against tb2_norm candidate_verse candidate ;
        if Qlt_bool (snd st) ratio then ret (Some candidate, ModeNeighbor, ratio)
        else ret st
    end.

Definition choose_reference (tb2_norm : str) (ref_rows : gmap Z RowRef) (verse : Z)
    (min_direct_ratio min_neighbor_ratio : Q) (neighbor_window : Z) : traced best :=
  let direct_ref := ref_rows !! verse in
  best_ratio <~ match direct_ref with
                | Some r => ratio_against tb2_norm verse r
                | None => ret 0%Q
                end ;
  if Qle_bool min_direct_ratio best_ratio && bool_decide (is_Some direct_ref)
  then ret (direct_ref, ModeSame, best_ratio)
  else
    let low := Z.max 1 (verse - neighbor_window) in
    let high := (verse + neighbor_window)%Z in
    st <~ for_traced (seqZ low (high + 1 - low)) (neighbor_step tb2_norm ref_rows verse)
            (direct_ref, ModeSame, best_ratio) ;
    let '(best_ref, best_mode, best_ratio) := st in
    match best_ref, best_mode with
    | None, _ => ret (None, ModeNone, best_ratio)
    | Some _, ModeNeighbor =>
        if Qle_bool min_neighbor_ratio best_ratio then ret (best_ref, best_mode, best_ratio)
        else ret (None, ModeNone, best_ratio)
    | Some _, _ => ret (None, ModeNone, best_ratio)
    end.

(** ** Boundary projector *)

(** [map_stream2_to_ref]: every offset of a matching block is mapped. *)
Definition map_block (m : list (option nat)) (block : Match) : list (option nat) :=
  fold_left (fun m offset => <[m_a block + offset := Some (m_b block + offset)]> m)
    (seq 0 (m_size block)) m.

Definition map_stream2_to_ref (stream2 stream_ref : str) : list (option nat) :=
  fold_left map_block (get_matching_blocks stream2 stream_ref)
    (replicate (length stream2) None).

(** The reference offset a gap at stream offset [boundary] maps to: through
    the offset just before the gap, else through the offset just after. *)
Definition ref_boundary_of (m : list (option nat)) (boundary : nat) : option nat :=
  match (if (1 <=? boundary)%nat then mjoin (m !! (boundary - 1)%nat) else None) with
  | Some r => Some (r + 1)%nat
  | None =>
      if (boundary <? length m)%nat then mjoin (m !! boundary) else None
  end.

Definition keep_space_after_word (s2 : Stream) (m : list (option nat))
    (ref_boundaries : gset nat) : list bool :=
  map (fun i =>
         match ref_boundary_of m (default 0%nat (boundaries s2 !! i)) with
         | Some r => bool_decide (r ∈ ref_boundaries)
         | None => true
         end)
      (seq 0 (length (words s2) - 1)).

(** The inner [while] of the rebuild: the words after [wj] are appended to
    [merged] as long as the gap before them is not kept. *)
Fixpoint merge_run (keep_from : list bool) (words_after : list str)
    (merged : str) (wj : nat) : str * nat :=
  match keep_from, words_after with
  | false :: keep', w :: words' => merge_run keep' words' (merged ++ w) (S wj)
  | _, _ => (merged, wj)
  end.

Definition token_at (toks : list str) (i : nat) : str := default [] (toks !! i).
Definition index_at (idx : list nat) (k : nat) : nat := default 0%nat (idx !! k).

(** One turn of the outer [while]: the merged word replaces word [wi], the
    words merged into it are emptied, and so are the whitespace tokens
    between them.  The result is the next [wi] and the new [out_tokens]. *)
Definition merge_step (s2 : Stream) (keep : list bool) (wi : nat) (out_tokens : list str)
    : nat * list str :=
  let '(merged, wj) :=
    merge_run (drop wi keep) (drop (S wi) (words s2)) (token_at (words s2) wi) wi in
  let out := <[index_at (word_indexes s2) wi := merged]> out_tokens in
  let out :=
    fold_left (fun out kill => <[index_at (word_indexes s2) kill := []]> out)
      (seq (wi + 1) (wj - wi)) out in
  let out :=
    fold_left
      (fun out k =>
         let left := index_at (word_indexes s2) k in
         let right := index_at (word_indexes s2) (k + 1) in
         fold_left
           (fun out token_i =>
              if isspace_str (token_at out token_i) then <[token_i := []]> out else out)
           (seq (left + 1) (right - (left + 1))) out)
      (seq wi (wj - wi)) out in
  ((wj + 1)%nat, out).

Fixpoint merge_loop (fuel : nat) (s2 : Stream) (keep : list bool) (wi : nat)
    (out_tokens : list str) : list str :=
  match fuel with
  | O => out_tokens
  | S fuel' =>
      if (wi <? length (words s2))%nat then
        let '(wi', out) := merge_step s2 keep wi out_tokens in
        merge_loop fuel' s2 keep wi' out
      else out_tokens
  end.

Definition project_boundaries (tb2_text ref_text : str) : str :=
  let s2 := build_stream tb2_text in
  let sref := build_stream ref_text in
  match stream s2, stream sref, words s2 with
  | [], _, _ | _, [], _ | _, _, [] => tb2_text
  | _, _, _ =>
      let m := map_stream2_to_ref (stream s2) (stream sref) in
      let keep := keep_space_after_word s2 m (boundary_set sref) in
      concat (merge_loop (length (words s2)) s2 keep 0 (tokens s2))
  end.

(** ** Segmentation fallback: scores *)

Definition COMMON_STANDALONE_SHORT : list (list N) :=
  map py ["di"; "ke"; "ku"; "mu"; "ya"; "ia"; "aku"; "kau"; "dan"; "yang"; "itu";
          "ini"; "pun"]%string.

Definition DO_NOT_JOIN_TWO : list (list N) :=
  map py ["di"; "ke"; "dari"; "dan"; "yang"; "untuk"; "pada"; "dalam"; "dengan";
          "oleh"; "agar"; "atau"; "tetapi"; "karena"; "sebab"]%string.

Definition SUFFIX_TOKENS : list (list N) :=
  map py ["lah"; "kah"; "pun"; "nya"; "ku"; "mu"]%string.

(** [x in S] for a set of strings. *)
Definition str_in (x : list N) (S : list (list N)) : bool := bool_decide (x ∈ S).

(** ** What the script takes from its platform *)

Record Runtime := {
  (** [zipf_frequency(word, "id")] of the optional [wordfreq] package,
      [None] when the import failed. *)
  zipf_frequency : option (list N -> float);
  (** [math.log10] of an [int]. *)
  log10 : Z -> float;
  (** The built-in [sum] of a sequence of floats: additions from left to
      right up to CPython 3.11, compensated summation from 3.12 on. *)
  fsum : list float -> float;
  (** The decimal value of a code point outside ASCII
      ([Py_UNICODE_TODECIMAL]), [None] when it is not a decimal digit. *)
  unicode_decimal : N -> option Z;
  (** [sys.int_max_str_digits]: the longest digit string [int] converts,
      [None] when there is no limit. *)
  max_str_digits : option nat
}.

(** An [int] that fits 63 bits, as a float. *)
Definition float_of_nat (n : nat) : float := PrimFloat.of_uint63 (Uint63.of_Z (Z.of_nat n)).

(** The rejection score of [fallback_group_score], the threshold under which
    [fallback_merge_words] skips a group, and the initial [best_score]. *)
Definition REJECTED : float := (-9999)%float.
Definition REJECT_BELOW : float := (-9990)%float.
Definition UNREACHED : float := (-10000)%float.

(** A lexicon is a [Counter]: word to count, 0 when absent. *)
Definition lexicon_get (lexicon : gmap (list N) Z) (word : list N) : Z :=
  default 0%Z (lexicon !! word).

(** The last three returns of [token_score]. *)
Definition short_token_score (lowered : list N) : float :=
  if (length lowered <=? 2) && negb (str_in lowered COMMON_STANDALONE_SHORT) then (-6)%float
  else if (length lowered =? 3) && negb (str_in lowered COMMON_STANDALONE_SHORT)
       then (-3.5)%float
  else (-2.5)%float.

Section Fallback.

Variable rt : Runtime.

Definition token_score (token : list N) (lexicon : gmap (list N) Z) : float :=
  let lowered := lower token in
  match lowered with
  | [] => (-10)%float
  | _ =>
      let freq := lexicon_get lexicon lowered in
      if (0 <? freq)%Z then (6 + log10 rt (freq + 1)%Z * 1.8)%float
      else
        match zipf_frequency rt with
        | Some zipf =>
            let z := zipf lowered in
            if (5.2 <=? z)%float then (4 + (z - 5.2))%float
            else if (4.6 <=? z)%float && (4 <=? length lowered) then (2 + (z - 4.6))%float
            else short_token_score lowered
        | None => short_token_score lowered
        end
  end.

(** [sum(token_score(part, lexicon) for part in tokens)] *)
Definition split_score (tokens : list (list N)) (lexicon : gmap (list N) Z) : float :=
  fsum rt (map (fun part => token_score part lexicon) tokens).

(** The returns of [fallback_group_score] after the never-merge test: what
    a group of several tokens scores when that test does not reject it. *)
Definition merged_group_score (tokens : list (list N)) (lexicon : gmap (list N) Z) : float :=
  let merged := concat tokens in
  let merged_score := token_score merged lexicon in
  let bonus := (0.8 * float_of_nat (length tokens - 1))%float in
  if (merged_score + bonus <? split_score tokens lexicon - 0.2)%float then REJECTED
  else if (merged_score <? 0.5)%float then REJECTED
  else (merged_score + bonus)%float.

(** [tokens[0]] of an empty group raises in Python; the merger only scores
    slices [words[i:i+k]] with [1 <= k <= n - i], which are not empty, and
    the model reads the head with the empty string as default. *)
Definition fallback_group_score (tokens : list (list N)) (lexicon : gmap (list N) Z) : float :=
  match tokens with
  | [token] => token_score token lexicon
  | _ =>
      let first := lower (hd [] tokens) in
      if (length tokens =? 2) && str_in first DO_NOT_JOIN_TWO
         && (lexicon_get lexicon (lower (concat tokens)) =? 0)%Z
      then REJECTED
      else merged_group_score tokens lexicon
  end.

(** ** Segmentation fallback: the dynamic programme *)

Definition score_at (best_score : list float) (i : nat) : float :=
  default 0%float (best_score !! i).

(** The body of the inner loop of [fallback_merge_words], for one start [i]
    and one group length [k]. *)
Definition try_group (words : list (list N)) (lexicon : gmap (list N) Z) (i : nat)
    (st : list float * list nat) (k : nat) : list float * list nat :=
  let chunk := slice words i (i + k) in
  let score := fallback_group_score chunk lexicon in
  if (score <=? REJECT_BELOW)%float then st
  else
    let total := (score + score_at (fst st) (i + k))%float in
    if (score_at (fst st) i <? total)%float
    then (<[i := total]> (fst st), <[i := k]> (snd st))
    else st.

Definition best_from (words : list (list N)) (lexicon : gmap (list N) Z) (max_group : nat)
    (st : list float * list nat) (i : nat) : list float * list nat :=
  let upper := Nat.min max_group (length words - i) in
  fold_left (try_group words lexicon i) (seq 1 upper) st.

(** [best_score] and [best_len] after the outer loop, which runs [i] from
    [n - 1] down to 0.  A negative [max_group] leaves every range empty, as
    0 does. *)
Definition best_table (words : list (list N)) (lexicon : gmap (list N) Z) (max_group : nat)
    : list float * list nat :=
  let n := length words in
  fold_left (best_from words lexicon max_group) (rev (seq 0 n))
    (<[n := 0%float]> (replicate (n + 1) UNREACHED), replicate n 1).

(** The [while i < n] loop that reads the groups off [best_len]. *)
Fixpoint read_groups (fuel : nat) (words : list (list N)) (best_len : list nat) (i : nat)
    (out : list (list N)) : list (list N) :=
  match fuel with
  | O => out
  | S fuel' =>
      if i <? length words then
        let k := default 0 (best_len !! i) in
        read_groups fuel' words best_len (i + k) (out ++ [concat (slice words i (i + k))])
      else out
  end.

(** [" ".join(parts)] *)
Fixpoint join_space (parts : list (list N)) : list N :=
  match parts with
  | [] => []
  | [p] => p
  | p :: rest => p ++ SP :: join_space rest
  end.

Definition fallback_merge_words (words : list (list N)) (lexicon : gmap (list N) Z)
    (max_group : nat) : list N :=
  let n := length words in
  if n <=? 1 then join_space words
  else
    let best_len := snd (best_table words lexicon max_group) in
    join_space (read_groups n words best_len 0 []).

(** [fallback_clean_text] is [WORD_RUN_RE.sub(repl, text)].  A match of
    [WORD_RUN_RE] is a run of word characters followed, one or more times,
    by whitespace and another run of word characters, each run as long as
    possible. *)
Fixpoint span (P : N -> bool) (s : list N) : list N * list N :=
  match s with
  | c :: rest => if P c then let r := span P rest in (c :: fst r, snd r) else ([], s)
  | [] => ([], [])
  end.

(** The repeated group of [WORD_RUN_RE]: further words, each after
    whitespace, and the text left after the last of them. *)
Fixpoint more_words (fuel : nat) (s : list N) : list (list N) * list N :=
  match fuel with
  | O => ([], s)
  | S fuel' =>
      let sp := span isspace s in
      let wd := span is_word_char (snd sp) in
      match fst sp, fst wd with
      | _ :: _, _ :: _ =>
          let r := more_words fuel' (snd wd) in (fst wd :: fst r, snd r)
      | _, _ => ([], s)
      end
  end.

(** A match of [WORD_RUN_RE] at the start of [s]: the words of the match
    ([match.group(0).split()]) and the text after it. *)
Definition match_word_run (s : list N) : option (list (list N) * list N) :=
  let wd := span is_word_char s in
  match fst wd with
  | [] => None
  | _ :: _ =>
      let r := more_words (length s) (snd wd) in
      match fst r with
      | [] => None
      | _ :: _ => Some (fst wd :: fst r, snd r)
      end
  end.

Fixpoint sub_word_runs (fuel : nat) (lexicon : gmap (list N) Z) (s : list N) : list N :=
  match fuel with
  | O => s
  | S fuel' =>
      match s with
      | [] => []
      | c :: rest =>
          match match_word_run s with
          | Some (ws, after) =>
              fallback_merge_words ws lexicon 5 ++ sub_word_runs fuel' lexicon after
          | None => c :: sub_word_runs fuel' lexicon rest
          end
      end
  end.

Definition fallback_clean_text (text : list N) (lexicon : gmap (list N) Z) : list N :=
  sub_word_runs (length text) lexicon text.

End Fallback.

(** ** Tail trimming *)

(** [int(x)] of a rational: truncation towards zero. *)
Definition int_of_Q (x : Q) : Z := (Qnum x ÷ Zpos (Qden x))%Z.

Definition is_sentence_end (c : N) : bool := ((c =? 46) || (c =? 33) || (c =? 63))%N.

(** The loop of [trim_low_confidence_tail] over [enumerate(source)]: [idx]
    is the position, [letter_count] the letters seen so far. *)
Fixpoint sentence_ends_from (idx letter_count : nat) (source : list N) : list (nat * nat) :=
  match source with
  | [] => []
  | c :: rest =>
      let letter_count := if is_letter c then S letter_count else letter_count in
      if is_sentence_end c
      then (idx + 1, letter_count) :: sentence_ends_from (S idx) letter_count rest
      else sentence_ends_from (S idx) letter_count rest
  end.

(** [min(candidates, key=...)]: the first candidate with the least key. *)
Fixpoint min_by {A} (key : A -> Z) (best : A) (rest : list A) : A :=
  match rest with
  | [] => best
  | x :: rest' => if (key x <? key best)%Z then min_by key x rest' else min_by key best rest'
  end.

Definition trim_low_confidence_tail (text reference_text : list N) (max_ratio : Q) : list N :=
  let source := strip text in
  match source with
  | [] => source
  | _ =>
    let source_norm := normalize_letters source in
    let reference_norm := normalize_letters reference_text in
    match source_norm, reference_norm with
    | [], _ | _, [] => source
    | _, _ =>
      let ref_letters := Z.of_nat (length reference_norm) in
      if (Z.of_nat (length source_norm) <=? int_of_Q (inject_Z ref_letters * max_ratio))%Z
      then source
      else
        match sentence_ends_from 0 0 source with
        | [] => source
        | sentence_ends =>
          let lower := int_of_Q (inject_Z ref_letters * (65 # 100)) in
          let upper := int_of_Q (inject_Z ref_letters * (155 # 100)) in
          let candidates :=
            List.filter (fun it => (lower <=? Z.of_nat (snd it))%Z
                                   && (Z.of_nat (snd it) <=? upper)%Z) sentence_ends in
          match candidates with
          | [] => source
          | first :: others =>
              let best :=
                min_by (fun it => Z.abs (Z.of_nat (snd it) - ref_letters)) first others in
              match strip (take (fst best) source) with
              | [] => source
              | trimmed => trimmed
              end
          end
        end
    end
  end.

(** ** A backtracking matcher

    The remaining regular expressions of the script (phrase fixes, suffix
    join, hyphen restoration, citation noise, short runs) are run on a small
    matcher with the priorities of Python's [re]: alternatives in order,
    greedy repetition, [\b], capturing groups.  Character classes are
    predicates; under [re.IGNORECASE] a literal is compared after lowering.

    The tables behind [\w], [\d] and case folding cover Basic Latin and
    Latin-1; other code points count as neither word characters nor digits
    and fold to themselves. *)

Inductive regex :=
| RChar (P : N -> bool)
| REmpty
| RSeq (r1 r2 : regex)
| RAlt (r1 r2 : regex)
| RStar (r : regex)
| RBoundary
| RGroup (r : regex).

(** What a match leaves: the text after it and the captured groups. *)
Definition match_result := (list N * list (list N))%type.

Definition is_digit (c : N) : bool := in_range 48 57 c.

(** [\w]: alphanumeric or underscore. *)
Definition is_alnum_char (c : N) : bool :=
  is_digit c || is_letter c || (c =? 170)%N || (c =? 178)%N || (c =? 179)%N
  || (c =? 181)%N || (c =? 185)%N || (c =? 186)%N || in_range 188 190 c.

Definition is_w (c : option N) : bool :=
  match c with
  | Some c => is_alnum_char c || (c =? 95)%N
  | None => false
  end.

Fixpoint rmatch (r : regex) (prev : option N) (s : list N) (caps : list (list N))
    (k : option N -> list N -> list (list N) -> option match_result) : option match_result :=
  match r with
  | RChar P =>
      match s with
      | c :: s' => if P c then k (Some c) s' caps else None
      | [] => None
      end
  | REmpty => k prev s caps
  | RSeq r1 r2 => rmatch r1 prev s caps (fun p' s' c' => rmatch r2 p' s' c' k)
  | RAlt r1 r2 =>
      match rmatch r1 prev s caps k with
      | Some x => Some x
      | None => rmatch r2 prev s caps k
      end
  | RStar r1 =>
      (fix star (fuel : nat) (prev : option N) (s : list N) (caps : list (list N))
         : option match_result :=
         match fuel with
         | O => k prev s caps
         | S fuel' =>
             match rmatch r1 prev s caps
                     (fun p' s' c' =>
                        if length s' <? length s then star fuel' p' s' c' else None) with
             | Some x => Some x
             | None => k prev s caps
             end
         end) (length s) prev s caps
  | RBoundary => if xorb (is_w prev) (is_w (head s)) then k prev s caps else None
  | RGroup r1 =>
      rmatch r1 prev s caps
        (fun p' s' c' => k p' s' (c' ++ [take (length s - length s') s]))
  end.

(** The first match at the start of [s], with [prev] the character before. *)
Definition match_here (r : regex) (prev : option N) (s : list N) : option match_result :=
  rmatch r prev s [] (fun _ s' caps => Some (s', caps)).

(** [pattern.fullmatch(s)] *)
Definition fullmatch (r : regex) (s : list N) : bool :=
  match rmatch r None s [] (fun _ s' caps =>
          match s' with [] => Some (s', caps) | _ => None end) with
  | Some _ => true
  | None => false
  end.

(** [pattern.sub(repl, s)]: leftmost matches, not overlapping.  None of the
    script's patterns matches the empty string; an empty match is passed
    over. *)
Fixpoint re_sub_from (fuel : nat) (r : regex) (repl : list N -> list (list N) -> list N)
    (prev : option N) (s : list N) : list N :=
  match fuel with
  | O => s
  | S fuel' =>
      match s with
      | [] => []
      | c :: rest =>
          match match_here r prev s with
          | Some (s', caps) =>
              let n := length s - length s' in
              if n =? 0 then c :: re_sub_from fuel' r repl (Some c) rest
              else repl (take n s) caps ++ re_sub_from fuel' r repl (last (take n s)) s'
          | None => c :: re_sub_from fuel' r repl (Some c) rest
          end
      end
  end.

Definition re_sub (r : regex) (repl : list N -> list (list N) -> list N) (s : list N)
    : list N :=
  re_sub_from (length s) r repl None s.

(** [pattern.findall(s)] for a pattern without capturing groups. *)
Fixpoint re_findall_from (fuel : nat) (r : regex) (prev : option N) (s : list N)
    : list (list N) :=
  match fuel with
  | O => []
  | S fuel' =>
      match s with
      | [] => []
      | c :: rest =>
          match match_here r prev s with
          | Some (s', _) =>
              let n := length s - length s' in
              if n =? 0 then re_findall_from fuel' r (Some c) rest
              else take n s :: re_findall_from fuel' r (last (take n s)) s'
          | None => re_findall_from fuel' r (Some c) rest
          end
      end
  end.

Definition re_findall (r : regex) (s : list N) : list (list N) :=
  re_findall_from (length s) r None s.

(** Pattern builders. *)
Definition lit (c : N) : regex := RChar (N.eqb c).
Definition lit_i (c : N) : regex := RChar (fun x => (lower_char x =? lower_char c)%N).
Definition rplus (r : regex) : regex := RSeq r (RStar r).
Definition ropt (r : regex) : regex := RAlt r REmpty.
Fixpoint rseq (rs : list regex) : regex :=
  match rs with
  | [] => REmpty
  | [r] => r
  | r :: rs' => RSeq r (rseq rs')
  end.
Fixpoint ralt (rs : list regex) : regex :=
  match rs with
  | [] => RChar (fun _ => false)
  | [r] => r
  | r :: rs' => RAlt r (ralt rs')
  end.
(** [r{lo,lo+extra}], greedy. *)
Fixpoint rupto (r : regex) (extra : nat) : regex :=
  match extra with
  | O => REmpty
  | S e => ropt (RSeq r (rupto r e))
  end.
Fixpoint rtimes (r : regex) (n : nat) (rest : regex) : regex :=
  match n with
  | O => rest
  | S n' => RSeq r (rtimes r n' rest)
  end.
Definition rrange (r : regex) (lo extra : nat) : regex := rtimes r lo (rupto r extra).
(** A word, letter by letter, ignoring case or not. *)
Definition word_i (w : list N) : regex := rseq (map lit_i w).
Definition word_s (w : list N) : regex := rseq (map lit w).

Definition r_space : regex := RChar isspace.
Definition r_letter : regex := RChar is_letter.
Definition r_digit : regex := RChar is_digit.
Definition r_digits13 : regex := rrange r_digit 1 2.

(** ** Post-processing passes *)

(** [STATIC_SAFE_PHRASE_FIXES]: the words of each pattern and its
    replacement.  The pattern of an entry is its words between two [\b],
    separated by [\s+], ignoring case. *)
Definition STATIC_SAFE_PHRASE_FIXES : list (list (list N) * list N) := [
  ([py "kemu"; py "di"; py "an"], py "kemudian");
  ([py "ya"; py "hu"; py "di"], py "yahudi");
  ([py "ber"; py "di"; py "ri"], py "berdiri");
  ([py "memberi"; py "tahu"; py "kan"], py "memberitahukan");
  ([py "per"; py "buat"; py "an"], py "perbuatan");
  ([py "peng"; py "lihat"; py "an"], py "penglihatan");
  ([py "ke"; py "raja"; py "an"], py "kerajaan");
  ([py "ke"; py "tetap"; py "an"], py "ketetapan");
  ([py "me"; py "laku"; py "kan"], py "melakukan");
  ([py "ke"; py "kuasa"; py "an"], py "kekuasaan");
  ([py "per"; py "kata"; py "an"], py "perkataan");
  ([py "ke"; py "mulia"; py "an"], py "kemuliaan");
  ([py "ke"; py "kuat"; py "an"], py "kekuatan");
  ([py "per"; py "api"; py "an"], py "perapian");
  ([py "ke"; py "turun"; py "an"], py "keturunan");
  ([py "di"; py "beri"; py "kan"], py "diberikan");
  ([py "di"; py "laku"; py "kan"], py "dilakukan");
  ([py "ke"; py "ada"; py "an"], py "keadaan");
  ([py "ke"; py "gelap"; py "an"], py "kegelapan");
  ([py "me"; py "si"; py "as"], py "mesias");
  ([py "ke"; py "benar"; py "an"], py "kebenaran");
  ([py "me"; py "lepas"; py "kan"], py "melepaskan");
  ([py "me"; py "me"; py "gang"], py "memegang");
  ([py "se"; py "per"; py "tiga"], py "sepertiga");
  ([py "ke"; py "raja"; py "annya"], py "kerajaannya");
  ([py "ke"; py "pada"; py "nya"], py "kepadanya");
  ([py "ke"; py "pada"], py "kepada");
  ([py "di"; py "ri"], py "diri");
  ([py "me"; py "lihat"], py "melihat");
  ([py "ke"; py "dua"], py "kedua");
  ([py "bah"; py "kan"], py "bahkan");
  ([py "per"; py "buat"], py "perbuat");
  ([py "laku"; py "kan"], py "lakukan");
  ([py "demi"; py "kian"], py "demikian");
  ([py "demi"; py "kianlah"], py "demikianlah");
  ([py "ke"; py "padaku"], py "kepadaku");
  ([py "ke"; py "padamu"], py "kepadamu");
  ([py "ke"; py "padanya"], py "kepadanya");
  ([py "si"; py "apa"], py "siapa");
  ([py "ke"; py "empat"], py "keempat");
  ([py "di"; py "beri"], py "diberi");
  ([py "per"; py "nah"], py "pernah");
  ([py "me"; py "lawan"], py "melawan");
  ([py "ke"; py "tiga"], py "ketiga");
  ([py "beri"; py "kan"], py "berikan");
  ([py "mendengar"; py "kan"], py "mendengarkan");
  ([py "pa"; py "da"], py "pada");
  ([py "ha"; py "ri"], py "hari");
  ([py "ja"; py "di"], py "jadi");
  ([py "pada"; py "nya"], py "padanya");
  ([py "pengajar"; py "an"], py "pengajaran");
  ([py "api"; py "an"], py "apian");
  ([py "di"; py "rinya"], py "dirinya");
  ([py "ter"; py "tulis"], py "tertulis");
  ([py "di"; py "bawa"], py "dibawa");
  ([py "kata"; py "kan"], py "katakan");
  ([py "nyata"; py "kan"], py "nyatakan");
  ([py "buat"; py "an"], py "buatan");
  ([py "ter"; py "jadi"], py "terjadi");
  ([py "pemerintah"; py "an"], py "pemerintahan");
  ([py "sem"; py "bah"], py "sembah");
  ([py "sem"; py "bah"; py "an"], py "sembahan");
  ([py "per"; py "sem"; py "bah"; py "kan"], py "persembahkan");
  ([py "per"; py "sem"; py "bah"; py "an"], py "persembahan");
  ([py "men"; py "diri"; py "kan"], py "mendirikan");
  ([py "ka"; py "re"; py "na"], py "karena");
  ([py "sau"; py "da"; py "ra"], py "saudara");
  ([py "di"; py "taruh"], py "ditaruh");
  ([py "me"; py "lahir"; py "kan"], py "melahirkan");
  ([py "ke"; py "dengar"; py "an"], py "kedengaran");
  ([py "ke"; py "pedih"; py "an"], py "kepedihan");
  ([py "me"; py "minta"], py "meminta");
  ([py "di"; py "tumpas"], py "ditumpas")
].

Fixpoint phrase_words (ws : list (list N)) : regex :=
  match ws with
  | [] => REmpty
  | [w] => word_i w
  | w :: ws' => RSeq (word_i w) (RSeq (rplus r_space) (phrase_words ws'))
  end.

Definition phrase_pattern (ws : list (list N)) : regex :=
  RSeq RBoundary (RSeq (phrase_words ws) RBoundary).

(** One round of the inner [for] of [apply_static_safe_phrase_fixes]. *)
Definition phrase_pass (table : list (list (list N) * list N)) (fixed : list N) : list N :=
  fold_left (fun fixed entry => re_sub (phrase_pattern (fst entry)) (fun _ _ => snd entry) fixed)
            table fixed.

Fixpoint phrase_rounds (rounds : nat) (fixed : list N) : list N :=
  match rounds with
  | O => fixed
  | S rounds' =>
      let next := phrase_pass STATIC_SAFE_PHRASE_FIXES fixed in
      if bool_decide (next = fixed) then next else phrase_rounds rounds' next
  end.

Definition apply_static_safe_phrase_fixes (text : list N) : list N := phrase_rounds 4 text.

(** The pattern of [apply_suffix_join]: a run of letters, whitespace, one of
    the sorted suffix tokens, between two [\b], ignoring case. *)
Definition suffix_pattern : regex :=
  rseq [RBoundary; RGroup (rplus r_letter); rplus r_space;
        RGroup (ralt (map word_i [py "kah"; py "ku"; py "lah"; py "mu"; py "nya"; py "pun"]));
        RBoundary].

(** The replacement [\1\2]. *)
Definition join_groups (_ : list N) (caps : list (list N)) : list N := concat caps.

Fixpoint suffix_rounds (rounds : nat) (previous : option (list N)) (current : list N)
    : list N :=
  match rounds with
  | O => current
  | S rounds' =>
      if bool_decide (Some current = previous) then current
      else suffix_rounds rounds' (Some current) (re_sub suffix_pattern join_groups current)
  end.

Definition apply_suffix_join (text : list N) : list N := suffix_rounds 3 None text.

(** [c.isupper()] and [c.upper()] of one character. *)
Definition is_upper (c : N) : bool :=
  in_range 65 90 c || in_range 192 214 c || in_range 216 222 c.

Definition upper_char (c : N) : list N :=
  if in_range 97 122 c then [(c - 32)%N]
  else if in_range 224 254 c && negb (c =? 247)%N then [(c - 32)%N]
  else if (c =? 223)%N then py "SS"
  else if (c =? 255)%N then [376%N]
  else if (c =? 181)%N then [924%N]
  else [c].

(** The callback [repl] of [restore_hyphen_forms]. *)
Definition hyphen_repl (hyphen_lookup : gmap (list N) (list N)) (token : list N)
    (_ : list (list N)) : list N :=
  match hyphen_lookup !! lower token with
  | None | Some [] => token
  | Some (h :: hyphen) =>
      if match token with c :: _ => is_upper c | [] => false end
      then upper_char h ++ hyphen
      else h :: hyphen
  end.

Definition long_word_pattern : regex :=
  rseq [RBoundary; rtimes r_letter 5 (RStar r_letter); RBoundary].

Definition restore_hyphen_forms (text : list N) (hyphen_lookup : gmap (list N) (list N))
    : list N :=
  re_sub long_word_pattern (hyphen_repl hyphen_lookup) text.

(** ** Citation noise *)

Definition REFERENCE_BOOK_ABBRS : list (list N) := [
   py "Kej"; py "Kel"; py "Im"; py "Bil"; py "Ul"; py "Yos"; py "Hak"; py "Rut";
   py "1Sam"; py "2Sam"; py "1Raj"; py "2Raj"; py "1Taw"; py "2Taw"; py "Ezr"; py "Neh";
   py "Est"; py "Ayb"; py "Mzm"; py "Ams"; py "Pkh"; py "Kid"; py "Yes"; py "Yer";
   py "Rat"; py "Yeh"; py "Dan"; py "Hos"; py "Yl"; py "Am"; py "Ob"; py "Yun";
   py "Mi"; py "Nah"; py "Hab"; py "Zef"; py "Hag"; py "Za"; py "Mal"; py "Mat";
   py "Mrk"; py "Luk"; py "Yoh"; py "Kis"; py "Rm"; py "1Kor"; py "2Kor"; py "Gal";
   py "Ef"; py "Flp"; py "Kol"; py "1Tes"; py "2Tes"; py "1Tim"; py "2Tim"; py "Tit";
   py "Flm"; py "Ibr"; py "Yak"; py "1Ptr"; py "2Ptr"; py "1Yoh"; py "2Yoh"; py "3Yoh";
   py "Yud"; py "Why"; py "Tob"; py "Ydt"; py "Keb"; py "Sir"; py "Bar"; py "1Mak";
   py "2Mak"
].

(** Chapter and verse, with an optional range. *)
Definition r_ref_core : regex :=
  rseq [r_digits13; lit COLON; r_digits13;
        ropt (rseq [lit HYPHEN; r_digits13; ropt (RSeq (lit COLON) r_digits13)])].

(** An optional digit 1 to 3, letters, an optional full stop. *)
Definition r_book_core : regex :=
  rseq [ropt (RChar (in_range 49 51)); rplus r_letter; ropt (lit 46)].

Definition is_separator_char (c : N) : bool :=
  ((c =? 59) || (c =? 44) || (c =? 46) || (c =? 58) || (c =? 33) || (c =? 63)
   || (c =? 40) || (c =? 41) || (c =? 91) || (c =? 93) || (c =? 34) || (c =? 39)
   || (c =? 47) || (c =? 45))%N.

Definition REFERENCE_TOKEN_RE : regex :=
  ralt [rplus r_space;
        r_ref_core;
        rseq [r_digits13; lit HYPHEN; r_digits13];
        r_book_core;
        rplus r_digit;
        RChar is_separator_char;
        RChar (fun c => negb (c =? 10)%N)].

Definition CITATION_REF_RE : regex := r_ref_core.
Definition CITATION_CONT_RE : regex := RSeq r_digits13 (ropt (RSeq (lit HYPHEN) r_digits13)).
Definition CITATION_BOOK_TOKEN_RE : regex := r_book_core.

(** One citation, with an optional book before it. *)
Definition r_parens_item : regex :=
  RSeq (ropt (rseq [ropt (RChar (in_range 49 51)); rplus r_letter; ropt (lit 46);
                    rplus r_space]))
       r_ref_core.

Definition REFERENCE_PARENS_RE : regex :=
  rseq [lit 40; RStar r_space; r_parens_item;
        RStar (rseq [RStar r_space; RChar (fun c => (c =? 44) || (c =? 59))%N; RStar r_space;
                     r_parens_item]);
        RStar r_space; lit 41].

Definition MALFORMED_HEAD_REF_RE : regex :=
  rseq [RBoundary; r_digits13; lit COLON; r_digits13; lit COLON; RStar r_space;
        ropt (RChar (in_range 49 51)); rrange r_letter 2 22; ropt (lit 46)].

(** [s.strip(chars)] *)
Fixpoint lstrip_with (P : N -> bool) (s : list N) : list N :=
  match s with
  | [] => []
  | c :: rest => if P c then lstrip_with P rest else s
  end.
Fixpoint rstrip_with (P : N -> bool) (s : list N) : list N :=
  match s with
  | [] => []
  | c :: rest =>
      match rstrip_with P rest with
      | [] => if P c then [] else [c]
      | r => c :: r
      end
  end.
Definition strip_with (P : N -> bool) (s : list N) : list N := rstrip_with P (lstrip_with P s).

Definition is_reference_book_token (token : list N) : bool :=
  if negb (fullmatch CITATION_BOOK_TOKEN_RE token) then false
  else str_in (rstrip_with (N.eqb 46) token) REFERENCE_BOOK_ABBRS.

Inductive ref_kind := KindNone | KindRef | KindBook | KindSep | KindCont.

Record ref_counts := {
  ref_count : nat;
  book_count : nat;
  cont_count : nat;
  sep_count : nat;
  nonspace_count : nat
}.

Definition no_counts : ref_counts := Build_ref_counts 0 0 0 0 0.

Definition is_separator (token : list N) : bool :=
  match token with
  | [c] => is_separator_char c
  | _ => false
  end.

(** The inner [while] of [remove_cross_reference_noise], on the tokens from
    [j] on: where it stops and what it counted. *)
Fixpoint scan_reference (rest : list (list N)) (j : nat) (c : ref_counts) (prev_kind : ref_kind)
    : nat * ref_counts :=
  match rest with
  | [] => (j, c)
  | current :: rest' =>
      if isspace_str current then scan_reference rest' (j + 1) c prev_kind
      else if fullmatch CITATION_REF_RE current then
        scan_reference rest' (j + 1)
          (Build_ref_counts (ref_count c + 1) (book_count c) (cont_count c) (sep_count c)
                            (nonspace_count c + 1)) KindRef
      else if is_reference_book_token current then
        scan_reference rest' (j + 1)
          (Build_ref_counts (ref_count c) (book_count c + 1) (cont_count c) (sep_count c)
                            (nonspace_count c + 1)) KindBook
      else if is_separator current then
        scan_reference rest' (j + 1)
          (Build_ref_counts (ref_count c) (book_count c) (cont_count c) (sep_count c + 1)
                            (nonspace_count c + 1)) KindSep
      else if fullmatch CITATION_CONT_RE current then
        match prev_kind with
        | KindNone => (j, c)
        | _ =>
            scan_reference rest' (j + 1)
              (Build_ref_counts (ref_count c) (book_count c) (cont_count c + 1) (sep_count c)
                                (nonspace_count c + 1)) KindCont
        end
      else (j, c)
  end.

Definition looks_like_reference (c : ref_counts) : bool :=
  ((2 <=? ref_count c) && ((1 <=? book_count c) || (1 <=? cont_count c)))
  || ((1 <=? book_count c) && (1 <=? ref_count c) && (1 <=? sep_count c)
      && (5 <=? nonspace_count c))
  || (3 <=? ref_count c).

(** [for idx in range(i, j): remove[idx] = True] *)
Definition mark_range (i j : nat) (remove : list bool) : list bool :=
  fold_left (fun remove idx => <[idx := true]> remove) (seq i (j - i)) remove.

(** The outer [while] of [remove_cross_reference_noise]. *)
Fixpoint mark_references (fuel : nat) (tokens : list (list N)) (remove : list bool) (i : nat)
    : list bool :=
  match fuel with
  | O => remove
  | S fuel' =>
      match tokens !! i with
      | None => remove
      | Some token =>
          if isspace_str token then mark_references fuel' tokens remove (i + 1)
          else if negb (fullmatch CITATION_REF_RE token || is_reference_book_token token
                        || fullmatch CITATION_CONT_RE token)
          then mark_references fuel' tokens remove (i + 1)
          else
            let '(j, c) := scan_reference (drop i tokens) i no_counts KindNone in
            if looks_like_reference c
            then mark_references fuel' tokens (mark_range i j remove) j
            else mark_references fuel' tokens remove (i + 1)
      end
  end.

(** The tokens whose flag is not set, joined. *)
Definition join_kept (tokens : list (list N)) (remove : list bool) : list N :=
  concat (map fst (List.filter (fun p => negb (snd p)) (zip tokens remove))).

Definition remove_cross_reference_noise (text : list N) : list N :=
  let tokens := re_findall REFERENCE_TOKEN_RE text in
  match tokens with
  | [] => text
  | _ =>
      let remove := mark_references (length tokens) tokens (replicate (length tokens) false) 0 in
      let cleaned := join_kept tokens remove in
      let cleaned := re_sub REFERENCE_PARENS_RE (fun _ _ => []) cleaned in
      let cleaned := re_sub MALFORMED_HEAD_REF_RE (fun _ _ => []) cleaned in
      let cleaned := strip (re_sub (rtimes r_space 2 (RStar r_space)) (fun _ _ => [SP]) cleaned) in
      let cleaned := drop_space_before is_closing_punct cleaned in
      let cleaned := drop_space_after is_open_bracket cleaned in
      let cleaned := drop_space_before is_close_bracket cleaned in
      let cleaned :=
        re_sub (rseq [RStar r_space; lit HYPHEN; RStar r_space; RGroup (RChar is_closing_punct)])
               join_groups cleaned in
      strip_with (fun c => (c =? 32) || (c =? 59) || (c =? 44))%N cleaned
  end.

(** ** Lexicon and reference index *)

(** A row of [csv.DictReader]: field names to values; a field the line
    was too short for has the value [None]. *)
Abbreviation row := (gmap (list N) (option (list N))) (only parsing).

(** [row.get(name) or ""] (the empty string counts as missing) *)
Definition field (r : row) (name : string) : list N :=
  match r !! py name with
  | Some (Some v) => v
  | _ => []
  end.

Definition WORD_TOKEN_RE : regex := rplus (RChar is_word_char).
Definition VALID_HYPHEN_WORD_RE : regex :=
  RSeq (rplus r_letter) (rplus (RSeq (lit HYPHEN) (rplus r_letter))).

(** [s.split(sep)] for a one-character separator. *)
Fixpoint split_on (sep : N) (s : list N) : list (list N) :=
  match s with
  | [] => [[]]
  | c :: rest =>
      if (c =? sep)%N then [] :: split_on sep rest
      else
        match split_on sep rest with
        | p :: ps => (c :: p) :: ps
        | [] => [[c]]
        end
  end.

(** [counter[key] += 1] on a counter whose order of insertion matters. *)
Fixpoint incr_ordered (key : list N) (counter : list (list N * Z)) : list (list N * Z) :=
  match counter with
  | [] => [(key, 1%Z)]
  | (k, v) :: rest =>
      if bool_decide (k = key) then (k, (v + 1)%Z) :: rest
      else (k, v) :: incr_ordered key rest
  end.

(** The body of the token loop of [build_tb1_lexicon]. *)
Definition count_token (st : gmap (list N) Z * list (list N * Z)) (token : list N)
    : gmap (list N) Z * list (list N * Z) :=
  let '(word_counter, hyphen_forms) := st in
  let lowered := lower token in
  let word_counter := <[lowered := (lexicon_get word_counter lowered + 1)%Z]> word_counter in
  if fullmatch VALID_HYPHEN_WORD_RE lowered then
    let parts := split_on HYPHEN lowered in
    if existsb (fun part => str_in part SUFFIX_TOKENS) (tail parts) then (word_counter, hyphen_forms)
    else if existsb (fun part => length part <? 3) parts then (word_counter, hyphen_forms)
    else (word_counter, incr_ordered lowered hyphen_forms)
  else (word_counter, hyphen_forms).

Definition count_row (st : gmap (list N) Z * list (list N * Z)) (r : row)
    : gmap (list N) Z * list (list N * Z) :=
  fold_left (fun st name => fold_left count_token (re_findall WORD_TOKEN_RE (field r name)) st)
            ["text"; "pericope"]%string st.

(** [by_joined[joined].append(item)] *)
Fixpoint append_option (joined : list N) (item : list N * Z)
    (by_joined : list (list N * list (list N * Z))) : list (list N * list (list N * Z)) :=
  match by_joined with
  | [] => [(joined, [item])]
  | (k, options) :: rest =>
      if bool_decide (k = joined) then (k, options ++ [item]) :: rest
      else (k, options) :: append_option joined item rest
  end.

(** [options.sort(key=lambda item: item[1], reverse=True)]: a stable sort,
    greatest frequency first. *)
Fixpoint insert_by_freq (x : list N * Z) (sorted : list (list N * Z)) : list (list N * Z) :=
  match sorted with
  | [] => [x]
  | y :: rest => if (snd y <=? snd x)%Z then x :: sorted else y :: insert_by_freq x rest
  end.

Definition sort_by_freq (options : list (list N * Z)) : list (list N * Z) :=
  foldr insert_by_freq [] options.

Definition build_hyphen_lookup (hyphen_forms : list (list N * Z)) : gmap (list N) (list N) :=
  let by_joined :=
    fold_left (fun by_joined item =>
                 append_option (replace_char HYPHEN [] (fst item)) item by_joined)
              hyphen_forms [] in
  fold_left (fun hyphen_lookup entry =>
               match sort_by_freq (snd entry) with
               | best :: _ => <[fst entry := fst best]> hyphen_lookup
               | [] => hyphen_lookup
               end)
            by_joined ∅.

Definition build_tb1_lexicon (tb1_rows : list row) : gmap (list N) Z * gmap (list N) (list N) :=
  let '(word_counter, hyphen_forms) := fold_left count_row tb1_rows (∅, []) in
  (word_counter, build_hyphen_lookup hyphen_forms).

(** [int(s)] of a stripped string: an optional sign, then decimal digits,
    single underscores allowed between digits; [None] is [ValueError].  A
    digit is an ASCII digit or a code point the Unicode tables give a
    decimal value.  A string of more digits than [sys.int_max_str_digits]
    is refused. *)
Definition digit_value (rt : Runtime) (c : N) : option Z :=
  if is_digit c then Some (Z.of_N c - 48)%Z
  else if (c <? 128)%N then None
  else unicode_decimal rt c.

Fixpoint parse_digits (rt : Runtime) (acc : Z) (digits : nat) (after_digit : bool) (s : list N)
    : option (Z * nat) :=
  match s with
  | [] => if after_digit then Some (acc, digits) else None
  | c :: rest =>
      match digit_value rt c with
      | Some d => parse_digits rt (10 * acc + d)%Z (S digits) true rest
      | None =>
          if (c =? 95)%N && after_digit then parse_digits rt acc digits false rest
          else None
      end
  end.

Definition within_digit_limit (rt : Runtime) (digits : nat) : bool :=
  match max_str_digits rt with
  | Some limit => digits <=? limit
  | None => true
  end.

Definition parse_unsigned (rt : Runtime) (s : list N) : option Z :=
  match parse_digits rt 0 0 false s with
  | Some (v, digits) => if within_digit_limit rt digits then Some v else None
  | None => None
  end.

Definition parse_int (rt : Runtime) (s : list N) : option Z :=
  match s with
  | [] => None
  | c :: rest =>
      if (c =? 43)%N then parse_unsigned rt rest
      else if (c =? 45)%N then Z.opp <$> parse_unsigned rt rest
      else parse_unsigned rt s
  end.

Abbreviation tb1_index := (gmap (list N * list N) (gmap Z RowRef)) (only parsing).

(** The body of the loop of [index_tb1_rows]. *)
Definition index_row (rt : Runtime) (index : tb1_index) (r : row) : tb1_index :=
  let book := strip (field r "book_name") in
  let chapter := strip (field r "chapter") in
  let verse_raw := strip (field r "verse") in
  let text := normalize_spacing (field r "text") in
  match book, chapter, verse_raw with
  | [], _, _ | _, [], _ | _, _, [] => index
  | _, _, _ =>
      match parse_int rt verse_raw with
      | None => index
      | Some verse =>
          <[(book, chapter) :=
              <[verse := Build_RowRef verse text (normalize_letters text)]>
                (default ∅ (index !! (book, chapter)))]> index
      end
  end.

Definition index_tb1_rows (rt : Runtime) (tb1_rows : list row) : tb1_index :=
  fold_left (index_row rt) tb1_rows ∅.

(** ** The engine *)

(** [SHORT_RUN_RE]: three or more words of one to three characters. *)
Definition r_short_word : regex :=
  rseq [RBoundary; rrange (RChar (fun c => is_w (Some c) || in_range 192 255 c)) 1 2; RBoundary].

Definition SHORT_RUN_RE : regex :=
  rseq [r_short_word; rplus r_space; r_short_word; rplus r_space;
        RStar (RSeq r_short_word (rplus r_space)); r_short_word].

Record Args := {
  min_direct_ratio : Q;
  min_neighbor_ratio : Q;
  neighbor_window : Z
}.

Record Stats := {
  rows_total : nat;
  rows_changed : nat;
  rows_alignment_same_verse : nat;
  rows_alignment_neighbor : nat;
  rows_fallback : nat;
  low_confidence_rows : nat;
  short_runs_before : nat;
  short_runs_after : nat
}.

Inductive method := fallback | alignment_same | alignment_neighbor.

(** What one pass of the loop of [main] leaves in its local variables. *)
Record RowResult := {
  out : row;
  source_text : list N;
  source_pericope : list N;
  aligned_text : list N;
  aligned_pericope : list N;
  row_method : method;
  confidence : Q;
  low_confidence : bool
}.

(** A call of [trim_low_confidence_tail], recorded. *)
Definition trim_call (text reference : list N) (max_ratio : Q) : traced (list N) :=
  _ <~ emit (EvTrim text reference) ; ret (trim_low_confidence_tail text reference max_ratio).

Definition nonempty (s : list N) : bool := match s with [] => false | _ => true end.

(** [direct_ref] of the loop of [main]: the reference unit of the same
    book, chapter and verse. *)
Definition direct_ref_of (rt : Runtime) (index : tb1_index) (r : row) : option RowRef :=
  let book := strip (field r "book_name") in
  let chapter := strip (field r "chapter") in
  let chapter_index := default ∅ (index !! (book, chapter)) in
  match parse_int rt (strip (field r "verse")) with
  | Some verse_num => chapter_index !! verse_num
  | None => None
  end.

Section Engine.

Variable rt : Runtime.
Variable args : Args.
Variable index : tb1_index.
Variable lexicon : gmap (list N) Z.
Variable hyphen_lookup : gmap (list N) (list N).

(** The passes shared by the text and the pericope. *)
Definition final_passes (t : list N) : list N :=
  let t := apply_static_safe_phrase_fixes t in
  let t := apply_suffix_join t in
  let t := restore_hyphen_forms t hyphen_lookup in
  let t := remove_cross_reference_noise t in
  normalize_punctuation_spacing t.

(** Lines 822 to 851: the alignment attempt. *)
Definition align (r : row) : traced (list N * list N * method * Q) :=
  let source_text := normalize_spacing (field r "text") in
  let source_pericope := normalize_spacing (field r "pericope") in
  let book := strip (field r "book_name") in
  let chapter := strip (field r "chapter") in
  let chapter_index := default ∅ (index !! (book, chapter)) in
  match parse_int rt (strip (field r "verse")) with
  | Some verse_num =>
      if negb (size chapter_index =? 0) then
        res <~ choose_reference (normalize_letters source_text) chapter_index verse_num
                 (min_direct_ratio args) (min_neighbor_ratio args) (neighbor_window args) ;
        let '(ref, mode, ratio) := res in
        match ref with
        | Some ref =>
            ret (project_boundaries source_text (text ref),
                 if nonempty source_pericope
                 then project_boundaries source_pericope (text ref)
                 else source_pericope,
                 match mode with ModeSame => alignment_same | _ => alignment_neighbor end,
                 ratio)
        | None => ret (source_text, source_pericope, fallback, ratio)
        end
      else ret (source_text, source_pericope, fallback, 0%Q)
  | None => ret (source_text, source_pericope, fallback, 0%Q)
  end.

(** Lines 853 to 876: the fallback branch. *)
Definition fallback_branch (r : row) (st : list N * list N * method * Q)
    : traced (list N * list N * bool) :=
  let source_text := normalize_spacing (field r "text") in
  let source_pericope := normalize_spacing (field r "pericope") in
  let '(aligned_text, aligned_pericope, method, confidence) := st in
  match method with
  | fallback =>
      let aligned_text := fallback_clean_text rt source_text lexicon in
      let aligned_pericope :=
        if nonempty source_pericope
        then fallback_clean_text rt source_pericope lexicon
        else aligned_pericope in
      if Qlt_bool confidence (min_neighbor_ratio args) then
        aligned_text <~ match direct_ref_of rt index r with
                        | Some direct_ref => trim_call aligned_text (text direct_ref) (135 # 100)
                        | None => ret aligned_text
                        end ;
        ret (aligned_text, aligned_pericope, true)
      else ret (aligned_text, aligned_pericope, false)
  | _ => ret (aligned_text, aligned_pericope, false)
  end.

(** Lines 878 to 886: the final normalizations of the text. *)
Definition finalize_text (r : row) (aligned_text : list N) : traced (list N) :=
  let aligned_text := final_passes aligned_text in
  match direct_ref_of rt index r with
  | Some direct_ref =>
      aligned_text <~ trim_call aligned_text (text direct_ref) (135 # 100) ;
      ret (normalize_punctuation_spacing aligned_text)
  | None => ret aligned_text
  end.

(** One pass of the loop of [main] (lines 808 to 897). *)
Definition process_row (r : row) : traced RowResult :=
  st <~ align r ;
  let '(_, _, method, confidence) := st in
  st' <~ fallback_branch r st ;
  let '(aligned_text, aligned_pericope, low) := st' in
  aligned_text <~ finalize_text r aligned_text ;
  let aligned_pericope :=
    if nonempty aligned_pericope then final_passes aligned_pericope else aligned_pericope in
  ret {| out := <[py "pericope" := Some aligned_pericope]> (<[py "text" := Some aligned_text]> r);
         source_text := normalize_spacing (field r "text");
         source_pericope := normalize_spacing (field r "pericope");
         aligned_text := aligned_text;
         aligned_pericope := aligned_pericope;
         row_method := method;
         confidence := confidence;
         low_confidence := low |}.

(** The counters after one more row. *)
Definition count_result (stats : Stats) (res : RowResult) : Stats :=
  {| rows_total := rows_total stats + 1;
     rows_changed :=
       if bool_decide (aligned_text res ≠ source_text res)
          || bool_decide (aligned_pericope res ≠ source_pericope res)
       then rows_changed stats + 1 else rows_changed stats;
     rows_alignment_same_verse :=
       match row_method res with
       | alignment_same => rows_alignment_same_verse stats + 1
       | _ => rows_alignment_same_verse stats
       end;
     rows_alignment_neighbor :=
       match row_method res with
       | alignment_neighbor => rows_alignment_neighbor stats + 1
       | _ => rows_alignment_neighbor stats
       end;
     rows_fallback :=
       match row_method res with
       | fallback => rows_fallback stats + 1
       | _ => rows_fallback stats
       end;
     low_confidence_rows :=
       if low_confidence res then low_confidence_rows stats + 1 else low_confidence_rows stats;
     short_runs_before :=
       short_runs_before stats + length (re_findall SHORT_RUN_RE (source_text res));
     short_runs_after :=
       short_runs_after stats + length (re_findall SHORT_RUN_RE (aligned_text res)) |}.

Definition row_step (st : list row * Stats) (r : row) : traced (list row * Stats) :=
  res <~ process_row r ;
  ret (fst st ++ [out res], count_result (snd st) res).

Definition no_stats : Stats := Build_Stats 0 0 0 0 0 0 0 0.

(** The loop of [main] over the rows to clean. *)
Definition process_rows (tb2_rows : list row) : traced (list row * Stats) :=
  for_traced tb2_rows row_step ([], no_stats).

End Engine.

(** [main], from the rows read to the rows handed to [write_rows] and the
    counters of the summary. *)
Definition main (rt : Runtime) (args : Args)
    (tb1_rows tb2_rows : list row) : traced (list row * Stats) :=
  let index := index_tb1_rows rt tb1_rows in
  let '(lexicon, hyphen_lookup) := build_tb1_lexicon tb1_rows in
  process_rows rt args index lexicon hyphen_lookup tb2_rows.

(** The record [write_rows] hands to [csv.DictWriter] for one row. *)
Definition OUTPUT_FIELDS : list string :=
  ["book_name"; "grouping"; "order_index"; "chapter"; "verse"; "text"; "pericope"]%string.

Definition written_record (r : row) : list (list N) :=
  map (fun name => match r !! py name with Some (Some v) => v | _ => [] end) OUTPUT_FIELDS.

Definition write_rows (rows : list row) : list (list (list N)) := map written_record rows.

(** ** A platform for the examples

    No [wordfreq]; [math.log10] at the counts the examples hold (the values
    an IEEE 754 C library gives); [sum] adding from left to right; no
    decimal digit outside ASCII (the examples hold none); the default digit
    limit. *)
Definition example_runtime : Runtime :=
  {| zipf_frequency := None;
     log10 := fun n =>
       if (n =? 100)%Z then 2%float
       else if (n =? 51)%Z then 1.7075701760979363%float
       else if (n =? 2)%Z then 0.3010299956639812%float
       else PrimFloat.nan;
     fsum := fun xs => fold_left PrimFloat.add xs 0%float;
     unicode_decimal := fun _ => None;
     max_str_digits := Some 4300 |}.

Local Open Scope N_scope.

(** ** Gap structure of a text *)

Definition all_space (g : str) : Prop := Forall (fun c => isspace c = true) g.

Definition segs := list (str * char).

Definition gapfun := option char -> str -> option char -> str.

Fixpoint gapmap (f : gapfun) (prev : option char) (l : segs) (gl : str) : str :=
  match l with
  | [] => f prev gl None
  | (g, c) :: l' => f prev g (Some c) ++ c :: gapmap f (Some c) l' gl
  end.

Definition gap_id : gapfun := fun _ g _ => g.

Definition wf_segs (l : segs) (gl : str) : Prop :=
  Forall (fun gc => all_space (fst gc) /\ isspace (snd gc) = false) l /\ all_space gl.

Definition keeps_space (f : gapfun) : Prop :=
  forall u g v, all_space g -> all_space (f u g v).

Record realises (S : option char -> str -> str) (f : gapfun) : Prop := {
  realises_end : forall u g, all_space g -> S u g = f u g None;
  realises_step : forall u g c rest, all_space g -> isspace c = false ->
      S u (g ++ c :: rest) = f u g (Some c) ++ c :: S (Some c) rest
}.

Definition gap_compose (f h : gapfun) : gapfun := fun u g v => f u (h u g v) v.

Lemma gapmap_realises S f h prev l gl :
  realises S f -> keeps_space h -> wf_segs l gl ->
  S prev (gapmap h prev l gl) = gapmap (gap_compose f h) prev l gl.
Proof.
  intros [He Hs] Hh [Hl Hgl]. revert prev. unfold gap_compose.
  induction Hl as [|[g c] l [Hg Hc] Hl IH]; intros prev; simpl in *.
  - apply He, Hh, Hgl.
  - rewrite Hs by (auto using Hh). now rewrite IH.
Qed.

Lemma gapmap_ext f f' prev l gl :
  (forall u g v, all_space g -> f u g v = f' u g v) ->
  wf_segs l gl -> gapmap f prev l gl = gapmap f' prev l gl.
Proof.
  intros E [Hl Hgl]. revert prev.
  induction Hl as [|[g c] l [Hg Hc] Hl IH]; intros prev; simpl in *.
  - now apply E.
  - rewrite E by assumption. now rewrite IH.
Qed.

Lemma segs_exist (t : str) : exists l gl, wf_segs l gl /\ t = gapmap gap_id None l gl.
Proof.
  assert (G : forall prev l gl, gapmap gap_id prev l gl = gapmap gap_id None l gl).
  { intros prev [|[g c] l] gl; reflexivity. }
  induction t as [|c t (l & gl & [Hl Hgl] & ->)].
  - exists [], []. repeat split; constructor.
  - destruct (isspace c) eqn:Ec.
    + destruct l as [|[g d] l].
      * exists [], (c :: gl). repeat split; [constructor|]. now constructor.
      * exists ((c :: g, d) :: l), gl. inversion Hl as [|? ? [Hg Hd] Hl']; subst.
        repeat split; [|assumption]. constructor; [|assumption].
        split; [now constructor | assumption].
    + exists (([], c) :: l), gl. repeat split; [|assumption|].
      * constructor; [|assumption]. split; [constructor | assumption].
      * simpl. now rewrite (G (Some c)).
Qed.

(** The gap functions of the scanners. *)
Definition gap_collapse : gapfun := fun _ g _ => match g with [] => [] | _ => [SP] end.
Definition gap_lstrip : gapfun := fun u g _ => match u with None => [] | Some _ => g end.
Definition gap_rstrip : gapfun := fun _ g v => match v with None => [] | Some _ => g end.
Definition gap_before (P : char -> bool) : gapfun :=
  fun _ g v => match v with Some c => if P c then [] else g | None => g end.
Definition gap_after (P : char -> bool) : gapfun :=
  fun u g _ => match u with Some c => if P c then [] else g | None => g end.
Definition gap_colon_quote : gapfun :=
  fun u g v =>
    match g, u, v with
    | [], Some c, Some q => if is_colon c && is_quote q then [SP] else []
    | _, _, _ => g
    end.
Definition gap_after_quote : gapfun :=
  fun u g _ =>
    match u with
    | Some c => if is_quote c then match g with [] => [] | _ => [SP] end else g
    | None => g
    end.

Definition after_state (P : char -> bool) (u : option char) : bool :=
  match u with Some c => P c | None => false end.
Definition quote_state (u : option char) : quote_scan :=
  match u with Some c => if is_quote c then QAfter else QNone | None => QNone end.
Definition colon_quote_from (u : option char) (t : str) : str :=
  (if after_state is_colon u && match t with q :: _ => is_quote q | [] => false end
   then [SP] else []) ++ space_colon_quote t.

Lemma all_space_cons c g : all_space (c :: g) <-> isspace c = true /\ all_space g.
Proof. unfold all_space. apply (Forall_cons (fun c => isspace c = true)). Qed.

Lemma realises_collapse : realises (fun _ => collapse_spaces) gap_collapse.
Proof.
  split.
  - intros u0 g Hg. induction g as [|c g IH]; [reflexivity|].
    apply all_space_cons in Hg as [Hc Hg]. specialize (IH Hg).
    simpl. rewrite Hc. destruct g as [|c' g]; [reflexivity|].
    apply all_space_cons in Hg as [Hc' _]. now rewrite Hc'.
  - intros u0 g c rest Hg Hc. induction g as [|d g IH]; simpl.
    + now rewrite Hc.
    + apply all_space_cons in Hg as [Hd Hg]. specialize (IH Hg). rewrite Hd.
      destruct g as [|d' g]; simpl in *.
      * now rewrite Hc in *.
      * apply all_space_cons in Hg as [Hd' _]. now rewrite Hd' in *.
Qed.

Lemma lstrip_spaces g t : all_space g -> lstrip (g ++ t) = lstrip t.
Proof.
  induction g as [|c g IH]; [reflexivity|]. intros [Hc Hg]%all_space_cons.
  simpl. rewrite Hc. auto.
Qed.

Lemma realises_lstrip :
  realises (fun u => match u with None => lstrip | Some _ => fun t => t end) gap_lstrip.
Proof.
  split.
  - intros [u|] g Hg; [reflexivity|]. simpl.
    rewrite <- (app_nil_r g). now rewrite lstrip_spaces.
  - intros [u|] g c rest Hg Hc; [reflexivity|]. simpl.
    rewrite lstrip_spaces by assumption. simpl. now rewrite Hc.
Qed.

Lemma rstrip_nonspace c t : isspace c = false -> rstrip (c :: t) = c :: rstrip t.
Proof. intros Hc. simpl. rewrite Hc. now destruct (rstrip t). Qed.

Lemma realises_rstrip : realises (fun _ => rstrip) gap_rstrip.
Proof.
  split.
  - intros u0 g Hg. induction g as [|c g IH]; [reflexivity|].
    apply all_space_cons in Hg as [Hc Hg]. simpl. rewrite (IH Hg). now rewrite Hc.
  - intros u0 g c rest Hg Hc. induction g as [|d g IH].
    + now apply rstrip_nonspace.
    + apply all_space_cons in Hg as [Hd Hg]. specialize (IH Hg).
      change (rstrip ((d :: g) ++ c :: rest))
        with (match rstrip (g ++ c :: rest) with
              | [] => if isspace d then [] else [d] | r => d :: r end).
      rewrite IH. simpl. now destruct g.
Qed.

Lemma next_after_spaces_app P g t :
  all_space g -> next_after_spaces P (g ++ t) = next_after_spaces P t.
Proof.
  induction g as [|c g IH]; [reflexivity|]. intros [Hc Hg]%all_space_cons.
  simpl. rewrite Hc. auto.
Qed.

Lemma realises_before P : realises (fun _ => drop_space_before P) (gap_before P).
Proof.
  split.
  - intros u0 g Hg. simpl. induction g as [|c g IH]; [reflexivity|].
    pose proof Hg as [Hc Hg']%all_space_cons.
    cbn [drop_space_before]. rewrite <- (app_nil_r (c :: g)) at 1.
    rewrite next_after_spaces_app by assumption. simpl.
    rewrite andb_false_r. now rewrite IH.
  - intros u0 g c rest Hg Hc. simpl. induction g as [|d g IH].
    + simpl. rewrite Hc. simpl. now destruct (P c).
    + pose proof Hg as [Hd Hg']%all_space_cons. specialize (IH Hg').
      change ((d :: g) ++ c :: rest) with (d :: (g ++ c :: rest)).
      cbn [drop_space_before].
      change (d :: g ++ c :: rest) with ((d :: g) ++ c :: rest) at 1.
      rewrite next_after_spaces_app by assumption. simpl next_after_spaces.
      rewrite Hc, Hd, IH. simpl. now destruct (P c).
Qed.

Definition not_on_space (P : char -> bool) : Prop :=
  forall c, isspace c = true -> P c = false.

Lemma realises_after P :
  not_on_space P ->
  realises (fun u => drop_space_after_from P (after_state P u)) (gap_after P).
Proof.
  intros HP.
  assert (A : forall g t, all_space g ->
             drop_space_after_from P true (g ++ t) = drop_space_after_from P true t).
  { induction g as [|c g IH]; [reflexivity|]. intros t [Hc Hg]%all_space_cons.
    simpl. rewrite Hc. auto. }
  assert (B : forall g c rest, all_space g -> isspace c = false ->
             drop_space_after_from P false (g ++ c :: rest)
             = g ++ c :: drop_space_after_from P (P c) rest).
  { induction g as [|d g IH]; [reflexivity|]. intros c rest [Hd Hg]%all_space_cons Hc.
    simpl. rewrite (HP d Hd). now rewrite IH. }
  assert (C : forall g, all_space g -> drop_space_after_from P false g = g).
  { induction g as [|d g IH]; [reflexivity|]. intros [Hd Hg]%all_space_cons.
    simpl. rewrite (HP d Hd). now rewrite IH. }
  split.
  - intros u g Hg. unfold gap_after, after_state. destruct u as [u|]; [destruct (P u)|]; auto.
    rewrite <- (app_nil_r g). now rewrite A.
  - intros u g c rest Hg Hc. unfold gap_after, after_state.
    destruct u as [u|]; [destruct (P u)|]; auto.
    rewrite A by assumption. simpl. now rewrite Hc.
Qed.

Lemma quote_not_on_space : not_on_space is_quote.
Proof.
  intros c Hc. unfold is_quote, SQUOTE, DQUOTE.
  destruct (N.eqb_spec c 39) as [->|]; [discriminate|].
  destruct (N.eqb_spec c 34) as [->|]; [discriminate|]. reflexivity.
Qed.

Lemma open_bracket_not_on_space : not_on_space is_open_bracket.
Proof.
  intros c Hc. unfold is_open_bracket.
  destruct (N.eqb_spec c 40) as [->|]; [discriminate|].
  destruct (N.eqb_spec c 91) as [->|]; [discriminate|].
  destruct (N.eqb_spec c 123) as [->|]; [discriminate|]. reflexivity.
Qed.

Lemma colon_not_on_space : not_on_space is_colon.
Proof.
  intros c Hc. unfold is_colon, COLON.
  destruct (N.eqb_spec c 58) as [->|]; [discriminate|reflexivity].
Qed.

Lemma space_colon_quote_spaces g t :
  all_space g -> space_colon_quote (g ++ t) = g ++ space_colon_quote t.
Proof.
  induction g as [|c g IH]; [reflexivity|]. intros [Hc Hg]%all_space_cons.
  simpl. rewrite IH by assumption. now rewrite (colon_not_on_space c Hc).
Qed.

Lemma space_colon_quote_cons c t :
  space_colon_quote (c :: t) = c :: colon_quote_from (Some c) t.
Proof.
  unfold colon_quote_from. simpl.
  destruct (is_colon c && _); reflexivity.
Qed.

Lemma realises_colon_quote : realises colon_quote_from gap_colon_quote.
Proof.
  split.
  - intros u g Hg. unfold colon_quote_from.
    rewrite <- (app_nil_r g) at 2. rewrite space_colon_quote_spaces by assumption.
    simpl. rewrite app_nil_r. destruct g as [|c g]; simpl.
    + rewrite andb_false_r. now destruct u.
    + apply all_space_cons in Hg as [Hc _]. rewrite (quote_not_on_space c Hc).
      rewrite andb_false_r. now destruct u.
  - intros u g c rest Hg Hc. unfold colon_quote_from at 1.
    rewrite space_colon_quote_spaces by assumption.
    rewrite space_colon_quote_cons.
    destruct g as [|d g].
    + simpl. destruct u as [u|]; simpl; [|reflexivity].
      destruct (is_colon u && is_quote c); reflexivity.
    + apply all_space_cons in Hg as [Hd Hg]. simpl.
      rewrite (quote_not_on_space d Hd), andb_false_r. now destruct u.
Qed.

Lemma realises_after_quote :
  realises (fun u => one_space_after_quote_from (quote_state u)) gap_after_quote.
Proof.
  assert (A : forall g t, all_space g ->
             one_space_after_quote_from QRun (g ++ t) = one_space_after_quote_from QRun t).
  { induction g as [|c g IH]; [reflexivity|]. intros t [Hc Hg]%all_space_cons.
    simpl. rewrite Hc. auto. }
  assert (B : forall g t, all_space g ->
             one_space_after_quote_from QNone (g ++ t) = g ++ one_space_after_quote_from QNone t).
  { induction g as [|c g IH]; [reflexivity|]. intros t [Hc Hg]%all_space_cons.
    simpl. rewrite Hc. now rewrite IH. }
  assert (C : forall st c rest, isspace c = false ->
             one_space_after_quote_from st (c :: rest)
             = c :: one_space_after_quote_from (quote_state (Some c)) rest).
  { intros st c rest Hc. simpl. now rewrite Hc. }
  split.
  - intros u g Hg. unfold gap_after_quote, quote_state.
    destruct u as [u|]; [destruct (is_quote u)|].
    + destruct g as [|c g]; [reflexivity|]. apply all_space_cons in Hg as [Hc Hg].
      simpl. rewrite Hc. rewrite <- (app_nil_r g). now rewrite A.
    + rewrite <- (app_nil_r g). rewrite B by assumption. simpl. now rewrite app_nil_r.
    + rewrite <- (app_nil_r g). rewrite B by assumption. simpl. now rewrite app_nil_r.
  - intros u g c rest Hg Hc. unfold gap_after_quote.
    destruct u as [u|]; simpl quote_state; [destruct (is_quote u)|].
    + destruct g as [|d g].
      * simpl app. now rewrite C.
      * apply all_space_cons in Hg as [Hd Hg].
        change ((d :: g) ++ c :: rest) with (d :: (g ++ c :: rest)).
        simpl. rewrite Hd. rewrite A by assumption. fold (one_space_after_quote_from QRun (c :: rest)).
        now rewrite C.
    + rewrite B by assumption. now rewrite C.
    + rewrite B by assumption. now rewrite C.
Qed.

Lemma keeps_space_compose f h : keeps_space f -> keeps_space h -> keeps_space (gap_compose f h).
Proof. intros Hf Hh u g v Hg. apply Hf, Hh, Hg. Qed.

Lemma all_space_SP : all_space [SP].
Proof. repeat constructor. Qed.

Lemma all_space_nil : all_space [].
Proof. constructor. Qed.

Create HintDb gaps.
#[local] Hint Resolve all_space_SP all_space_nil : gaps.

Lemma keeps_space_id : keeps_space gap_id.
Proof. intros u g v Hg. exact Hg. Qed.
Lemma keeps_space_collapse : keeps_space gap_collapse.
Proof. intros u [|c g] v Hg; simpl; auto with gaps. Qed.
Lemma keeps_space_lstrip : keeps_space gap_lstrip.
Proof. intros [u|] g v Hg; simpl; auto with gaps. Qed.
Lemma keeps_space_rstrip : keeps_space gap_rstrip.
Proof. intros u g [v|] Hg; simpl; auto with gaps. Qed.
Lemma keeps_space_before P : keeps_space (gap_before P).
Proof. intros u g [v|] Hg; simpl; [destruct (P v)|]; auto with gaps. Qed.
Lemma keeps_space_after P : keeps_space (gap_after P).
Proof. intros [u|] g v Hg; simpl; [destruct (P u)|]; auto with gaps. Qed.
Lemma keeps_space_colon_quote : keeps_space gap_colon_quote.
Proof.
  intros [u|] [|c g] [v|] Hg; simpl; auto with gaps.
  destruct (is_colon u && is_quote v); auto with gaps.
Qed.
Lemma keeps_space_after_quote : keeps_space gap_after_quote.
Proof.
  intros [u|] [|c g] v Hg; simpl; auto with gaps; destruct (is_quote u); auto with gaps.
Qed.

#[local] Hint Resolve keeps_space_compose keeps_space_id keeps_space_collapse
  keeps_space_lstrip keeps_space_rstrip keeps_space_before keeps_space_after
  keeps_space_colon_quote keeps_space_after_quote : gaps.

(** The two normalisers as gap functions. *)
Definition gap_tidy : gapfun :=
  gap_compose gap_rstrip (gap_compose gap_lstrip gap_collapse).

Definition gap_punct : gapfun :=
  gap_compose gap_tidy
   (gap_compose gap_after_quote
     (gap_compose gap_colon_quote
       (gap_compose (gap_before is_quote)
         (gap_compose (gap_before is_close_bracket)
           (gap_compose (gap_after is_open_bracket)
             (gap_before is_closing_punct)))))).

Lemma keeps_space_tidy : keeps_space gap_tidy.
Proof. unfold gap_tidy. auto with gaps. Qed.
#[local] Hint Resolve keeps_space_tidy : gaps.

Lemma keeps_space_punct : keeps_space gap_punct.
Proof. unfold gap_punct. auto 12 with gaps. Qed.
#[local] Hint Resolve keeps_space_punct : gaps.

Lemma tidy_gapmap h l gl :
  keeps_space h -> wf_segs l gl ->
  strip (collapse_spaces (gapmap h None l gl)) = gapmap (gap_compose gap_tidy h) None l gl.
Proof.
  intros Hh Hwf. unfold strip.
  rewrite (gapmap_realises _ _ h None l gl realises_collapse Hh Hwf).
  rewrite (gapmap_realises _ _ _ None l gl realises_lstrip) by auto with gaps.
  rewrite (gapmap_realises _ _ _ None l gl realises_rstrip) by auto with gaps.
  reflexivity.
Qed.

Lemma punct_gapmap h l gl :
  keeps_space h -> wf_segs l gl ->
  strip (collapse_spaces (one_space_after_quote (space_colon_quote
    (drop_space_before is_quote (drop_space_before is_close_bracket
      (drop_space_after is_open_bracket
        (drop_space_before is_closing_punct (gapmap h None l gl))))))))
  = gapmap (gap_compose gap_punct h) None l gl.
Proof.
  intros Hh Hwf.
  rewrite (gapmap_realises _ _ h None l gl (realises_before is_closing_punct) Hh Hwf).
  unfold drop_space_after.
  rewrite (gapmap_realises _ _ _ None l gl (realises_after _ open_bracket_not_on_space))
    by auto with gaps.
  rewrite (gapmap_realises _ _ _ None l gl (realises_before is_close_bracket))
    by auto with gaps.
  rewrite (gapmap_realises _ _ _ None l gl (realises_before is_quote))
    by auto with gaps.
  change (space_colon_quote ?t) with (colon_quote_from None t).
  rewrite (gapmap_realises _ _ _ None l gl realises_colon_quote) by auto 10 with gaps.
  unfold one_space_after_quote.
  rewrite (gapmap_realises _ _ _ None l gl realises_after_quote) by auto 10 with gaps.
  rewrite tidy_gapmap by auto 12 with gaps.
  reflexivity.
Qed.

(** Glyph replacement. *)
Definition replaced_glyphs : list char :=
  [13; 160; 8239; 8201; 8221; 8220; 8217; 8216; 8212; 8211; 173; 64257; 64258].

(** [glyph_free S c]: [c] is whitespace or none of the glyphs of [S]. *)
Definition glyph_free (S : list char) (c : char) : bool :=
  isspace c || negb (existsb (N.eqb c) S).

Definition replace_glyphs (text : str) : str :=
  replace_char 64258 (py "fl") (replace_char 64257 (py "fi") (replace_char 173 []
   (replace_char 8211 [HYPHEN] (replace_char 8212 [HYPHEN] (replace_char 8216 [SQUOTE]
    (replace_char 8217 [SQUOTE] (replace_char 8220 [DQUOTE] (replace_char 8221 [DQUOTE]
     (replace_char 8201 [SP] (replace_char 8239 [SP] (replace_char 160 [SP]
      (replace_char 13 [] text)))))))))))).

Lemma normalize_spacing_unfold text :
  normalize_spacing text = strip (collapse_spaces (replace_glyphs text)).
Proof. reflexivity. Qed.

Lemma replace_char_free S o new t :
  forallb (glyph_free (o :: S)) new = true ->
  Forall (fun c => glyph_free S c = true) t ->
  Forall (fun c => glyph_free (o :: S) c = true) (replace_char o new t).
Proof.
  intros Hnew Ht. unfold replace_char. induction Ht as [|c t Hc Ht IH]; simpl.
  - constructor.
  - apply Forall_app. split; [|exact IH].
    destruct (N.eqb_spec c o) as [->|Hne].
    + apply Forall_forall. intros x Hx%list_elem_of_In.
      rewrite forallb_forall in Hnew. now apply Hnew.
    + constructor; [|constructor]. unfold glyph_free in *. simpl.
      apply N.eqb_neq in Hne. rewrite Hne. exact Hc.
Qed.

Lemma replace_char_absent o new t :
  Forall (fun c => c <> o) t -> replace_char o new t = t.
Proof.
  unfold replace_char. induction 1 as [|c t Hc Ht IH]; simpl; [reflexivity|].
  apply N.eqb_neq in Hc. now rewrite Hc, IH.
Qed.

Lemma glyph_free_all t : Forall (fun c => glyph_free [] c = true) t.
Proof. apply Forall_forall. intros c _. unfold glyph_free. simpl. apply orb_true_r. Qed.

Lemma glyph_free_perm S S' c :
  (forall x, In x S' -> In x S) -> glyph_free S c = true -> glyph_free S' c = true.
Proof.
  unfold glyph_free. intros Hsub. destruct (isspace c); [reflexivity|]. simpl.
  rewrite !negb_true_iff. intros H.
  destruct (existsb (N.eqb c) S') eqn:E; [|reflexivity].
  apply existsb_exists in E as (x & Hx & Hcx).
  rewrite <- H. symmetry. apply existsb_exists. eauto.
Qed.

Lemma replace_glyphs_free text :
  Forall (fun c => glyph_free replaced_glyphs c = true) (replace_glyphs text).
Proof.
  assert (H : Forall (fun c => glyph_free (rev replaced_glyphs) c = true)
                (replace_glyphs text)).
  { unfold replace_glyphs. simpl rev.
    repeat (apply replace_char_free; [reflexivity|]).
    apply glyph_free_all. }
  eapply Forall_impl; [exact H|].
  intros c Hc. eapply glyph_free_perm; [|exact Hc].
  intros x Hx. now apply in_rev in Hx.
Qed.

Lemma replace_glyphs_fixed t :
  Forall (fun c => existsb (N.eqb c) replaced_glyphs = false) t -> replace_glyphs t = t.
Proof.
  intros H. unfold replace_glyphs.
  repeat match goal with
  | |- context [replace_char ?o ?new t] =>
      rewrite (replace_char_absent o new t)
        by (eapply Forall_impl; [exact H|];
            intros c Hc ->; vm_compute in Hc; discriminate)
  end.
  reflexivity.
Qed.

(** Characters of a mapped text. *)
Lemma gapmap_chars (Q : char -> Prop) f prev l gl :
  (forall u g v, Forall Q (f u g v)) ->
  Forall (fun gc => Q (snd gc)) l -> Forall Q (gapmap f prev l gl).
Proof.
  intros Hf Hl. revert prev. induction Hl as [|[g c] l Hc Hl IH]; intros prev; simpl.
  - apply Hf.
  - apply Forall_app. split; [apply Hf|]. constructor; [exact Hc | apply IH].
Qed.

Lemma gapmap_id_chars (Q : char -> Prop) prev l gl :
  Forall Q (gapmap gap_id prev l gl) -> Forall (fun gc => Q (snd gc)) l.
Proof.
  revert prev. induction l as [|[g c] l IH]; intros prev H; simpl in *.
  - constructor.
  - unfold gap_id in H at 1. apply Forall_app in H as [_ H].
    apply Forall_cons in H as [Hc H]. constructor; [exact Hc | eapply IH, H].
Qed.

Lemma gap_tidy_values h u g v :
  gap_compose gap_tidy h u g v = [] \/ gap_compose gap_tidy h u g v = [SP].
Proof.
  unfold gap_compose, gap_tidy, gap_compose, gap_rstrip, gap_lstrip, gap_collapse.
  destruct (h u g v), u, v; auto.
Qed.

(** A text whose gaps are tidy and whose other characters survive glyph
    replacement is a fixed point of glyph replacement. *)
Lemma tidy_text_glyph_free h x l gl :
  wf_segs l gl -> replace_glyphs x = gapmap gap_id None l gl ->
  replace_glyphs (gapmap (gap_compose gap_tidy h) None l gl)
  = gapmap (gap_compose gap_tidy h) None l gl.
Proof.
  intros [Hl Hgl] Hx. apply replace_glyphs_fixed. apply gapmap_chars.
  - intros u g v. destruct (gap_tidy_values h u g v) as [-> | ->]; repeat constructor.
  - pose proof (replace_glyphs_free x) as Hfree. rewrite Hx in Hfree.
    apply gapmap_id_chars in Hfree.
    rewrite Forall_forall in *. intros [g c] Hin. simpl.
    specialize (Hfree _ Hin). specialize (Hl _ Hin). simpl in *.
    destruct Hl as [_ Hc]. unfold glyph_free in Hfree. rewrite Hc in Hfree.
    simpl in Hfree. now apply negb_true_iff.
Qed.

Lemma gap_tidy_idem u g v :
  gap_tidy u (gap_tidy u g v) v = gap_tidy u g v.
Proof.
  unfold gap_tidy, gap_compose, gap_rstrip, gap_lstrip, gap_collapse.
  destruct g, u, v; reflexivity.
Qed.

Lemma gap_punct_idem u g v :
  gap_punct u (gap_tidy u (gap_punct u (gap_tidy u g v) v) v) v
  = gap_punct u (gap_tidy u g v) v.
Proof.
  unfold gap_punct, gap_tidy, gap_compose, gap_rstrip, gap_lstrip, gap_collapse,
    gap_after_quote, gap_colon_quote, gap_before, gap_after.
  destruct g as [|c g], u as [u|], v as [v|]; try reflexivity;
    try destruct (is_closing_punct v); try destruct (is_close_bracket v);
    try destruct (is_quote v); try destruct (is_open_bracket u);
    try destruct (is_quote u); try destruct (is_colon u); reflexivity.
Qed.

Lemma normalize_spacing_idempotent x :
  normalize_spacing (normalize_spacing x) = normalize_spacing x.
Proof.
  rewrite (normalize_spacing_unfold x).
  destruct (segs_exist (replace_glyphs x)) as (l & gl & Hwf & Hx).
  rewrite Hx. rewrite tidy_gapmap by auto with gaps.
  rewrite normalize_spacing_unfold.
  rewrite (tidy_text_glyph_free _ x) by assumption.
  rewrite tidy_gapmap by auto with gaps.
  apply gapmap_ext; [|assumption]. intros u g v _.
  unfold gap_compose, gap_id. apply gap_tidy_idem.
Qed.

Lemma normalize_punctuation_spacing_idempotent x :
  normalize_punctuation_spacing (normalize_punctuation_spacing x)
  = normalize_punctuation_spacing x.
Proof.
  assert (E : forall y, normalize_punctuation_spacing y
    = strip (collapse_spaces (one_space_after_quote (space_colon_quote
       (drop_space_before is_quote (drop_space_before is_close_bracket
         (drop_space_after is_open_bracket
           (drop_space_before is_closing_punct (normalize_spacing y))))))))) by reflexivity.
  rewrite (E x). rewrite (normalize_spacing_unfold x).
  destruct (segs_exist (replace_glyphs x)) as (l & gl & Hwf & Hx).
  rewrite Hx. rewrite tidy_gapmap by auto with gaps.
  rewrite punct_gapmap by auto with gaps.
  set (k := gap_compose gap_punct (gap_compose gap_tidy gap_id)).
  assert (Hk : keeps_space k) by (subst k; auto with gaps).
  rewrite E, normalize_spacing_unfold.
  assert (Ek : gapmap k None l gl
               = gapmap (gap_compose gap_tidy (gap_compose gap_punct gap_tidy)) None l gl).
  { apply gapmap_ext; [|assumption]. intros u g v _. subst k.
    unfold gap_compose, gap_id, gap_punct at 2, gap_compose.
    now rewrite gap_tidy_idem. }
  rewrite Ek at 1. rewrite (tidy_text_glyph_free _ x) by assumption.
  rewrite <- Ek. rewrite tidy_gapmap by assumption.
  rewrite punct_gapmap by auto with gaps.
  apply gapmap_ext; [|assumption]. intros u g v _. subst k.
  unfold gap_compose, gap_id. apply gap_punct_idem.
Qed.

(** C6.  [normalize_spacing] and [normalize_punctuation_spacing] are each
    idempotent: applied twice, each gives what it gives applied once. *)
Theorem normalizers_idempotent :
  (forall x, normalize_spacing (normalize_spacing x) = normalize_spacing x) /\
  (forall x, normalize_punctuation_spacing (normalize_punctuation_spacing x)
             = normalize_punctuation_spacing x).
Proof.
  split.
  - exact normalize_spacing_idempotent.
  - exact normalize_punctuation_spacing_idempotent.
Qed.

Local Open Scope nat_scope.

(** ** The matching blocks are matches *)

(** [block_ok a b x]: the block lies inside both sequences and its offsets
    hold equal elements. *)
Definition block_ok (a b : str) (x : Match) : Prop :=
  m_a x + m_size x <= length a /\ m_b x + m_size x <= length b /\
  forall o, o < m_size x -> a !! (m_a x + o) = b !! (m_b x + o).

Lemma common_prefix_spec x y :
  common_prefix x y <= length x /\ common_prefix x y <= length y /\
  forall o, o < common_prefix x y -> x !! o = y !! o.
Proof.
  revert y. induction x as [|c x IH]; intros [|d y]; simpl; try (repeat split; lia).
  destruct (N.eqb_spec c d) as [->|]; [|repeat split; lia].
  destruct (IH y) as (H1 & H2 & H3). repeat split; try lia.
  intros [|o] Ho; [reflexivity|]. simpl. apply H3. lia.
Qed.

Lemma slice_lookup {A} (s : list A) lo hi o :
  o < hi - lo -> slice s lo hi !! o = s !! (lo + o).
Proof. intros H. unfold slice. rewrite lookup_take_lt by lia. apply lookup_drop. Qed.

Lemma slice_length {A} (s : list A) lo hi : length (slice s lo hi) <= length s - lo.
Proof. unfold slice. rewrite length_take, length_drop. lia. Qed.

Lemma slice_length_le {A} (s : list A) lo hi : length (slice s lo hi) <= hi - lo.
Proof. unfold slice. rewrite length_take. lia. Qed.

Lemma better_match_ok a b ahi bhi best i j :
  block_ok a b best -> block_ok a b (better_match a b ahi bhi best i j).
Proof.
  intros Hb. unfold better_match.
  destruct (common_prefix_spec (slice a i ahi) (slice b j bhi)) as (H1 & H2 & H3).
  set (k := common_prefix _ _) in *.
  destruct (Nat.ltb_spec (m_size best) k); [|exact Hb].
  pose proof (slice_length a i ahi). pose proof (slice_length b j bhi).
  pose proof (slice_length_le a i ahi). pose proof (slice_length_le b j bhi).
  repeat split; simpl; try lia.
  intros o Ho. specialize (H3 o Ho).
  rewrite !slice_lookup in H3 by lia. exact H3.
Qed.

Lemma fold_left_preserves {A B} (P : A -> Prop) (f : A -> B -> A) xs x :
  (forall x y, P x -> P (f x y)) -> P x -> P (fold_left f xs x).
Proof. intros Hf. revert x. induction xs; simpl; auto. Qed.

Lemma find_longest_match_ok a b alo ahi blo bhi :
  alo <= length a -> blo <= length b ->
  block_ok a b (find_longest_match a b alo ahi blo bhi).
Proof.
  intros Ha Hb. unfold find_longest_match.
  apply fold_left_preserves.
  - intros best i Hbest. apply fold_left_preserves; [|exact Hbest].
    intros best' j. apply better_match_ok.
  - repeat split; simpl; lia.
Qed.

Lemma blocks_between_ok fuel a b alo ahi blo bhi :
  alo <= length a -> blo <= length b ->
  Forall (block_ok a b) (blocks_between fuel a b alo ahi blo bhi).
Proof.
  revert alo ahi blo bhi. induction fuel as [|fuel IH]; intros alo ahi blo bhi Ha Hb; simpl.
  - constructor.
  - pose proof (find_longest_match_ok a b alo ahi blo bhi Ha Hb) as Hx.
    set (x := find_longest_match a b alo ahi blo bhi) in *.
    destruct (m_size x =? 0); [constructor|].
    destruct Hx as (Hxa & Hxb & Hx).
    apply Forall_app. split; [|constructor; [repeat split; assumption|]].
    + destruct (_ && _); [apply IH; lia | constructor].
    + destruct (_ && _); [apply IH; lia | constructor].
Qed.

Lemma merge_adjacent_ok a b st x :
  block_ok a b (fst st) -> Forall (block_ok a b) (snd st) -> block_ok a b x ->
  block_ok a b (fst (merge_adjacent_step st x)) /\
  Forall (block_ok a b) (snd (merge_adjacent_step st x)).
Proof.
  intros Hc Hd Hx. unfold merge_adjacent_step.
  destruct (Nat.eqb_spec (m_a (fst st) + m_size (fst st)) (m_a x)) as [Ea|]; simpl.
  - destruct (Nat.eqb_spec (m_b (fst st) + m_size (fst st)) (m_b x)) as [Eb|]; simpl.
    + split; [|exact Hd].
      destruct Hc as (C1 & C2 & C3), Hx as (X1 & X2 & X3).
      repeat split; simpl; try lia.
      intros o Ho. destruct (Nat.lt_ge_cases o (m_size (fst st))) as [Hlt|Hge].
      * now apply C3.
      * replace (m_a (fst st) + o) with (m_a x + (o - m_size (fst st))) by lia.
        replace (m_b (fst st) + o) with (m_b x + (o - m_size (fst st))) by lia.
        apply X3. lia.
    + split; [exact Hx|]. destruct (m_size (fst st) =? 0); [exact Hd|].
      apply Forall_app. split; [exact Hd | now constructor].
  - split; [exact Hx|]. destruct (m_size (fst st) =? 0); [exact Hd|].
    apply Forall_app. split; [exact Hd | now constructor].
Qed.

Lemma get_matching_blocks_ok a b : Forall (block_ok a b) (get_matching_blocks a b).
Proof.
  unfold get_matching_blocks.
  set (raw := blocks_between _ _ _ _ _ _ _).
  assert (Hraw : Forall (block_ok a b) raw) by (apply blocks_between_ok; lia).
  set (st0 := ({| m_a := 0; m_b := 0; m_size := 0 |}, @nil Match)).
  assert (H0 : block_ok a b (fst st0) /\ Forall (block_ok a b) (snd st0)).
  { split; [|constructor]. repeat split; simpl; lia. }
  assert (H : block_ok a b (fst (fold_left merge_adjacent_step raw st0))
              /\ Forall (block_ok a b) (snd (fold_left merge_adjacent_step raw st0))).
  { clearbody st0 raw. revert st0 H0.
    induction Hraw as [|x raw Hx Hraw IH]; intros st [H1 H2]; simpl; [auto|].
    apply IH. now apply merge_adjacent_ok. }
  destruct H as [H1 H2].
  apply Forall_app. split.
  - destruct (_ =? 0); [exact H2|]. apply Forall_app. split; [exact H2 | now constructor].
  - constructor; [|constructor]. repeat split; simpl; lia.
Qed.

(** Two sequences with no common element have only empty blocks. *)
Lemma disjoint_blocks_empty a b x :
  (forall c, c ∈ a -> c ∉ b) -> block_ok a b x -> m_size x = 0.
Proof.
  intros Hd (Ha & Hb & Heq). destruct (m_size x) as [|k] eqn:E; [reflexivity|].
  exfalso. specialize (Heq 0). rewrite !Nat.add_0_r in Heq.
  destruct (lookup_lt_is_Some_2 a (m_a x)) as [c Hc]; [lia|].
  apply (Hd c).
  - eapply list_elem_of_lookup_2, Hc.
  - eapply list_elem_of_lookup_2. rewrite <- Heq by lia. exact Hc.
Qed.

(** ** The offset map *)

Definition covers (x : Match) (p : nat) : Prop := m_a x <= p < m_a x + m_size x.

Lemma map_block_lookup m x p :
  ~ covers x p -> map_block m x !! p = m !! p.
Proof.
  unfold map_block, covers. intros Hp.
  assert (G : forall offs (m : list (option nat)), Forall (fun o => o < m_size x) offs ->
            fold_left (fun m offset => <[m_a x + offset := Some (m_b x + offset)]> m) offs m !! p
            = m !! p).
  { induction offs as [|o offs IH]; intros m' Hoffs; simpl; [reflexivity|].
    apply Forall_cons in Hoffs as [Ho Hoffs]. rewrite IH by assumption.
    apply list_lookup_insert_ne. lia. }
  apply G. apply Forall_forall. intros o Ho%list_elem_of_In%in_seq. lia.
Qed.

Lemma map_block_length m x : length (map_block m x) = length m.
Proof.
  unfold map_block. apply fold_left_preserves; [|reflexivity].
  intros m' o Hm'. now rewrite length_insert.
Qed.

Lemma stream_map_lookup_unmapped a b p :
  (forall x, x ∈ get_matching_blocks a b -> ~ covers x p) ->
  mjoin (map_stream2_to_ref a b !! p) = None.
Proof.
  unfold map_stream2_to_ref. intros H.
  assert (G : forall blocks (m : list (option nat)),
            (forall x, x ∈ blocks -> ~ covers x p) ->
            fold_left map_block blocks m !! p = m !! p).
  { induction blocks as [|x blocks IH]; intros m Hb; simpl; [reflexivity|].
    rewrite IH by (intros y Hy; apply Hb; now right).
    apply map_block_lookup, Hb. now left. }
  rewrite G by assumption.
  destruct (replicate (length a) None !! p) as [o|] eqn:E; [|reflexivity].
  apply lookup_replicate in E as [-> _]. reflexivity.
Qed.

Lemma stream_map_length a b : length (map_stream2_to_ref a b) = length a.
Proof.
  unfold map_stream2_to_ref.
  apply (fold_left_preserves (fun m => length m = length a)).
  - intros m x Hm. now rewrite map_block_length.
  - apply length_replicate.
Qed.

(** ** Rebuilding the token list *)

(** Emptying or moving tokens, up to the order of characters. *)
Lemma concat_insert_perm (l : list (list N)) i x :
  i < length l -> concat (<[i:=x]> l) ≡ₚ x ++ concat (<[i:=[]]> l).
Proof.
  revert i. induction l as [|y l IH]; intros [|i] Hi; simpl in *; try lia.
  - reflexivity.
  - rewrite IH by lia. rewrite !app_assoc. apply Permutation_app_tail, Permutation_app_comm.
Qed.

Lemma concat_lookup_perm (l : list (list N)) i x :
  l !! i = Some x -> concat l ≡ₚ x ++ concat (<[i:=[]]> l).
Proof.
  intros H. rewrite <- (list_insert_id l i x H) at 1.
  apply concat_insert_perm. eapply lookup_lt_Some, H.
Qed.

Lemma concat_clear_sub (l : list (list N)) i : concat (<[i:=[]]> l) ⊆+ concat l.
Proof.
  destruct (l !! i) as [x|] eqn:E.
  - rewrite (concat_lookup_perm l i x E). apply submseteq_inserts_l. reflexivity.
  - rewrite list_insert_ge; [reflexivity|]. now apply lookup_ge_None.
Qed.

(** The characters of a text that are not whitespace. *)
Definition visible (t : list N) : list N := filter (fun c => isspace c = false) t.

Lemma visible_spaces (t : list N) : isspace_str t = true -> visible t = [].
Proof.
  intros H. unfold visible. destruct t as [|c t]; [reflexivity|]. simpl in H.
  apply andb_true_iff in H as [Hc Ht].
  rewrite filter_cons_False by congruence.
  induction t as [|d t IH]; [reflexivity|]. simpl in Ht.
  apply andb_true_iff in Ht as [Hd Ht]. rewrite filter_cons_False by congruence. auto.
Qed.

(** [changed_below bound out out']: [out'] is [out] with tokens before
    [bound] rearranged or, when they are whitespace, emptied. *)
Definition changed_below (bound : nat) (out out' : list (list N)) : Prop :=
  length out' = length out /\
  (forall i, bound <= i -> out' !! i = out !! i) /\
  concat out' ⊆+ concat out /\
  visible (concat out') ≡ₚ visible (concat out).

Lemma changed_below_refl bound out : changed_below bound out out.
Proof. repeat split; reflexivity. Qed.

Lemma changed_below_trans bound o1 o2 o3 :
  changed_below bound o1 o2 -> changed_below bound o2 o3 -> changed_below bound o1 o3.
Proof.
  intros (L1 & A1 & S1 & V1) (L2 & A2 & S2 & V2). repeat split.
  - congruence.
  - intros i Hi. rewrite A2, A1 by assumption. reflexivity.
  - etransitivity; eassumption.
  - etransitivity; eassumption.
Qed.

Lemma changed_below_clear bound out t :
  isspace_str (token_at out t) = true -> t < bound ->
  changed_below bound out (<[t:=[]]> out).
Proof.
  intros Hsp Ht. repeat split.
  - apply length_insert.
  - intros i Hi. apply list_lookup_insert_ne. lia.
  - apply concat_clear_sub.
  - unfold token_at in Hsp. destruct (out !! t) as [x|] eqn:E; [|discriminate].
    pose proof (visible_spaces x Hsp) as Hx. unfold visible in *.
    rewrite (concat_lookup_perm out t x E).
    rewrite filter_app. now rewrite Hx.
Qed.

Lemma changed_below_fold {A} bound (f : list (list N) -> A -> list (list N)) xs out :
  (forall o x, x ∈ xs -> changed_below bound o (f o x)) ->
  changed_below bound out (fold_left f xs out).
Proof.
  revert out. induction xs as [|x xs IH]; intros out Hf; simpl.
  - apply changed_below_refl.
  - eapply changed_below_trans; [apply Hf; now left|].
    apply IH. intros o y Hy. apply Hf. now right.
Qed.

Lemma merge_run_spec keep_from words_after merged wj :
  exists r, r <= length words_after /\
    merge_run keep_from words_after merged wj
    = (merged ++ concat (take r words_after), wj + r).
Proof.
  revert words_after merged wj.
  induction keep_from as [|[|] keep IH]; intros ws merged wj; simpl.
  - exists 0. split; [lia|]. now rewrite take_0, app_nil_r, Nat.add_0_r.
  - exists 0. split; [lia|]. now rewrite take_0, app_nil_r, Nat.add_0_r.
  - destruct ws as [|w ws].
    + exists 0. split; [lia|]. now rewrite app_nil_r, Nat.add_0_r.
    + destruct (IH ws (merged ++ w) (S wj)) as (r & Hr & ->).
      exists (S r). split; [simpl; lia|]. simpl. rewrite <- app_assoc.
      f_equal. lia.
Qed.

Lemma merge_run_kept keep_from words_after merged wj :
  head keep_from <> Some false ->
  merge_run keep_from words_after merged wj = (merged, wj).
Proof. destruct keep_from as [|[|] ?]; simpl; congruence. Qed.

Lemma sorted_lookup_lt (l : list nat) k k' i i' :
  StronglySorted lt l -> k < k' -> l !! k = Some i -> l !! k' = Some i' -> i < i'.
Proof.
  intros Hs. revert k k' i i'. induction Hs as [|x l Hl IH Hx]; intros k k' i i' Hk Hi Hi'.
  - discriminate.
  - destruct k' as [|k']; [lia|]. simpl in Hi'. destruct k as [|k]; simpl in Hi.
    + injection Hi as <-. rewrite Forall_forall in Hx. apply Hx.
      eapply list_elem_of_lookup_2, Hi'.
    + eapply IH; [|eassumption..]. lia.
Qed.

Section ClearTokens.
Variable idx : nat -> nat.
Let clear := fun (out : list (list N)) k => <[idx k := []]> out.

Lemma fold_clear_commute ks p x o :
  (forall k, k ∈ ks -> idx k <> p) ->
  fold_left clear ks (<[p:=x]> o) = <[p:=x]> (fold_left clear ks o).
Proof.
  revert o. induction ks as [|k ks IH]; intros o Hks; simpl; [reflexivity|].
  unfold clear at 2 4. rewrite list_insert_insert_ne by (apply Hks; now left).
  apply IH. intros k' Hk'. apply Hks. now right.
Qed.

Lemma fold_clear_lookup ks i o :
  (forall k, k ∈ ks -> idx k <> i) -> fold_left clear ks o !! i = o !! i.
Proof.
  revert o. induction ks as [|k ks IH]; intros o Hks; simpl; [reflexivity|].
  rewrite IH by (intros k' Hk'; apply Hks; now right).
  apply list_lookup_insert_ne, Hks. now left.
Qed.

Lemma fold_clear_length ks o : length (fold_left clear ks o) = length o.
Proof.
  revert o. induction ks as [|k ks IH]; intros o; simpl; [reflexivity|].
  rewrite IH. apply length_insert.
Qed.
End ClearTokens.

(** Moving the content of token [q] to the end of token [p]. *)
Lemma concat_move (l : list (list N)) p q x y :
  p <> q -> p < length l -> l !! q = Some y ->
  concat (<[q:=[]]> (<[p:=x ++ y]> l)) ≡ₚ concat (<[p:=x]> l).
Proof.
  intros Hpq Hp Hq.
  rewrite list_insert_insert_ne by congruence.
  rewrite concat_insert_perm by (rewrite length_insert; exact Hp).
  rewrite (concat_insert_perm l p x Hp).
  rewrite (concat_lookup_perm (<[p:=[]]> l) q y)
    by (rewrite list_lookup_insert_ne by exact Hpq; exact Hq).
  rewrite (list_insert_insert_ne l q p) by congruence.
  now rewrite <- app_assoc.
Qed.

Section Rebuild.
Variable s2 : Stream.
Hypothesis Hwords :
  Forall2 (fun i w => tokens s2 !! i = Some w) (word_indexes s2) (words s2).
Hypothesis Hsorted : StronglySorted lt (word_indexes s2).

(** The words from [wi] on are still in their tokens. *)
Definition words_intact (wi : nat) (out : list (list N)) : Prop :=
  forall k i w, wi <= k -> word_indexes s2 !! k = Some i -> words s2 !! k = Some w ->
    out !! i = Some w.

Lemma words_intact_start : words_intact 0 (tokens s2).
Proof.
  intros k i w _ Hi Hw.
  destruct (Forall2_lookup_l _ _ _ _ _ Hwords Hi) as (w' & Hw' & Ht). congruence.
Qed.

Lemma word_index_lt k k' i i' :
  k < k' -> word_indexes s2 !! k = Some i -> word_indexes s2 !! k' = Some i' -> i < i'.
Proof. apply sorted_lookup_lt, Hsorted. Qed.

Lemma word_lookup k :
  k < length (words s2) ->
  exists i w, word_indexes s2 !! k = Some i /\ words s2 !! k = Some w.
Proof.
  intros Hk. destruct (lookup_lt_is_Some_2 _ _ Hk) as [w Hw].
  destruct (Forall2_lookup_r _ _ _ _ _ Hwords Hw) as (i & Hi & _). eauto.
Qed.

Lemma index_at_lookup k i : word_indexes s2 !! k = Some i -> index_at (word_indexes s2) k = i.
Proof. unfold index_at. now intros ->. Qed.

Lemma word_index_in_range k i :
  word_indexes s2 !! k = Some i -> i < length (tokens s2).
Proof.
  intros Hi. destruct (Forall2_lookup_l _ _ _ _ _ Hwords Hi) as (w & _ & Ht).
  eapply lookup_lt_Some, Ht.
Qed.

(** Merging [r] further words into word [wi] and emptying them keeps the
    characters, and touches no token after the last merged word. *)
Lemma merge_and_kill out wi p w r :
  length out = length (tokens s2) ->
  words_intact wi out ->
  word_indexes s2 !! wi = Some p -> words s2 !! wi = Some w ->
  wi + r < length (words s2) ->
  let out2 :=
    fold_left (fun out kill => <[index_at (word_indexes s2) kill := []]> out)
      (seq (wi + 1) r)
      (<[p := w ++ concat (take r (drop (S wi) (words s2)))]> out) in
  length out2 = length out /\
  concat out2 ≡ₚ concat out /\
  (forall i, index_at (word_indexes s2) (wi + r) < i -> out2 !! i = out !! i).
Proof.
  intros Hlen Hint Hp Hw. induction r as [|r IH]; intros Hr; cbv zeta.
  - simpl. rewrite app_nil_r, list_insert_id by (eapply Hint; eauto). repeat split; auto.
  - destruct IH as (L & P & A); [lia|]. cbv zeta in L, P, A.
    destruct (word_lookup (wi + S r)) as (q & wq & Hq & Hwq); [lia|].
    replace (wi + S r) with (wi + 1 + r) in * by lia.
    rewrite seq_S, fold_left_app. simpl.
    rewrite (index_at_lookup _ _ Hq).
    assert (Etake : take (S r) (drop (S wi) (words s2))
                    = take r (drop (S wi) (words s2)) ++ [wq]).
    { erewrite take_S_r; [reflexivity|]. rewrite lookup_drop.
      replace (S wi + r) with (wi + 1 + r) by lia. exact Hwq. }
    rewrite Etake, concat_app. simpl. rewrite app_nil_r.
    set (M := concat (take r (drop (S wi) (words s2)))) in *.
    assert (Hpq : p < q) by (eapply (word_index_lt wi (wi + 1 + r)); eauto; lia).
    assert (Hks : forall i', p <= i' -> (i' < q -> True) ->
                  forall k, k ∈ seq (wi + 1) r ->
                  index_at (word_indexes s2) k <> p /\ index_at (word_indexes s2) k < q).
    { intros _ _ _ k Hk%list_elem_of_In%in_seq.
      destruct (word_lookup k) as (ik & wk & Hik & _); [lia|].
      rewrite (index_at_lookup _ _ Hik).
      assert (p < ik) by (eapply (word_index_lt wi k); eauto; lia).
      assert (ik < q) by (eapply (word_index_lt k (wi + 1 + r)); eauto; lia). lia. }
    specialize (Hks p (Nat.le_refl _) (fun _ => I)).
    rewrite !fold_clear_commute in * by (intros k Hk; apply Hks, Hk).
    set (Z := fold_left _ (seq (wi + 1) r) out) in *.
    assert (HZ : length Z = length out) by apply fold_clear_length.
    assert (HZq : Z !! q = Some wq).
    { subst Z. rewrite fold_clear_lookup.
      - eapply Hint; [|exact Hq|exact Hwq]. lia.
      - intros k Hk. specialize (Hks k Hk). lia. }
    pose proof (word_index_in_range _ _ Hp) as Hplt.
    repeat split.
    + rewrite !length_insert. exact HZ.
    + rewrite app_assoc, concat_move; [exact P|lia|lia|exact HZq].
    + intros i Hi. rewrite !list_lookup_insert_ne by lia.
      rewrite <- A.
      * now rewrite list_lookup_insert_ne by lia.
      * destruct r as [|r'].
        -- rewrite Nat.add_0_r, (index_at_lookup _ _ Hp). lia.
        -- destruct (word_lookup (wi + S r')) as (q' & wq' & Hq' & _); [lia|].
           rewrite (index_at_lookup _ _ Hq').
           assert (q' < q) by (eapply (word_index_lt (wi + S r') (wi + 1 + S r')); eauto; lia).
           lia.
Qed.

(** The loop that empties whitespace between merged words only empties
    tokens before the last merged word. *)
Lemma clear_spaces_between out wi r :
  wi + r < length (words s2) ->
  let out3 :=
    fold_left
      (fun out k =>
         let left := index_at (word_indexes s2) k in
         let right := index_at (word_indexes s2) (k + 1) in
         fold_left
           (fun out token_i =>
              if isspace_str (token_at out token_i) then <[token_i := []]> out else out)
           (seq (left + 1) (right - (left + 1))) out)
      (seq wi r) out in
  changed_below (index_at (word_indexes s2) (wi + r)) out out3.
Proof.
  intros Hr. cbv zeta. apply changed_below_fold.
  intros o k Hk%list_elem_of_In%in_seq. apply changed_below_fold.
  intros o' t Ht%list_elem_of_In%in_seq.
  destruct (isspace_str _) eqn:Esp; [|apply changed_below_refl].
  apply changed_below_clear; [exact Esp|].
  destruct (word_lookup (k + 1)) as (i1 & w1 & Hi1 & _); [lia|].
  destruct (word_lookup (wi + r)) as (i2 & w2 & Hi2 & _); [lia|].
  rewrite (index_at_lookup _ _ Hi1) in Ht. rewrite (index_at_lookup _ _ Hi2).
  destruct (Nat.eq_dec (k + 1) (wi + r)) as [E|E].
  - rewrite E in Hi1. assert (i1 = i2) by congruence. lia.
  - assert (i1 < i2) by (eapply (word_index_lt (k + 1) (wi + r)); eauto; lia). lia.
Qed.

Lemma token_at_lookup (l : list (list N)) k w : l !! k = Some w -> token_at l k = w.
Proof. unfold token_at. now intros ->. Qed.

Lemma merge_step_spec keep wi out :
  length out = length (tokens s2) -> words_intact wi out ->
  wi < length (words s2) ->
  exists wi' out', merge_step s2 keep wi out = (wi', out') /\
    wi < wi' /\ length out' = length out /\ words_intact wi' out' /\
    concat out' ⊆+ concat out /\ visible (concat out') ≡ₚ visible (concat out).
Proof.
  intros Hlen Hint Hwi. unfold merge_step.
  destruct (word_lookup wi Hwi) as (p & w & Hp & Hw).
  destruct (merge_run_spec (drop wi keep) (drop (S wi) (words s2))
              (token_at (words s2) wi) wi) as (r & Hr & ->).
  rewrite length_drop in Hr.
  rewrite (token_at_lookup _ _ _ Hw), (index_at_lookup _ _ Hp).
  replace (wi + r - wi) with r by lia.
  assert (Hr' : wi + r < length (words s2)) by lia.
  destruct (merge_and_kill out wi p w r Hlen Hint Hp Hw Hr') as (L2 & P2 & A2).
  set (out2 := fold_left _ (seq (wi + 1) r) _) in *.
  destruct (clear_spaces_between out2 wi r Hr') as (L3 & A3 & S3 & V3).
  set (out3 := fold_left _ (seq wi r) out2) in *.
  exists (wi + r + 1), out3. repeat split.
  - lia.
  - congruence.
  - intros k i w' Hk Hi Hw'.
    destruct (word_lookup (wi + r) Hr') as (q & wq & Hq & _).
    rewrite (index_at_lookup _ _ Hq) in *.
    assert (q < i) by (eapply (word_index_lt (wi + r) k); eauto; lia).
    rewrite A3, A2 by lia. eapply Hint; [|exact Hi|exact Hw']. lia.
  - etransitivity; [exact S3|]. now rewrite P2.
  - etransitivity; [exact V3|]. unfold visible. now rewrite P2.
Qed.

Lemma merge_loop_sub fuel keep wi out :
  length out = length (tokens s2) -> words_intact wi out ->
  concat (merge_loop fuel s2 keep wi out) ⊆+ concat out /\
  visible (concat (merge_loop fuel s2 keep wi out)) ≡ₚ visible (concat out).
Proof.
  revert wi out. induction fuel as [|fuel IH]; intros wi out Hlen Hint; simpl;
    [split; reflexivity|].
  destruct (Nat.ltb_spec wi (length (words s2))) as [Hwi|]; [|split; reflexivity].
  destruct (merge_step_spec keep wi out Hlen Hint Hwi)
    as (wi' & out' & -> & _ & L & Hint' & Hsub & Hvis).
  destruct (IH wi' out') as [IH1 IH2]; [congruence | exact Hint' |].
  split; etransitivity; eassumption.
Qed.

(** Fuel: the loop ends by its own test once it has as many turns as there
    are words left. *)
Lemma merge_step_advances keep wi out : wi < fst (merge_step s2 keep wi out).
Proof.
  unfold merge_step.
  destruct (merge_run_spec (drop wi keep) (drop (S wi) (words s2))
              (token_at (words s2) wi) wi) as (r & _ & ->).
  simpl. lia.
Qed.

Lemma merge_loop_fuel fuel fuel' keep wi out :
  length (words s2) - wi <= fuel -> length (words s2) - wi <= fuel' ->
  merge_loop fuel s2 keep wi out = merge_loop fuel' s2 keep wi out.
Proof.
  revert fuel' wi out. induction fuel as [|fuel IH]; intros [|fuel'] wi out H1 H2; simpl;
    try reflexivity;
    destruct (Nat.ltb_spec wi (length (words s2))) as [Hwi|]; try reflexivity; try lia.
  pose proof (merge_step_advances keep wi out).
  destruct (merge_step s2 keep wi out) as [wi' out']. simpl in *. apply IH; lia.
Qed.

(** With every gap kept, the loop changes nothing. *)
Lemma merge_step_kept keep wi out :
  words_intact wi out -> wi < length (words s2) ->
  head (drop wi keep) <> Some false ->
  merge_step s2 keep wi out = (wi + 1, out).
Proof.
  intros Hint Hwi Hk. unfold merge_step.
  destruct (word_lookup wi Hwi) as (p & w & Hp & Hw).
  rewrite merge_run_kept by exact Hk.
  rewrite Nat.sub_diag. simpl.
  rewrite (token_at_lookup _ _ _ Hw), (index_at_lookup _ _ Hp).
  rewrite list_insert_id; [reflexivity|]. eapply Hint; eauto.
Qed.

Lemma merge_loop_kept fuel keep wi out :
  Forall (fun b => b = true) keep -> words_intact wi out ->
  merge_loop fuel s2 keep wi out = out.
Proof.
  intros Hkeep. revert wi out. induction fuel as [|fuel IH]; intros wi out Hint; simpl;
    [reflexivity|].
  destruct (Nat.ltb_spec wi (length (words s2))) as [Hwi|]; [|reflexivity].
  rewrite merge_step_kept; [| assumption.. |].
  - apply IH. intros k i w Hk. apply Hint. lia.
  - destruct (drop wi keep) as [|b rest] eqn:E; [discriminate|]. simpl.
    assert (Hb : b ∈ keep).
    { apply (list_elem_of_lookup_2 _ wi). rewrite <- (Nat.add_0_r wi), <- lookup_drop, E.
      reflexivity. }
    rewrite Forall_forall in Hkeep. rewrite (Hkeep b Hb). discriminate.
Qed.
End Rebuild.

(** ** Facts about [build_stream] *)

Lemma concat_split_tokens text : concat (split_tokens text) = text.
Proof.
  induction text as [|c text IH]; [reflexivity|]. simpl.
  destruct (split_tokens text) as [|[|d token] toks]; simpl in *.
  - now rewrite <- IH.
  - now rewrite <- IH.
  - destruct (eqb _ _); simpl; now rewrite <- IH.
Qed.

Lemma indexed_words_spec (f : list N -> bool) s (T : list (list N)) :
  let ix := List.filter (fun it => f (snd it)) (combine (seq s (length T)) T) in
  Forall (fun it => s <= fst it /\ T !! (fst it - s) = Some (snd it)) ix /\
  StronglySorted lt (map fst ix).
Proof.
  revert s. induction T as [|t T IH]; intros s; simpl.
  - split; constructor.
  - destruct (IH (S s)) as [H1 H2].
    assert (H1' : Forall (fun it => s <= fst it /\ (t :: T) !! (fst it - s) = Some (snd it))
                    (List.filter (fun it => f (snd it)) (combine (seq (S s) (length T)) T))).
    { eapply Forall_impl; [exact H1|]. intros [i w] [Hi Hw]. simpl in *.
      split; [lia|]. replace (i - s) with (S (i - S s)) by lia. exact Hw. }
    destruct (f t); simpl; [|split; assumption].
    split.
    + constructor; [|exact H1']. simpl. split; [lia|]. now rewrite Nat.sub_diag.
    + constructor; [exact H2|].
      apply Forall_forall. intros i Hi%list_elem_of_In%in_map_iff.
      destruct Hi as ([i' w] & <- & Hin). simpl.
      rewrite Forall_forall in H1. apply list_elem_of_In in Hin.
      destruct (H1 _ Hin) as [Hle _]. simpl in Hle. lia.
Qed.

Lemma build_stream_words text :
  Forall2 (fun i w => tokens (build_stream text) !! i = Some w)
    (word_indexes (build_stream text)) (words (build_stream text)).
Proof.
  unfold build_stream. simpl.
  destruct (indexed_words_spec is_word_token 0 (split_tokens text)) as [H _].
  cbv zeta in H. induction H as [|[i w] ix [_ Hw] H IH]; simpl; constructor; auto.
  simpl in Hw. now rewrite Nat.sub_0_r in Hw.
Qed.

Lemma build_stream_sorted text : StronglySorted lt (word_indexes (build_stream text)).
Proof. unfold build_stream. simpl. apply (indexed_words_spec is_word_token 0). Qed.

Lemma build_stream_tokens text : concat (tokens (build_stream text)) = text.
Proof. apply concat_split_tokens. Qed.

(** The letter stream of a text is its [normalize_letters]. *)
Definition uniform (token : list N) : Prop :=
  token <> [] /\ forall c, c ∈ token -> is_word_char c = is_word_token token.

Lemma split_tokens_uniform text : Forall uniform (split_tokens text).
Proof.
  induction text as [|c text IH]; simpl; [constructor|].
  assert (U1 : uniform [c]).
  { split; [discriminate|]. intros x ->%list_elem_of_singleton. simpl.
    now rewrite andb_true_r. }
  destruct (split_tokens text) as [|[|d token] toks]; simpl.
  - now constructor.
  - now constructor.
  - apply Forall_cons in IH as [[_ Hd] IH].
    destruct (eqb_spec (is_word_char c) (is_word_char d)) as [E|E].
    + constructor; [|exact IH]. split; [discriminate|].
      assert (Et : is_word_token (c :: d :: token) = is_word_token (d :: token)).
      { simpl. rewrite E. destruct (is_word_char d); reflexivity. }
      rewrite Et. intros x [->|Hx]%elem_of_cons; [|now apply Hd].
      rewrite E. apply Hd. now left.
    + constructor; [exact U1|]. constructor; [|exact IH]. split; [discriminate|exact Hd].
Qed.

Lemma word_char_of_letter c : is_letter c = true -> is_word_char c = true.
Proof. unfold is_word_char. now intros ->. Qed.

Lemma filter_none {A} (f : A -> bool) (l : list A) :
  (forall x, x ∈ l -> f x = false) -> List.filter f l = [].
Proof.
  induction l as [|x l IH]; intros H; simpl; [reflexivity|].
  rewrite (H x) by now left. apply IH. intros y Hy. apply H. now right.
Qed.

Lemma letters_of_tokens (T : list (list N)) :
  Forall uniform T ->
  List.filter is_letter (concat T)
  = concat (map (List.filter is_letter) (List.filter is_word_token T)).
Proof.
  induction 1 as [|t T [_ Ht] HT IH]; [reflexivity|]. simpl.
  rewrite List.filter_app, IH.
  destruct (is_word_token t) eqn:E; [reflexivity|].
  replace (List.filter is_letter t) with (@nil N); [reflexivity|].
  symmetry. apply filter_none. intros c Hc.
  specialize (Ht c Hc). destruct (is_letter c) eqn:El; [|reflexivity].
  apply word_char_of_letter in El. congruence.
Qed.

Lemma filter_indexed (f : list N -> bool) s (T : list (list N)) :
  map snd (List.filter (fun it => f (snd it)) (combine (seq s (length T)) T))
  = List.filter f T.
Proof.
  revert s. induction T as [|t T IH]; intros s; simpl; [reflexivity|].
  destruct (f t); simpl; now rewrite IH.
Qed.

Lemma stream_fold ws acc :
  fst (fold_left stream_step ws acc) = fst acc ++ concat (map word_norm ws).
Proof.
  revert acc. induction ws as [|w ws IH]; intros acc; simpl.
  - now rewrite app_nil_r.
  - rewrite IH. simpl. now rewrite app_assoc.
Qed.

Lemma lower_concat (ws : list (list N)) : lower (concat ws) = concat (map lower ws).
Proof.
  unfold lower. induction ws as [|w ws IH]; [reflexivity|]. simpl.
  now rewrite map_app, IH.
Qed.

Lemma stream_letters text : stream (build_stream text) = normalize_letters text.
Proof.
  unfold build_stream, normalize_letters. simpl.
  rewrite stream_fold, filter_indexed. simpl.
  rewrite <- (concat_split_tokens text) at 2.
  rewrite (letters_of_tokens _ (split_tokens_uniform text)), lower_concat, map_map.
  reflexivity.
Qed.

(** ** Boundary projection: conservatism and character preservation *)

Lemma keep_space_lookup s2 m refb i boundary :
  i < length (words s2) - 1 -> boundaries s2 !! i = Some boundary ->
  ref_boundary_of m boundary = None ->
  keep_space_after_word s2 m refb !! i = Some true.
Proof.
  intros Hi Hb Hr. unfold keep_space_after_word.
  rewrite list_lookup_fmap, lookup_seq_lt by exact Hi. simpl.
  rewrite Hb. simpl. now rewrite Hr.
Qed.

Lemma ref_boundary_unmapped m boundary :
  mjoin (m !! (boundary - 1)) = None -> mjoin (m !! boundary) = None ->
  ref_boundary_of m boundary = None.
Proof.
  intros H1 H2. unfold ref_boundary_of. rewrite H1, H2.
  destruct (1 <=? boundary), (boundary <? length m); reflexivity.
Qed.

Lemma keep_all_of_unmapped s2 m refb :
  (forall p, mjoin (m !! p) = None) ->
  Forall (fun b => b = true) (keep_space_after_word s2 m refb).
Proof.
  intros Hm. unfold keep_space_after_word. apply Forall_forall.
  intros b Hb%list_elem_of_In%in_map_iff. destruct Hb as (i & <- & _).
  now rewrite ref_boundary_unmapped.
Qed.

(** C4.  In [project_boundaries], a gap between two words whose stream
    offset cannot be mapped into the reference stream (no matching block
    covers the offset just before the gap or the offset just after it) is
    kept; and when the reference shares no letter with the corrupted text,
    the corrupted text is returned unchanged. *)
Theorem project_boundaries_conservative (tb2_text ref_text : list N) :
  let s2 := build_stream tb2_text in
  let sref := build_stream ref_text in
  (forall i boundary,
      i < length (words s2) - 1 -> boundaries s2 !! i = Some boundary ->
      (forall x, x ∈ get_matching_blocks (stream s2) (stream sref) ->
         ~ covers x (boundary - 1) /\ ~ covers x boundary) ->
      keep_space_after_word s2 (map_stream2_to_ref (stream s2) (stream sref))
        (boundary_set sref) !! i = Some true)
  /\ ((forall c, c ∈ normalize_letters tb2_text -> c ∉ normalize_letters ref_text) ->
      project_boundaries tb2_text ref_text = tb2_text).
Proof.
  intros s2 sref. split.
  - intros i boundary Hi Hb Hblocks.
    apply (keep_space_lookup s2 _ _ i boundary Hi Hb).
    apply ref_boundary_unmapped; apply stream_map_lookup_unmapped;
      intros x Hx; now apply Hblocks.
  - intros Hdisj.
    assert (Hkeep : Forall (fun b => b = true)
              (keep_space_after_word s2 (map_stream2_to_ref (stream s2) (stream sref))
                 (boundary_set sref))).
    { apply keep_all_of_unmapped. intros p. apply stream_map_lookup_unmapped.
      intros x Hx. unfold covers.
      assert (Hok : block_ok (stream s2) (stream sref) x).
      { pose proof (get_matching_blocks_ok (stream s2) (stream sref)) as Hall.
        rewrite Forall_forall in Hall. now apply Hall. }
      rewrite (disjoint_blocks_empty (stream s2) (stream sref) x); [lia | | exact Hok].
      subst s2 sref. rewrite !stream_letters. exact Hdisj. }
    unfold project_boundaries. fold s2 sref.
    destruct (stream s2) as [|c2 st2] eqn:E2; [reflexivity|].
    destruct (stream sref) as [|cr str] eqn:Er; [reflexivity|].
    destruct (words s2) as [|w ws] eqn:Ew; [reflexivity|].
    rewrite <- Ew.
    rewrite (merge_loop_kept s2 (build_stream_words tb2_text)).
    + apply build_stream_tokens.
    + exact Hkeep.
    + apply words_intact_start, build_stream_words.
Qed.

Lemma project_boundaries_conservative_witness :
  keep_space_after_word (build_stream (py "ab cd"))
    (map_stream2_to_ref (stream (build_stream (py "ab cd"))) (stream (build_stream (py "xy"))))
    (boundary_set (build_stream (py "xy"))) !! 0 = Some true
  /\ project_boundaries (py "ab cd") (py "xy") = py "ab cd".
Proof.
  destruct (project_boundaries_conservative (py "ab cd") (py "xy")) as [H1 H2].
  split.
  - apply (H1 0 2).
    + vm_compute. lia.
    + reflexivity.
    + intros x Hx. vm_compute in Hx.
      apply list_elem_of_singleton in Hx as ->. unfold covers. simpl. lia.
  - apply H2. intros c Hc Hc'. vm_compute in Hc, Hc'.
    repeat (apply elem_of_cons in Hc' as [->|Hc']);
      [| | apply elem_of_nil in Hc'; exact Hc'];
      repeat (apply elem_of_cons in Hc as [Hc|Hc]; [discriminate|]);
      apply elem_of_nil in Hc; exact Hc.
Defined.


(** ** The order of the characters *)

(** [quiet f t]: the token [t] holds no character of the class [f]. *)
Definition quiet (f : N -> bool) (t : list N) : Prop := List.filter f t = [].

Lemma filter_concat_insert (f : N -> bool) (l : list (list N)) i x t :
  l !! i = Some t -> List.filter f x = List.filter f t ->
  List.filter f (concat (<[i:=x]> l)) = List.filter f (concat l).
Proof.
  revert i. induction l as [|a l IH]; intros [|i] Hi Hx; simpl in *; try discriminate.
  - injection Hi as ->. now rewrite !List.filter_app, Hx.
  - rewrite !List.filter_app. f_equal. now apply IH.
Qed.

(** Taking [y] out of token [q] and putting it in front: the characters of
    class [f] keep their order when [y] has none, or when no token before
    [q] has any. *)
Lemma move_back (f : N -> bool) (l : list (list N)) q y :
  l !! q = Some y ->
  (quiet f y \/ forall i t, i < q -> l !! i = Some t -> quiet f t) ->
  List.filter f y ++ List.filter f (concat (<[q:=[]]> l)) = List.filter f (concat l).
Proof.
  revert q. induction l as [|a l IH]; intros [|q] Hq Hb; simpl in *; try discriminate.
  - injection Hq as ->. now rewrite List.filter_app.
  - rewrite !List.filter_app. destruct Hb as [Hy|Hb].
    + pose proof (IH q Hq (or_introl Hy)) as E. unfold quiet in Hy.
      rewrite Hy in *. simpl in *. now rewrite E.
    + assert (Ha : List.filter f a = []) by (apply (Hb 0 a); [lia|reflexivity]).
      rewrite Ha. simpl. apply IH; [exact Hq|]. right.
      intros i t Hi Ht. apply (Hb (S i) t); [lia|exact Ht].
Qed.

Lemma concat_move_filter (f : N -> bool) (l : list (list N)) p q x y :
  p < q -> p < length l -> l !! q = Some y ->
  (quiet f y \/ forall i t, p < i < q -> l !! i = Some t -> quiet f t) ->
  List.filter f (concat (<[q:=[]]> (<[p:=x ++ y]> l)))
  = List.filter f (concat (<[p:=x]> l)).
Proof.
  revert p q. induction l as [|a l IH]; intros p q Hpq Hp Hq Hb; simpl in Hp; [lia|].
  destruct q as [|q]; [lia|]. destruct p as [|p]; simpl in *.
  - rewrite !List.filter_app, <- app_assoc. f_equal. apply move_back; [exact Hq|].
    destruct Hb as [Hy|Hb]; [now left|right].
    intros i t Hi Ht. apply (Hb (S i) t); [lia|exact Ht].
  - rewrite !List.filter_app. f_equal. apply IH; [lia|lia|exact Hq|].
    destruct Hb as [Hy|Hb]; [now left|right].
    intros i t Hi Ht. apply (Hb (S i) t); [lia|exact Ht].
Qed.

Lemma fold_clear_keeps_empty (idx : nat -> nat) ks i (o : list (list N)) :
  o !! i = Some [] ->
  fold_left (fun out k => <[idx k := []]> out) ks o !! i = Some [].
Proof.
  revert o. induction ks as [|k ks IH]; intros o Ho; simpl; [exact Ho|].
  apply IH. destruct (decide (idx k = i)) as [->|Hne].
  - apply list_lookup_insert_eq. eapply lookup_lt_Some, Ho.
  - rewrite list_lookup_insert_ne by exact Hne. exact Ho.
Qed.

Lemma fold_clear_hit (idx : nat -> nat) ks k (o : list (list N)) :
  k ∈ ks -> idx k < length o ->
  fold_left (fun out k => <[idx k := []]> out) ks o !! idx k = Some [].
Proof.
  revert o. induction ks as [|k0 ks IH]; intros o Hk Hlen; [inversion Hk|]. simpl.
  apply elem_of_cons in Hk as [->|Hk].
  - apply fold_clear_keeps_empty. now apply list_lookup_insert_eq.
  - apply IH; [exact Hk|]. now rewrite length_insert.
Qed.

Section RebuildOrder.
Variable s2 : Stream.
Hypothesis Hwords :
  Forall2 (fun i w => tokens s2 !! i = Some w) (word_indexes s2) (words s2).
Hypothesis Hsorted : StronglySorted lt (word_indexes s2).
Variable f : N -> bool.
Hypothesis Hspace : forall t, isspace_str t = true -> quiet f t.
Hypothesis Hkind :
  Forall (quiet f) (words s2) \/
  (forall i t, tokens s2 !! i = Some t -> i ∉ word_indexes s2 -> quiet f t).

(** The tokens that are not words are as in the input, or emptied. *)
Definition others_kept (out : list (list N)) : Prop :=
  forall i t, i ∉ word_indexes s2 -> out !! i = Some t ->
    t = [] \/ tokens s2 !! i = Some t.

Lemma others_kept_start : others_kept (tokens s2).
Proof. intros i t _ Ht. now right. Qed.

Lemma word_index_gt k k' i i' :
  word_indexes s2 !! k = Some i -> word_indexes s2 !! k' = Some i' -> i < i' -> k < k'.
Proof.
  intros Hi Hi' Hlt. destruct (Nat.lt_trichotomy k k') as [H|[->|H]]; [exact H| |].
  - assert (i = i') by congruence. lia.
  - pose proof (word_index_lt s2 Hsorted k' k i' i H Hi' Hi). lia.
Qed.

Lemma index_at_word k : k < length (words s2) -> index_at (word_indexes s2) k ∈ word_indexes s2.
Proof.
  intros Hk. destruct (word_lookup s2 Hwords k Hk) as (i & w & Hi & _).
  rewrite (index_at_lookup s2 _ _ Hi). eapply list_elem_of_lookup_2, Hi.
Qed.

(** Merging and emptying words touches no other token. *)
Lemma merge_and_kill_others (out : list (list N)) wi p x r :
  word_indexes s2 !! wi = Some p -> wi + r < length (words s2) ->
  forall i, i ∉ word_indexes s2 ->
    fold_left (fun out kill => <[index_at (word_indexes s2) kill := []]> out)
      (seq (wi + 1) r) (<[p := x]> out) !! i = out !! i.
Proof.
  intros Hp Hr i Hi. rewrite fold_clear_lookup.
  - apply list_lookup_insert_ne. intros ->. apply Hi. eapply list_elem_of_lookup_2, Hp.
  - intros k Hk%list_elem_of_In%in_seq Heq. apply Hi. rewrite <- Heq.
    apply index_at_word. lia.
Qed.

(** Merging [r] further words into word [wi] keeps the characters of class
    [f] in their order. *)
Lemma merge_and_kill_order out wi p w r :
  length out = length (tokens s2) ->
  words_intact s2 wi out -> others_kept out ->
  word_indexes s2 !! wi = Some p -> words s2 !! wi = Some w ->
  wi + r < length (words s2) ->
  List.filter f (concat
    (fold_left (fun out kill => <[index_at (word_indexes s2) kill := []]> out)
      (seq (wi + 1) r)
      (<[p := w ++ concat (take r (drop (S wi) (words s2)))]> out)))
  = List.filter f (concat out).
Proof.
  intros Hlen Hint Hkept Hp Hw. induction r as [|r IH]; intros Hr.
  - simpl. rewrite app_nil_r, list_insert_id by (eapply Hint; eauto). reflexivity.
  - rewrite <- IH by lia. clear IH.
    destruct (word_lookup s2 Hwords (wi + S r)) as (q & wq & Hq & Hwq); [lia|].
    replace (wi + S r) with (wi + 1 + r) in * by lia.
    rewrite seq_S, fold_left_app. simpl.
    rewrite (index_at_lookup s2 _ _ Hq).
    assert (Etake : take (S r) (drop (S wi) (words s2))
                    = take r (drop (S wi) (words s2)) ++ [wq]).
    { erewrite take_S_r; [reflexivity|]. rewrite lookup_drop.
      replace (S wi + r) with (wi + 1 + r) by lia. exact Hwq. }
    rewrite Etake, concat_app. simpl. rewrite app_nil_r.
    set (M := concat (take r (drop (S wi) (words s2)))).
    assert (Hpq : p < q) by (eapply (word_index_lt s2 Hsorted wi (wi + 1 + r)); eauto; lia).
    assert (Hks : forall k, k ∈ seq (wi + 1) r ->
                  index_at (word_indexes s2) k <> p /\ index_at (word_indexes s2) k < q).
    { intros k Hk%list_elem_of_In%in_seq.
      destruct (word_lookup s2 Hwords k) as (ik & wk & Hik & _); [lia|].
      rewrite (index_at_lookup s2 _ _ Hik).
      assert (p < ik) by (eapply (word_index_lt s2 Hsorted wi k); eauto; lia).
      assert (ik < q) by (eapply (word_index_lt s2 Hsorted k (wi + 1 + r)); eauto; lia).
      lia. }
    rewrite !fold_clear_commute by (intros k Hk; apply Hks, Hk).
    set (Z := fold_left _ (seq (wi + 1) r) out).
    assert (HZ : length Z = length out) by apply fold_clear_length.
    assert (HZq : Z !! q = Some wq).
    { subst Z. rewrite fold_clear_lookup.
      - eapply Hint; [|exact Hq|exact Hwq]. lia.
      - intros k Hk. specialize (Hks k Hk). lia. }
    pose proof (word_index_in_range s2 Hwords _ _ Hq) as Hqlt.
    rewrite app_assoc. apply concat_move_filter; [exact Hpq|lia|exact HZq|].
    destruct Hkind as [Hquiet|Hquiet].
    + left. rewrite Forall_forall in Hquiet. apply Hquiet.
      eapply list_elem_of_lookup_2, Hwq.
    + right. intros i t Hi Ht.
      destruct (decide (i ∈ word_indexes s2)) as [Hin|Hnin].
      * apply list_elem_of_lookup_1 in Hin as [k Hk].
        assert (wi < k) by (eapply word_index_gt; [exact Hp|exact Hk|lia]).
        assert (k < wi + 1 + r) by (eapply word_index_gt; [exact Hk|exact Hq|lia]).
        assert (Hhit : Z !! i = Some []).
        { subst Z. rewrite <- (index_at_lookup s2 _ _ Hk).
          apply (fold_clear_hit (index_at (word_indexes s2))).
          - apply list_elem_of_In, in_seq. lia.
          - rewrite (index_at_lookup s2 _ _ Hk). lia. }
        rewrite Ht in Hhit. injection Hhit as ->. reflexivity.
      * assert (HZi : Z !! i = out !! i).
        { subst Z. apply fold_clear_lookup.
          intros k Hk%list_elem_of_In%in_seq Heq. apply Hnin. rewrite <- Heq.
          apply index_at_word. lia. }
        rewrite HZi in Ht.
        destruct (Hkept i t Hnin Ht) as [->|Htok]; [reflexivity|].
        eapply Hquiet; eauto.
Qed.

(** [emptied out out']: [out'] is [out] with some tokens emptied, none of
    which held a character of class [f]. *)
Definition emptied (out out' : list (list N)) : Prop :=
  List.filter f (concat out') = List.filter f (concat out) /\
  forall i t, out' !! i = Some t -> t = [] \/ out !! i = Some t.

Lemma emptied_refl out : emptied out out.
Proof. split; [reflexivity|]. intros i t Ht. now right. Qed.

Lemma emptied_trans o1 o2 o3 : emptied o1 o2 -> emptied o2 o3 -> emptied o1 o3.
Proof.
  intros [F1 A1] [F2 A2]. split; [congruence|].
  intros i t Ht. destruct (A2 i t Ht) as [->|Ht2]; [now left|]. now apply A1.
Qed.

Lemma emptied_clear out t :
  isspace_str (token_at out t) = true -> emptied out (<[t:=[]]> out).
Proof.
  intros Hsp. unfold token_at in Hsp. destruct (out !! t) as [x|] eqn:E; [|discriminate].
  split.
  - apply (filter_concat_insert f out t [] x E). symmetry. apply Hspace, Hsp.
  - intros i y Hy. destruct (decide (t = i)) as [->|Hne].
    + rewrite list_lookup_insert_eq in Hy by (eapply lookup_lt_Some, E).
      injection Hy as <-. now left.
    + rewrite list_lookup_insert_ne in Hy by exact Hne. now right.
Qed.

Lemma emptied_fold {A} (g : list (list N) -> A -> list (list N)) xs out :
  (forall o x, x ∈ xs -> emptied o (g o x)) -> emptied out (fold_left g xs out).
Proof.
  revert out. induction xs as [|x xs IH]; intros out Hg; simpl.
  - apply emptied_refl.
  - eapply emptied_trans; [apply Hg; now left|].
    apply IH. intros o y Hy. apply Hg. now right.
Qed.

Lemma clear_spaces_order out wi r :
  emptied out
    (fold_left
      (fun out k =>
         let left := index_at (word_indexes s2) k in
         let right := index_at (word_indexes s2) (k + 1) in
         fold_left
           (fun out token_i =>
              if isspace_str (token_at out token_i) then <[token_i := []]> out else out)
           (seq (left + 1) (right - (left + 1))) out)
      (seq wi r) out).
Proof.
  apply emptied_fold. intros o k _. apply emptied_fold. intros o' t _.
  destruct (isspace_str _) eqn:Esp; [|apply emptied_refl].
  now apply emptied_clear.
Qed.

Lemma merge_step_order keep wi out :
  length out = length (tokens s2) -> words_intact s2 wi out -> others_kept out ->
  wi < length (words s2) ->
  List.filter f (concat (snd (merge_step s2 keep wi out))) = List.filter f (concat out) /\
  others_kept (snd (merge_step s2 keep wi out)).
Proof.
  intros Hlen Hint Hkept Hwi. unfold merge_step.
  destruct (word_lookup s2 Hwords wi Hwi) as (p & w & Hp & Hw).
  destruct (merge_run_spec (drop wi keep) (drop (S wi) (words s2))
              (token_at (words s2) wi) wi) as (r & Hr & ->).
  rewrite length_drop in Hr.
  rewrite (token_at_lookup _ _ _ Hw), (index_at_lookup s2 _ _ Hp).
  replace (wi + r - wi) with r by lia.
  assert (Hr' : wi + r < length (words s2)) by lia.
  pose proof (merge_and_kill_order out wi p w r Hlen Hint Hkept Hp Hw Hr') as F2.
  pose proof (merge_and_kill_others out wi p
                (w ++ concat (take r (drop (S wi) (words s2)))) r Hp Hr') as A2.
  set (out2 := fold_left _ (seq (wi + 1) r) _) in *.
  destruct (clear_spaces_order out2 wi r) as [F3 A3].
  split.
  - exact (eq_trans F3 F2).
  - intros i t Hnin Ht. destruct (A3 i t Ht) as [->|Ht2]; [now left|].
    rewrite A2 in Ht2 by exact Hnin. now apply Hkept.
Qed.

Lemma merge_loop_order fuel keep wi out :
  length out = length (tokens s2) -> words_intact s2 wi out -> others_kept out ->
  List.filter f (concat (merge_loop fuel s2 keep wi out)) = List.filter f (concat out).
Proof.
  revert wi out. induction fuel as [|fuel IH]; intros wi out Hlen Hint Hkept; simpl;
    [reflexivity|].
  destruct (Nat.ltb_spec wi (length (words s2))) as [Hwi|]; [|reflexivity].
  destruct (merge_step_order keep wi out Hlen Hint Hkept Hwi) as [F K].
  destruct (merge_step_spec s2 Hwords Hsorted keep wi out Hlen Hint Hwi)
    as (wi' & out' & E & _ & L & Hint' & _).
  rewrite E in *. cbn [snd] in *.
  rewrite IH; [exact F|congruence|exact Hint'|exact K].
Qed.
End RebuildOrder.

Lemma indexed_words_complete (g : list N -> bool) s (T : list (list N)) i t :
  T !! i = Some t -> g t = true ->
  (s + i) ∈ map fst (List.filter (fun it => g (snd it)) (combine (seq s (length T)) T)).
Proof.
  revert s i. induction T as [|a T IH]; intros s i Hi Hg; [discriminate|]. simpl.
  destruct i as [|i]; simpl in Hi.
  - injection Hi as ->. rewrite Hg. simpl. rewrite Nat.add_0_r. now left.
  - specialize (IH (S s) i Hi Hg). replace (s + S i) with (S s + i) by lia.
    destruct (g a); simpl; [now right|exact IH].
Qed.

Lemma build_stream_word_tokens text :
  Forall (fun w => is_word_token w = true) (words (build_stream text)).
Proof.
  unfold build_stream. simpl. apply Forall_forall.
  intros w Hw%list_elem_of_In%in_map_iff. destruct Hw as ([i w'] & <- & Hin).
  apply filter_In in Hin as [_ Hin]. exact Hin.
Qed.

Lemma space_not_word_char c : isspace c = true -> is_word_char c = false.
Proof.
  intros Hs. apply not_true_is_false. intros H.
  unfold is_word_char, is_letter, isspace, in_range, HYPHEN in *.
  repeat rewrite ?orb_true_iff, ?andb_true_iff, ?N.leb_le, ?N.eqb_eq in H.
  repeat rewrite ?orb_true_iff, ?andb_true_iff, ?N.leb_le, ?N.eqb_eq in Hs.
  lia.
Qed.

(** The word characters of a text, and its other characters that are not
    whitespace, each in their order. *)
Definition word_chars (t : list N) : list N := List.filter is_word_char t.
Definition marks (t : list N) : list N :=
  List.filter (fun c => negb (is_word_char c) && negb (isspace c)) t.

(** [project_boundaries] keeps the order of the characters of a class that
    has no whitespace and lies on one side of the word characters. *)
Lemma project_boundaries_order (f : N -> bool) (tb2_text ref_text : list N) :
  (forall c, isspace c = true -> f c = false) ->
  (forall c, is_word_char c = true -> f c = false) \/
  (forall c, is_word_char c = false -> f c = false) ->
  List.filter f (project_boundaries tb2_text ref_text) = List.filter f tb2_text.
Proof.
  intros Hsp Hside. unfold project_boundaries.
  set (s2 := build_stream tb2_text). set (sref := build_stream ref_text).
  destruct (stream s2) as [|c2 st2]; [reflexivity|].
  destruct (stream sref) as [|cr str]; [reflexivity|].
  destruct (words s2) as [|w ws] eqn:Ew; [reflexivity|].
  rewrite <- Ew.
  rewrite (merge_loop_order s2 (build_stream_words tb2_text) (build_stream_sorted tb2_text) f).
  - pose proof (build_stream_tokens tb2_text) as Htok. fold s2 in Htok. now rewrite Htok.
  - intros t Ht. apply filter_none. intros c Hc. apply Hsp.
    destruct t as [|d t]; [discriminate|]. cbn [isspace_str] in Ht.
    rewrite forallb_forall in Ht. apply Ht. now apply list_elem_of_In.
  - destruct Hside as [Hside|Hside].
    + left. eapply Forall_impl; [apply build_stream_word_tokens|].
      intros t Ht. apply filter_none. intros c Hc. apply Hside.
      destruct t as [|d t]; [discriminate|]. cbn [is_word_token] in Ht.
      rewrite forallb_forall in Ht. apply Ht. now apply list_elem_of_In.
    + right. intros i t Ht Hi. apply filter_none. intros c Hc. apply Hside.
      pose proof (split_tokens_uniform tb2_text) as Hu.
      rewrite Forall_forall in Hu.
      destruct (Hu t) as [_ Hchars]; [eapply list_elem_of_lookup_2, Ht|].
      rewrite (Hchars c Hc).
      destruct (is_word_token t) eqn:Et; [|reflexivity].
      exfalso. apply Hi.
      apply (indexed_words_complete is_word_token 0 (split_tokens tb2_text) i t Ht Et).
  - reflexivity.
  - apply words_intact_start. apply build_stream_words.
  - apply others_kept_start.
Qed.



(** ** Reference selection *)

(** C7.  When the reference unit at the exact verse number exists and its
    ratio reaches [min_direct_ratio] (equality included), [choose_reference]
    returns that unit with mode Same and that ratio, and the only ratio
    computed is the one against that unit. *)
Theorem choose_reference_direct (tb2_norm : list N) (ref_rows : gmap Z RowRef) (verse : Z)
    (min_direct_ratio min_neighbor_ratio : Q) (neighbor_window : Z) (r : RowRef) :
  ref_rows !! verse = Some r ->
  (min_direct_ratio <= sequence_ratio tb2_norm (normalized r))%Q ->
  choose_reference tb2_norm ref_rows verse min_direct_ratio min_neighbor_ratio neighbor_window
  = ((Some r, ModeSame, sequence_ratio tb2_norm (normalized r)), [EvRatio verse]).
Proof.
  intros Hr Hle. unfold choose_reference. rewrite Hr.
  cbv [bind ratio_against emit ret fst snd].
  apply Qle_bool_iff in Hle. rewrite Hle.
  rewrite bool_decide_eq_true_2 by eauto. reflexivity.
Qed.

Definition witness_direct : RowRef :=
  {| verse := 3; text := py "Ab cx"; normalized := py "abcx" |}.
Definition witness_neighbor : RowRef :=
  {| verse := 4; text := py "ab cd"; normalized := py "abcd" |}.

Lemma choose_reference_direct_witness :
  choose_reference (py "abcd") (<[3%Z := witness_direct]> {[4%Z := witness_neighbor]}) 3
    (3 # 4) (82 # 100) 6
  = ((Some witness_direct, ModeSame, sequence_ratio (py "abcd") (py "abcx")), [EvRatio 3]).
Proof.
  apply (choose_reference_direct (py "abcd") _ 3 (3 # 4) (82 # 100) 6 witness_direct).
  - apply lookup_insert_eq.
  - vm_compute. discriminate.
Defined.

Local Open Scope nat_scope.

(** ** Tail trimming *)

Lemma sentence_ends_none idx letters source :
  Forall (fun c => is_sentence_end c = false) source ->
  sentence_ends_from idx letters source = [].
Proof.
  intros H. revert idx letters. induction H as [|c source Hc H IH]; intros idx letters; simpl.
  - reflexivity.
  - rewrite Hc. apply IH.
Qed.

Lemma lstrip_Forall (P : N -> Prop) s : Forall P s -> Forall P (lstrip s).
Proof.
  induction 1 as [|c s Hc H IH]; simpl; [constructor|].
  destruct (isspace c); [exact IH | now constructor].
Qed.

Lemma rstrip_Forall (P : N -> Prop) s : Forall P s -> Forall P (rstrip s).
Proof.
  induction 1 as [|c s Hc H IH]; simpl; [constructor|].
  destruct (rstrip s) as [|d r].
  - destruct (isspace c); [constructor | now repeat constructor].
  - now constructor.
Qed.

Lemma strip_Forall (P : N -> Prop) s : Forall P s -> Forall P (strip s).
Proof. intros H. unfold strip. now apply rstrip_Forall, lstrip_Forall. Qed.

Lemma filter_all_false {A} (f : A -> bool) (l : list A) :
  Forall (fun x => f x = false) l -> List.filter f l = [].
Proof. intros H. apply filter_none. now apply Forall_forall. Qed.

(** The plausible band around the reference's letter count. *)
Definition in_band (reference_text : list N) (letters : nat) : bool :=
  let ref_letters := Z.of_nat (length (normalize_letters reference_text)) in
  (int_of_Q (inject_Z ref_letters * (65 # 100)) <=? Z.of_nat letters)%Z
  && (Z.of_nat letters <=? int_of_Q (inject_Z ref_letters * (155 # 100)))%Z.

(** Whatever the text, when it has no sentence-ending mark, or no sentence
    end whose letter count lies in the band, the trimmer returns it
    stripped; an empty reference gives the stripped text. *)
Lemma trim_skipped_stripped (text reference_text : list N) (max_ratio : Q) :
  (Forall (fun c => is_sentence_end c = false) text
   \/ Forall (fun it => in_band reference_text (snd it) = false)
        (sentence_ends_from 0 0 (strip text)) ->
   trim_low_confidence_tail text reference_text max_ratio = strip text)
  /\ trim_low_confidence_tail [] reference_text max_ratio = []
  /\ trim_low_confidence_tail text [] max_ratio = strip text.
Proof.
  split; [|split].
  - intros H. unfold trim_low_confidence_tail.
    destruct (strip text) as [|c source] eqn:Es; [reflexivity|].
    destruct (normalize_letters (c :: source)) as [|a sn]; [reflexivity|].
    destruct (normalize_letters reference_text) as [|b rn] eqn:Er; [reflexivity|].
    destruct (_ <=? _)%Z; [reflexivity|].
    destruct H as [H|H].
    + rewrite sentence_ends_none; [reflexivity|].
      rewrite <- Es. now apply strip_Forall.
    + destruct (sentence_ends_from 0 0 (c :: source)) as [|e es]; [reflexivity|].
      rewrite filter_all_false; [reflexivity|].
      unfold in_band in H. rewrite Er in H. exact H.
  - reflexivity.
  - unfold trim_low_confidence_tail.
    destruct (strip text) as [|c source]; [reflexivity|].
    destruct (normalize_letters (c :: source)); reflexivity.
Qed.

(** C9.  The trimmer is handed stripped text (in [main] it follows
    [normalize_punctuation_spacing] or the fallback on normalized text).
    For such a text, when it has no sentence-ending mark, or no sentence
    end whose letter count lies in the band around the reference's letter
    count, trimming is skipped and the text comes back unchanged.  The
    function is total: the empty text gives the empty text, and an empty
    reference gives the text back. *)
Theorem trim_skipped_returns_input (text reference_text : list N) (max_ratio : Q) :
  strip text = text ->
  (Forall (fun c => is_sentence_end c = false) text
   \/ Forall (fun it => in_band reference_text (snd it) = false)
        (sentence_ends_from 0 0 text) ->
   trim_low_confidence_tail text reference_text max_ratio = text)
  /\ trim_low_confidence_tail [] reference_text max_ratio = []
  /\ trim_low_confidence_tail text [] max_ratio = text.
Proof.
  intros Hstripped.
  destruct (trim_skipped_stripped text reference_text max_ratio) as (Hskip & Hempty & Hnoref).
  rewrite Hstripped in Hskip, Hnoref.
  split; [exact Hskip|]. split; [exact Hempty|exact Hnoref].
Qed.

Lemma trim_skipped_returns_input_witness :
  trim_low_confidence_tail (py "satu dua tiga empat") (py "satu") (135 # 100)
  = py "satu dua tiga empat".
Proof.
  destruct (trim_skipped_returns_input (py "satu dua tiga empat") (py "satu") (135 # 100))
    as [Hskip _].
  - vm_compute. reflexivity.
  - apply Hskip. left. repeat constructor.
Defined.

Local Open Scope nat_scope.

(** ** The dynamic programme of [fallback_merge_words] *)

Section Merger.
Variable rt : Runtime.
Variable lexicon : gmap (list N) Z.
Variable words : list (list N).
Variable max_group : nat.

(** The score of the group of [k] words that starts at word [i], and
    whether the merger considers it: the test [score <= -9990.0] fails. *)
Definition group_score (i k : nat) : float :=
  fallback_group_score rt (slice words i (i + k)) lexicon.

Definition accepted (i k : nat) : Prop :=
  PrimFloat.leb (group_score i k) REJECT_BELOW = false.

(** One pass of the inner loop leaves the table as it is, or records a
    group it considered. *)
Lemma try_group_cases i st k :
  try_group rt words lexicon i st k = st
  \/ (accepted i k /\
      exists total, try_group rt words lexicon i st k
                    = (<[i := total]> (fst st), <[i := k]> (snd st))).
Proof.
  unfold try_group, accepted. fold (group_score i k).
  destruct (PrimFloat.leb (group_score i k) REJECT_BELOW); [now left|].
  destruct (PrimFloat.ltb _ _); [|now left].
  right. split; [reflexivity|]. eexists. reflexivity.
Qed.

(** What one row of the table (one start [i], the group lengths [ks])
    leaves behind. *)
Definition row_result (i : nat) (ks : list nat) (st st' : list float * list nat) : Prop :=
  length (fst st') = length (fst st) /\ length (snd st') = length (snd st) /\
  (forall j, j <> i -> snd st' !! j = snd st !! j) /\
  (snd st' !! i = snd st !! i
   \/ exists k, k ∈ ks /\ accepted i k /\ snd st' !! i = Some k).

Lemma row_result_fold i ks st :
  i < length (snd st) ->
  row_result i ks st (fold_left (try_group rt words lexicon i) ks st).
Proof.
  revert st. induction ks as [|k ks IH]; intros st Hi; cbn [fold_left].
  - repeat split; auto.
  - destruct (try_group_cases i st k) as [->|(Ha & total & ->)].
    + destruct (IH st Hi) as (L1 & L2 & A & C).
      repeat split; auto.
      destruct C as [C|(k' & Hk' & Ha' & C)]; [now left|].
      right. exists k'. repeat split; [now right|exact Ha'|exact C].
    + set (st1 := (<[i:=total]> (fst st), <[i:=k]> (snd st))).
      assert (Hi1 : i < length (snd st1)) by (subst st1; cbn; now rewrite length_insert).
      destruct (IH st1 Hi1) as (L1 & L2 & A & C).
      subst st1. cbn [fst snd] in *. rewrite length_insert in L1. rewrite length_insert in L2.
      repeat split; auto.
      * intros j Hj. rewrite A by exact Hj. now apply list_lookup_insert_ne.
      * right. destruct C as [C|(k' & Hk' & Ha' & C)].
        -- exists k. repeat split; [now left|exact Ha|].
           rewrite C. now apply list_lookup_insert_eq.
        -- exists k'. repeat split; [now right|exact Ha'|exact C].
Qed.

(** *** The table *)

Definition table_init : list float * list nat :=
  (<[length words := 0%float]> (replicate (length words + 1) UNREACHED),
   replicate (length words) 1).

(** The table after the rows [n - 1], ..., [n - j]. *)
Definition table_down (j : nat) : list float * list nat :=
  fold_left (best_from rt words lexicon max_group)
    (rev (seq (length words - j) j)) table_init.

Lemma table_down_S j :
  j < length words ->
  table_down (S j)
  = best_from rt words lexicon max_group (table_down j) (length words - S j).
Proof.
  intros Hj. unfold table_down.
  replace (seq (length words - S j) (S j))
    with ((length words - S j) :: seq (length words - j) j).
  - simpl. now rewrite fold_left_app.
  - simpl. f_equal. f_equal. lia.
Qed.

Lemma best_table_down :
  best_table rt words lexicon max_group = table_down (length words).
Proof. unfold best_table, table_down. now rewrite Nat.sub_diag. Qed.

Lemma best_from_row st i :
  i < length (snd st) ->
  row_result i (seq 1 (Nat.min max_group (length words - i))) st
    (best_from rt words lexicon max_group st i).
Proof. intros Hi. unfold best_from. now apply row_result_fold. Qed.

(** The shape of the table: rows not yet computed hold the initial group
    length 1; a computed row holds a group length that stays inside the
    run, and that is 1 or the length, at most [max_group], of a group the
    merger considered. *)
Definition table_shape (j : nat) (st : list float * list nat) : Prop :=
  length (fst st) = length words + 1 /\ length (snd st) = length words /\
  (forall i, i < length words - j -> snd st !! i = Some 1) /\
  (forall i, length words - j <= i < length words ->
     exists k, snd st !! i = Some k /\ 1 <= k <= length words - i
               /\ (k = 1 \/ (k <= max_group /\ accepted i k))).

Lemma table_shape_init : table_shape 0 table_init.
Proof.
  unfold table_init. repeat split; cbn [fst snd].
  - rewrite length_insert, length_replicate. reflexivity.
  - apply length_replicate.
  - intros i Hi. apply lookup_replicate_2. lia.
  - intros i Hi. lia.
Qed.

Lemma table_shape_down j : j <= length words -> table_shape j (table_down j).
Proof.
  induction j as [|j IH]; intros Hj.
  - apply table_shape_init.
  - destruct IH as (L1 & L2 & Init & Done); [lia|].
    rewrite table_down_S by lia.
    set (i := length words - S j) in *. set (st := table_down j) in *.
    destruct (best_from_row st i) as (L1' & L2' & A & C); [lia|].
    set (st' := best_from _ _ _ _ st i) in *.
    repeat split.
    + congruence.
    + congruence.
    + intros i' Hi'. rewrite A by lia. apply Init. lia.
    + intros i' Hi'. destruct (Nat.eq_dec i' i) as [->|Hne].
      * destruct C as [C|(k & Hk & Ha & C)].
        -- rewrite C, Init by lia.
           exists 1. repeat split; [lia | lia | now left].
        -- apply list_elem_of_In, in_seq in Hk. exists k.
           repeat split; [exact C|lia|lia|]. right. split; [lia|exact Ha].
      * rewrite A by exact Hne. apply Done. lia.
Qed.

Lemma best_table_shape :
  table_shape (length words) (best_table rt words lexicon max_group).
Proof. rewrite best_table_down. now apply table_shape_down. Qed.

(** *** Reading the groups *)

(** The group lengths the reading loop follows. *)
Fixpoint read_plan (fuel : nat) (best_len : list nat) (i : nat) : list nat :=
  match fuel with
  | O => []
  | S fuel' =>
      if i <? length words then
        let k := default 0 (best_len !! i) in k :: read_plan fuel' best_len (i + k)
      else []
  end.

(** The groups of a plan that starts at word [i]. *)
Fixpoint groups_of (i : nat) (plan : list nat) : list (list (list N)) :=
  match plan with
  | [] => []
  | k :: plan' => slice words i (i + k) :: groups_of (i + k) plan'
  end.

Lemma read_groups_plan fuel best_len i out :
  read_groups fuel words best_len i out
  = out ++ map (@concat N) (groups_of i (read_plan fuel best_len i)).
Proof.
  revert i out. induction fuel as [|fuel IH]; intros i out; simpl.
  - now rewrite app_nil_r.
  - destruct (i <? length words); [|now rewrite app_nil_r].
    rewrite IH. simpl. now rewrite <- app_assoc.
Qed.

(** A plan covers the rest of the run from [i]. *)
Definition covers_from (i : nat) (plan : list nat) : Prop :=
  Forall (fun k => 1 <= k) plan /\ i + list_sum plan = length words.

Lemma read_plan_covers fuel best_len i :
  (forall i', i' < length words ->
     exists k, best_len !! i' = Some k /\ 1 <= k <= length words - i') ->
  i <= length words -> length words - i <= fuel ->
  covers_from i (read_plan fuel best_len i).
Proof.
  intros Hlen. revert i. induction fuel as [|fuel IH]; intros i Hi Hfuel; simpl.
  - split; [constructor | simpl; lia].
  - destruct (Nat.ltb_spec i (length words)) as [Hlt|Hge].
    + destruct (Hlen i Hlt) as (k & -> & Hk). simpl.
      destruct (IH (i + k)) as [F S]; [lia | lia |].
      split; [constructor; [lia | exact F] | simpl; lia].
    + split; [constructor | simpl; lia].
Qed.

Lemma concat_groups i plan :
  covers_from i plan -> concat (map (@concat N) (groups_of i plan)) = concat (drop i words).
Proof.
  revert i. induction plan as [|k plan IH]; intros i [F S]; simpl in *.
  - rewrite drop_ge by lia. reflexivity.
  - apply Forall_cons in F as [Hk F]. rewrite IH by (split; [exact F | lia]).
    unfold slice. replace (i + k - i) with k by lia.
    rewrite <- concat_app. f_equal.
    rewrite <- drop_drop. apply take_drop.
Qed.


End Merger.

(** ** The fallback path keeps every character but spaces *)

(** [s.replace(" ", "")] *)
Definition remove_spaces (s : list N) : list N := filter (fun c => c <> SP) s.

Lemma filter_join_space (P : N -> Prop) `{forall c, Decision (P c)} (parts : list (list N)) :
  ~ P SP -> filter P (join_space parts) = filter P (concat parts).
Proof.
  intros HSP. induction parts as [|p parts IH]; [reflexivity|].
  destruct parts as [|q parts].
  - simpl. now rewrite app_nil_r.
  - change (join_space (p :: q :: parts)) with (p ++ SP :: join_space (q :: parts)).
    change (concat (p :: q :: parts)) with (p ++ concat (q :: parts)).
    rewrite !filter_app, filter_cons_False by exact HSP. now rewrite IH.
Qed.

Lemma filter_all (P : N -> Prop) `{forall c, Decision (P c)} (s : list N) :
  Forall P s -> filter P s = s.
Proof.
  induction 1 as [|c s Hc Hs IH]; [reflexivity|].
  rewrite filter_cons_True by exact Hc. now rewrite IH.
Qed.

Lemma merged_words_concat rt lexicon max_group (words : list (list N))
    (P : N -> Prop) `{forall c, Decision (P c)} :
  ~ P SP ->
  filter P (fallback_merge_words rt words lexicon max_group)
  = filter P (concat words).
Proof.
  intros HSP. unfold fallback_merge_words.
  destruct (length words <=? 1); [now apply filter_join_space|].
  rewrite filter_join_space by exact HSP.
  rewrite read_groups_plan. simpl.
  rewrite concat_groups; [now rewrite drop_0|].
  apply read_plan_covers; [|lia|lia].
  intros i Hi.
  destruct (best_table_shape rt lexicon words max_group) as (_ & _ & _ & D).
  destruct (D i) as (k & Hk & Hr & _); [lia|]. eauto.
Qed.

(** Word characters are neither whitespace nor the space. *)
Lemma word_char_not_space c : is_word_char c = true -> isspace c = false.
Proof.
  intros H. apply not_true_is_false. intros Hs.
  unfold is_word_char, is_letter, isspace, in_range, HYPHEN in *.
  repeat rewrite ?orb_true_iff, ?andb_true_iff, ?N.leb_le, ?N.eqb_eq in H.
  repeat rewrite ?orb_true_iff, ?andb_true_iff, ?N.leb_le, ?N.eqb_eq in Hs.
  lia.
Qed.

Lemma word_token_chars w :
  is_word_token w = true -> Forall (fun c => is_word_char c = true) w.
Proof.
  destruct w as [|c w]; [discriminate|]. unfold is_word_token.
  intros H. apply Forall_forall. intros x Hx%list_elem_of_In.
  rewrite forallb_forall in H. now apply H.
Qed.

Lemma word_tokens_visible (ws : list (list N)) :
  Forall (fun w => is_word_token w = true) ws -> visible (concat ws) = concat ws.
Proof.
  intros H. apply filter_all. apply Forall_concat.
  eapply Forall_impl; [exact H|]. intros w Hw.
  eapply Forall_impl; [apply word_token_chars, Hw|]. intros c Hc.
  now apply word_char_not_space.
Qed.

Lemma word_tokens_no_space (ws : list (list N)) :
  Forall (fun w => is_word_token w = true) ws -> remove_spaces (concat ws) = concat ws.
Proof.
  intros H. apply filter_all. apply Forall_concat.
  eapply Forall_impl; [exact H|]. intros w Hw.
  eapply Forall_impl; [apply word_token_chars, Hw|]. intros c Hc ->.
  discriminate.
Qed.

(** *** The scanner of [WORD_RUN_RE] *)

Lemma span_spec (P : N -> bool) s :
  s = fst (span P s) ++ snd (span P s) /\ Forall (fun c => P c = true) (fst (span P s)).
Proof.
  induction s as [|c s [IH1 IH2]]; simpl; [split; [reflexivity|constructor]|].
  destruct (P c) eqn:E; simpl.
  - split; [now rewrite <- IH1 | now constructor].
  - split; [reflexivity | constructor].
Qed.

Lemma visible_app a b : visible (a ++ b) = visible a ++ visible b.
Proof. apply filter_app. Qed.

Lemma visible_all_space g : Forall (fun c => isspace c = true) g -> visible g = [].
Proof.
  induction 1 as [|c g Hc Hg IH]; [reflexivity|].
  unfold visible in *. rewrite filter_cons_False by congruence. exact IH.
Qed.

Lemma more_words_spec fuel s :
  visible s = concat (fst (more_words fuel s)) ++ visible (snd (more_words fuel s))
  /\ Forall (fun w => is_word_token w = true) (fst (more_words fuel s))
  /\ length (snd (more_words fuel s)) <= length s.
Proof.
  revert s. induction fuel as [|fuel IH]; intros s; simpl; [repeat split; auto|].
  destruct (span_spec isspace s) as [Es Hs].
  destruct (span_spec is_word_char (snd (span isspace s))) as [Ew Hw].
  destruct (fst (span isspace s)) as [|g gs] eqn:Eg; [repeat split; auto|].
  destruct (fst (span is_word_char (snd (span isspace s)))) as [|w wd] eqn:Ewd;
    [repeat split; auto|].
  destruct (IH (snd (span is_word_char (snd (span isspace s))))) as (V & F & L).
  assert (Hvw : visible (w :: wd) = w :: wd).
  { apply filter_all. eapply Forall_impl; [exact Hw|].
    intros c Hc. now apply word_char_not_space. }
  simpl. repeat split.
  - rewrite Es at 1. rewrite visible_app, (visible_all_space _ Hs). simpl.
    rewrite Ew at 1. rewrite visible_app, V, Hvw. simpl. now rewrite <- app_assoc.
  - constructor; [|exact F]. unfold is_word_token.
    apply forallb_forall. intros c Hc%list_elem_of_In.
    rewrite Forall_forall in Hw. now apply Hw.
  - apply (f_equal (@length N)) in Es, Ew. rewrite length_app in Es, Ew.
    simpl in *. lia.
Qed.

Lemma match_word_run_spec s ws after :
  match_word_run s = Some (ws, after) ->
  visible s = concat ws ++ visible after
  /\ Forall (fun w => is_word_token w = true) ws
  /\ length after < length s.
Proof.
  unfold match_word_run. intros H.
  destruct (span_spec is_word_char s) as [Es Hs].
  destruct (fst (span is_word_char s)) as [|w wd] eqn:Ew; [discriminate|].
  destruct (more_words_spec (length s) (snd (span is_word_char s))) as (V & F & L).
  destruct (fst (more_words (length s) (snd (span is_word_char s)))) as [|w2 ws2] eqn:Em;
    [discriminate|].
  assert (Hvw : visible (w :: wd) = w :: wd).
  { apply filter_all. eapply Forall_impl; [exact Hs|].
    intros c Hc. now apply word_char_not_space. }
  injection H as <- <-. repeat split.
  - rewrite Es at 1. rewrite visible_app, V, Hvw. simpl. now rewrite <- !app_assoc.
  - constructor; [|exact F]. unfold is_word_token.
    apply forallb_forall. intros c Hc%list_elem_of_In.
    rewrite Forall_forall in Hs. now apply Hs.
  - apply (f_equal (@length N)) in Es. rewrite length_app in Es. simpl in *. lia.
Qed.

Lemma sub_word_runs_visible rt lexicon fuel s :
  visible (sub_word_runs rt fuel lexicon s) = visible s.
Proof.
  revert s. induction fuel as [|fuel IH]; intros s; simpl; [reflexivity|].
  destruct s as [|c rest]; [reflexivity|].
  destruct (match_word_run (c :: rest)) as [[ws after]|] eqn:E.
  - destruct (match_word_run_spec _ _ _ E) as (V & F & _).
    rewrite visible_app, IH, V. f_equal.
    unfold visible. rewrite merged_words_concat by (unfold SP; intros Hc; discriminate).
    now apply word_tokens_visible.
  - change (c :: sub_word_runs rt fuel lexicon rest)
      with ([c] ++ sub_word_runs rt fuel lexicon rest).
    change (c :: rest) with ([c] ++ rest). now rewrite !visible_app, IH.
Qed.

(** Fuel: with at least as many turns as characters, the scanner reaches
    the end of the text. *)
Lemma sub_word_runs_fuel rt lexicon fuel fuel' s :
  length s <= fuel -> length s <= fuel' ->
  sub_word_runs rt fuel lexicon s = sub_word_runs rt fuel' lexicon s.
Proof.
  revert fuel' s. induction fuel as [|fuel IH]; intros [|fuel'] [|c rest] H1 H2; simpl in *;
    try reflexivity; try lia.
  destruct (match_word_run (c :: rest)) as [[ws after]|] eqn:E.
  - destruct (match_word_run_spec _ _ _ E) as (_ & _ & L). simpl in L.
    f_equal. apply IH; lia.
  - f_equal. apply IH; lia.
Qed.

(** C8.  The string [fallback_merge_words] returns, with its spaces
    removed, is the concatenation of the word tokens it was given; and the
    fallback path [fallback_clean_text] keeps the characters of the text
    that are not whitespace, in their order. *)
Theorem fallback_keeps_characters (rt : Runtime)
    (lexicon : gmap (list N) Z) :
  (forall (words : list (list N)) (max_group : nat),
      Forall (fun w => is_word_token w = true) words ->
      remove_spaces (fallback_merge_words rt words lexicon max_group)
      = concat words)
  /\ (forall text : list N,
        visible (fallback_clean_text rt text lexicon) = visible text).
Proof.
  split.
  - intros words max_group Hw. unfold remove_spaces.
    rewrite merged_words_concat by (intros Hc; now apply Hc).
    now apply word_tokens_no_space.
  - intros text. apply sub_word_runs_visible.
Qed.

Lemma fallback_keeps_characters_witness :
  remove_spaces (fallback_merge_words example_runtime [py "di"; py "ri"; py "nya"]
                   {[py "dirinya" := 50%Z]} 5)
  = py "dirinya".
Proof.
  destruct (fallback_keeps_characters example_runtime {[py "dirinya" := 50%Z]}) as [Hmerge _].
  apply (Hmerge [py "di"; py "ri"; py "nya"] 5).
  repeat constructor.
Defined.

(** The plan [fallback_merge_words] follows. *)
Definition chosen_plan (rt : Runtime) (lexicon : gmap (list N) Z)
    (words : list (list N)) (max_group : nat) : list nat :=
  read_plan words (length words)
    (snd (best_table rt words lexicon max_group)) 0.

Lemma merged_words_plan rt lexicon words max_group :
  fallback_merge_words rt words lexicon max_group
  = join_space (map (@concat N)
      (groups_of words 0 (chosen_plan rt lexicon words max_group))).
Proof.
  unfold fallback_merge_words, chosen_plan.
  destruct (Nat.leb_spec (length words) 1) as [Hn|Hn].
  - assert (Hc : covers_from words 0
             (read_plan words (length words)
                (snd (best_table rt words lexicon max_group)) 0)).
    { apply read_plan_covers; [|lia|lia]. intros i Hi.
      destruct (best_table_shape rt lexicon words max_group)
        as (_ & _ & _ & D).
      destruct (D i) as (k & Hk & Hr & _); [lia|]. eauto. }
    destruct Hc as [F S]. simpl in S.
    destruct (read_plan _ _ _ _) as [|k plan].
    + simpl in S. destruct words; [reflexivity | simpl in *; lia].
    + apply Forall_cons in F as [Hk F]. simpl in S.
      destruct plan as [|k' plan].
      * destruct words as [|w [|w' ws]]; simpl in *; try lia.
        replace k with 1 by lia. unfold slice. simpl. now rewrite app_nil_r.
      * apply Forall_cons in F as [Hk' _]. simpl in S. lia.
  - now rewrite read_groups_plan.
Qed.


(** ** The groups of the plan *)

Lemma read_plan_groups (words : list (list N)) (Q : list (list N) -> Prop) fuel best_len i :
  (forall i', i' < length words ->
     exists k, best_len !! i' = Some k /\ Q (slice words i' (i' + k))) ->
  Forall Q (groups_of words i (read_plan words fuel best_len i)).
Proof.
  intros Hlen. revert i. induction fuel as [|fuel IH]; intros i; cbn [read_plan].
  - constructor.
  - destruct (Nat.ltb_spec i (length words)) as [Hlt|Hge]; [|constructor].
    destruct (Hlen i Hlt) as (k & -> & Hk). cbn [default groups_of].
    constructor; [exact Hk|apply IH].
Qed.

(** A group of the plan is a single word, or a group of at most [max_group]
    words that the merger considered: its score is not under the
    threshold. *)
Lemma plan_groups_considered (rt : Runtime) (lexicon : gmap (list N) Z)
    (words : list (list N)) (max_group : nat) :
  Forall (fun group =>
            length group = 1 \/
            (length group <= max_group /\
             PrimFloat.leb (fallback_group_score rt group lexicon) REJECT_BELOW = false))
         (groups_of words 0 (chosen_plan rt lexicon words max_group)).
Proof.
  unfold chosen_plan. apply read_plan_groups. intros i Hi.
  destruct (best_table_shape rt lexicon words max_group) as (_ & _ & _ & D).
  destruct (D i) as (k & Hk & Hrange & Hcase); [lia|].
  exists k. split; [exact Hk|].
  assert (Hlen : length (slice words i (i + k)) = k).
  { unfold slice. rewrite length_take, length_drop. lia. }
  rewrite Hlen. destruct Hcase as [->|[Hmax Ha]]; [now left|].
  right. split; [exact Hmax|exact Ha].
Qed.

(** ** The never-merge pairs *)

(** C2, as the code has it.  Take two tokens whose first, lowered, is a
    never-merge word.  When the lowered concatenation of the two has count 0
    in the lexicon, [fallback_group_score] returns the rejection score, the
    inner loop of the merger passes over the pair, and the pair is never a
    group of the plan [fallback_merge_words] follows.  When the
    concatenation has a count, the never-merge test does not apply: the pair
    is scored by the rule for any group of several tokens. *)
Theorem never_merge_pair_rejected (rt : Runtime) (lexicon : gmap (list N) Z)
    (first second : list N) :
  str_in (lower first) DO_NOT_JOIN_TWO = true ->
  (lexicon_get lexicon (lower (first ++ second)) = 0%Z ->
     fallback_group_score rt [first; second] lexicon = REJECTED /\
     (forall words i st,
        slice words i (i + 2) = [first; second] ->
        try_group rt words lexicon i st 2 = st) /\
     (forall words max_group,
        [first; second] ∉ groups_of words 0 (chosen_plan rt lexicon words max_group)))
  /\
  (lexicon_get lexicon (lower (first ++ second)) <> 0%Z ->
     fallback_group_score rt [first; second] lexicon
     = merged_group_score rt [first; second] lexicon).
Proof.
  intros Hin. split.
  - intros Hzero.
    assert (Hscore : fallback_group_score rt [first; second] lexicon = REJECTED).
    { unfold fallback_group_score. cbn [hd length Nat.eqb concat].
      rewrite app_nil_r, Hin, Hzero. reflexivity. }
    split; [exact Hscore|]. split.
    + intros words i st Hslice. unfold try_group. rewrite Hslice, Hscore. reflexivity.
    + intros words max_group Hgroup.
      pose proof (plan_groups_considered rt lexicon words max_group) as Hall.
      rewrite Forall_forall in Hall. specialize (Hall _ Hgroup) as [Hone|[_ Hconsidered]].
      * discriminate.
      * rewrite Hscore in Hconsidered. discriminate.
  - intros Hcount. unfold fallback_group_score. cbn [hd length Nat.eqb concat].
    rewrite app_nil_r, Hin.
    destruct (Z.eqb_spec (lexicon_get lexicon (lower (first ++ second))) 0) as [Heq|_];
      [contradiction|reflexivity].
Qed.

Lemma never_merge_pair_rejected_witness :
  fallback_group_score example_runtime [py "di"; py "ri"] ∅ = REJECTED.
Proof.
  destruct (never_merge_pair_rejected example_runtime ∅ (py "di") (py "ri")) as [Hzero _].
  - vm_compute. reflexivity.
  - apply Hzero. reflexivity.
Defined.

(** C2, as the specification has it, fails: with the merged form in the
    lexicon the pair ["di"; "ri"] is not rejected, and the merger joins
    it. *)
Lemma never_merge_pair_counterexample :
  let lexicon : gmap (list N) Z := {[py "diri" := 50%Z]} in
  str_in (lower (py "di")) DO_NOT_JOIN_TWO = true /\
  PrimFloat.ltb REJECTED (fallback_group_score example_runtime [py "di"; py "ri"] lexicon)
    = true /\
  fallback_merge_words example_runtime [py "di"; py "ri"] lexicon 5 = py "diri".
Proof. vm_compute. repeat split; reflexivity. Qed.

Local Open Scope nat_scope.

(** ** A long run on which the table saturates *)

(** The total of a plan: the scores of its groups, added from left to
    right. *)
Definition plan_total (rt : Runtime) (lexicon : gmap (list N) Z) (words : list (list N))
    (plan : list nat) : float :=
  fold_left PrimFloat.add
    (map (fun group => fallback_group_score rt group lexicon) (groups_of words 0 plan))
    0%float.

(** C3.  [best_score] starts at the finite value -10000 where the
    specification has minus infinity.  One word "a" followed by 1668 words
    "x", with a lexicon that knows "a" (99 times) and "ax" (once): every
    "x" scores -6, so the rows of the last 1667 words and more never rise
    above their initial value, and the first row compares two totals that
    are both wrong.  The merger keeps "a" alone, although joining "a x" is
    allowed by the scorer and gives a greater total. *)
Lemma merger_not_optimal_counterexample :
  let words := py "a" :: replicate 1668 (py "x") in
  let lexicon : gmap (list N) Z := <[py "a" := 99%Z]> {[py "ax" := 1%Z]} in
  fallback_merge_words example_runtime words lexicon 5 = join_space words /\
  PrimFloat.leb (fallback_group_score example_runtime [py "a"; py "x"] lexicon) REJECT_BELOW
    = false /\
  PrimFloat.ltb (plan_total example_runtime lexicon words (replicate 1669 1))
                (plan_total example_runtime lexicon words (2 :: replicate 1667 1)) = true.
Proof. vm_compute. repeat split; reflexivity. Qed.

Local Open Scope nat_scope.

(** ** The engine: calls of the tail trimmer, and the rows it hands on *)

(** The calls of the tail trimmer in a trace, with their arguments. *)
Definition trim_calls (tr : list event) : list (list N * list N) :=
  omap (fun e => match e with EvTrim t reference => Some (t, reference) | EvRatio _ => None end) tr.

(** The settings [parse_args] gives when no option is passed. *)
Definition default_args : Args := Build_Args (82 # 100) (82 # 100) 6.

(** A row with the seven fields of the schema. *)
Definition make_row (book_name chapter verse text pericope : string) : row :=
  <[py "book_name" := Some (py book_name)]>
    (<[py "grouping" := Some (py "old")]>
       (<[py "order_index" := Some (py "1")]>
          (<[py "chapter" := Some (py chapter)]>
             (<[py "verse" := Some (py verse)]>
                (<[py "text" := Some (py text)]>
                   (<[py "pericope" := Some (py pericope)]> ∅)))))).

Lemma trace_bind {A B} (m : traced A) (k : A -> traced B) :
  trace (bind m k) = trace m ++ trace (k (value m)).
Proof. reflexivity. Qed.

Lemma value_bind {A B} (m : traced A) (k : A -> traced B) :
  value (bind m k) = value (k (value m)).
Proof. reflexivity. Qed.

Lemma trim_calls_app tr1 tr2 : trim_calls (tr1 ++ tr2) = trim_calls tr1 ++ trim_calls tr2.
Proof. apply omap_app. Qed.

Lemma trim_calls_bind {A B} (m : traced A) (k : A -> traced B) :
  trim_calls (trace (bind m k)) = trim_calls (trace m) ++ trim_calls (trace (k (value m))).
Proof. rewrite trace_bind. apply trim_calls_app. Qed.

Lemma for_traced_no_trim {A S} (body : S -> A -> traced S) (xs : list A) (st : S) :
  (forall st x, trim_calls (trace (body st x)) = []) ->
  trim_calls (trace (for_traced xs body st)) = [].
Proof.
  intros Hbody. revert st.
  induction xs as [|x xs IH]; intros st; cbn [for_traced]; [reflexivity|].
  rewrite trim_calls_bind, Hbody, IH. reflexivity.
Qed.

Lemma neighbor_step_no_trim tb2_norm ref_rows verse st candidate_verse :
  trim_calls (trace (neighbor_step tb2_norm ref_rows verse st candidate_verse)) = [].
Proof.
  unfold neighbor_step.
  destruct (candidate_verse =? verse)%Z; [reflexivity|].
  destruct (ref_rows !! candidate_verse) as [candidate|]; [|reflexivity].
  rewrite trim_calls_bind. simpl.
  destruct (Qlt_bool _ _); reflexivity.
Qed.

(** The reference selector never calls the trimmer. *)
Lemma choose_reference_no_trim tb2_norm ref_rows verse d n w :
  trim_calls (trace (choose_reference tb2_norm ref_rows verse d n w)) = [].
Proof.
  unfold choose_reference.
  rewrite trim_calls_bind.
  assert (Hfirst : trim_calls (trace (match ref_rows !! verse with
                                      | Some r => ratio_against tb2_norm verse r
                                      | None => ret 0%Q
                                      end)) = []).
  { destruct (ref_rows !! verse); reflexivity. }
  rewrite Hfirst. simpl.
  destruct (Qle_bool d _ && bool_decide _); [reflexivity|].
  rewrite trim_calls_bind.
  rewrite for_traced_no_trim by (intros; apply neighbor_step_no_trim).
  simpl.
  destruct (value (for_traced _ _ _)) as [[best_ref best_mode] best_ratio].
  destruct best_ref; [|reflexivity].
  destruct best_mode; try reflexivity.
  destruct (Qle_bool n best_ratio); reflexivity.
Qed.

Section EngineFacts.

Variable rt : Runtime.
Variable args : Args.
Variable index : tb1_index.
Variable lexicon : gmap (list N) Z.
Variable hyphen_lookup : gmap (list N) (list N).

Lemma align_no_trim r : trim_calls (trace (align rt args index r)) = [].
Proof.
  unfold align.
  destruct (parse_int _) as [verse_num|]; [|reflexivity].
  destruct (negb _); [|reflexivity].
  rewrite trim_calls_bind, choose_reference_no_trim. cbn [app].
  destruct (value (choose_reference _ _ _ _ _ _)) as [[ref mode] ratio].
  destruct ref; reflexivity.
Qed.

(** The fallback branch calls the trimmer once, and only for a fallback row
    under the neighbour threshold that has a reference at its own verse. *)
Lemma fallback_branch_trims r t p m c :
  trim_calls (trace (fallback_branch rt args index lexicon r (t, p, m, c))) =
  match m, direct_ref_of rt index r with
  | fallback, Some direct_ref =>
      if Qlt_bool c (min_neighbor_ratio args)
      then [(fallback_clean_text rt (normalize_spacing (field r "text")) lexicon,
             text direct_ref)]
      else []
  | _, _ => []
  end.
Proof.
  unfold fallback_branch.
  destruct m; try (destruct (direct_ref_of rt index r); reflexivity).
  destruct (Qlt_bool c (min_neighbor_ratio args)).
  - rewrite trim_calls_bind. destruct (direct_ref_of rt index r); reflexivity.
  - destruct (direct_ref_of rt index r); reflexivity.
Qed.

Lemma fallback_branch_low r t p m c :
  snd (value (fallback_branch rt args index lexicon r (t, p, m, c))) =
  match m with
  | fallback => Qlt_bool c (min_neighbor_ratio args)
  | _ => false
  end.
Proof.
  unfold fallback_branch.
  destruct m; try reflexivity.
  destruct (Qlt_bool c (min_neighbor_ratio args)); reflexivity.
Qed.

(** The final normalizations call the trimmer exactly when the row has a
    reference at its own verse. *)
Lemma finalize_text_trims r t :
  trim_calls (trace (finalize_text rt index hyphen_lookup r t)) =
  match direct_ref_of rt index r with
  | Some direct_ref => [(final_passes hyphen_lookup t, text direct_ref)]
  | None => []
  end.
Proof.
  unfold finalize_text. destruct (direct_ref_of rt index r); reflexivity.
Qed.

(** The row handed on is the row read with its two text fields replaced. *)
Lemma process_row_out r :
  let res := value (process_row rt args index lexicon hyphen_lookup r) in
  out res = <[py "pericope" := Some (aligned_pericope res)]>
              (<[py "text" := Some (aligned_text res)]> r).
Proof.
  unfold process_row. cbv zeta.
  rewrite value_bind.
  destruct (value (align rt args index r)) as [[[t p] m] c].
  rewrite value_bind.
  destruct (value (fallback_branch _ _ _ _ _ _)) as [[t' p'] low].
  rewrite value_bind. reflexivity.
Qed.

Lemma process_row_fields r :
  let res := value (process_row rt args index lexicon hyphen_lookup r) in
  row_method res = snd (fst (value (align rt args index r))) /\
  confidence res = snd (value (align rt args index r)).
Proof.
  unfold process_row. cbv zeta.
  rewrite value_bind.
  destruct (value (align rt args index r)) as [[[t p] m] c].
  rewrite value_bind.
  destruct (value (fallback_branch _ _ _ _ _ _)) as [[t' p'] low].
  rewrite value_bind. split; reflexivity.
Qed.

Lemma process_row_trims r :
  let res := process_row rt args index lexicon hyphen_lookup r in
  exists t,
    trim_calls (trace res) =
    match row_method (value res), direct_ref_of rt index r with
    | fallback, Some direct_ref =>
        if Qlt_bool (confidence (value res)) (min_neighbor_ratio args)
        then [(fallback_clean_text rt (normalize_spacing (field r "text")) lexicon,
               text direct_ref)]
        else []
    | _, _ => []
    end ++
    match direct_ref_of rt index r with
    | Some direct_ref => [(final_passes hyphen_lookup t, text direct_ref)]
    | None => []
    end.
Proof.
  cbv zeta.
  destruct (process_row_fields r) as [Hm Hc]. rewrite Hm, Hc. clear Hm Hc.
  unfold process_row.
  rewrite trim_calls_bind, align_no_trim. simpl app.
  destruct (value (align rt args index r)) as [[[t p] m] c] eqn:Ha.
  rewrite trim_calls_bind, fallback_branch_trims.
  destruct (value (fallback_branch _ _ _ _ _ _)) as [[t' p'] low].
  rewrite trim_calls_bind, finalize_text_trims.
  exists t'. simpl. rewrite app_nil_r. reflexivity.
Qed.

(** The loop appends one row per row read. *)
Lemma process_rows_from rows acc st :
  fst (value (for_traced rows (row_step rt args index lexicon hyphen_lookup)
                         (acc, st))) =
  acc ++ map (fun r => out (value (process_row rt args index lexicon hyphen_lookup r)))
             rows.
Proof.
  revert acc st.
  induction rows as [|r rows IH]; intros acc st; cbn [for_traced map].
  - unfold ret, value. cbn [fst]. now rewrite app_nil_r.
  - rewrite value_bind.
    assert (Hstep :
      value (row_step rt args index lexicon hyphen_lookup (acc, st) r) =
      (acc ++ [out (value (process_row rt args index lexicon hyphen_lookup r))],
       count_result st (value (process_row rt args index lexicon hyphen_lookup r))))
      by reflexivity.
    rewrite Hstep, IH. now rewrite <- app_assoc.
Qed.

Lemma process_rows_output rows :
  fst (value (process_rows rt args index lexicon hyphen_lookup rows)) =
  map (fun r => out (value (process_row rt args index lexicon hyphen_lookup r))) rows.
Proof. unfold process_rows. now rewrite process_rows_from. Qed.

End EngineFacts.

(** C1, as the code has it.  The tail trimmer is not reserved for
    low-confidence units: the final normalizations call it once for every
    unit that has a reference row at its own book, chapter and verse,
    whatever the method and the confidence, and the fallback branch calls
    it once more when the method is fallback and the confidence is under
    the neighbour threshold.  Every call compares with that reference row;
    a unit without one is never trimmed. *)
Theorem trim_calls_of_row (rt : Runtime) (args : Args)
    (index : tb1_index) (lexicon : gmap (list N) Z) (hyphen_lookup : gmap (list N) (list N))
    (r : row) :
  let res := process_row rt args index lexicon hyphen_lookup r in
  let calls := trim_calls (trace res) in
  match direct_ref_of rt index r with
  | None => calls = []
  | Some direct_ref =>
      Forall (fun call => snd call = text direct_ref) calls /\
      length calls =
        match row_method (value res) with
        | fallback =>
            if Qlt_bool (confidence (value res)) (min_neighbor_ratio args) then 2 else 1
        | _ => 1
        end
  end.
Proof.
  cbv zeta.
  destruct (process_row_trims rt args index lexicon hyphen_lookup r) as [t Ht].
  cbv zeta in Ht. rewrite Ht. clear Ht.
  destruct (direct_ref_of rt index r) as [direct_ref|].
  - destruct (row_method _).
    + destruct (Qlt_bool _ _); simpl; split; auto.
    + simpl; split; auto.
    + simpl; split; auto.
  - destruct (row_method _); reflexivity.
Qed.

(** C1 as stated fails: a unit cleaned in mode Same, with a ratio above the
    threshold, goes through the tail trimmer, which cuts its last
    sentence. *)
Lemma trim_in_same_mode_counterexample :
  let tb1_rows := [make_row "Kej" "1" "1" "abcdefghij klmnopqrst x" ""] in
  let r := make_row "Kej" "1" "1" "abcdefghij klmnopqrst. uvwxyzabc" "" in
  let res := process_row example_runtime default_args (index_tb1_rows example_runtime tb1_rows)
               (fst (build_tb1_lexicon tb1_rows)) (snd (build_tb1_lexicon tb1_rows)) r in
  row_method (value res) = alignment_same /\
  Qle_bool (min_neighbor_ratio default_args) (confidence (value res)) = true /\
  trim_calls (trace res) =
    [(py "abcdefghij klmnopqrst. uvwxyzabc", py "abcdefghij klmnopqrst x")] /\
  aligned_text (value res) = py "abcdefghij klmnopqrst.".
Proof. vm_compute. repeat split; reflexivity. Qed.

(** C10.  The rows handed to [write_rows] are one per row read, in the same
    order, and each agrees with the row it comes from on every field other
    than [text] and [pericope]. *)
Theorem output_rows_frame (rt : Runtime) (args : Args)
    (tb1_rows tb2_rows : list row) :
  let output_rows := fst (value (main rt args tb1_rows tb2_rows)) in
  length output_rows = length tb2_rows /\
  Forall2 (fun r o => forall name : list N,
             name <> py "text" -> name <> py "pericope" -> o !! name = r !! name)
          tb2_rows output_rows.
Proof.
  cbv zeta. unfold main.
  destruct (build_tb1_lexicon tb1_rows) as [lexicon hyphen_lookup].
  rewrite process_rows_output.
  split.
  - now rewrite length_map.
  - apply Forall2_fmap_r, Forall_Forall2_diag, Forall_forall.
    intros r _ name Htext Hpericope.
    rewrite process_row_out.
    rewrite lookup_insert_ne by congruence.
    rewrite lookup_insert_ne by congruence.
    reflexivity.
Qed.

Local Open Scope nat_scope.

(** ** Further properties of the tokenizer and of the letter stream *)

(** [split_tokens] cuts the text into pieces and loses nothing: the tokens
    joined give the text back, no token is empty, and a token is either all
    word characters (a word token) or holds none. *)
Theorem split_tokens_partition (text : list N) :
  concat (split_tokens text) = text /\
  Forall (fun token => token <> [] /\
                       forall c, c ∈ token -> is_word_char c = is_word_token token)
         (split_tokens text).
Proof.
  split.
  - apply concat_split_tokens.
  - exact (split_tokens_uniform text).
Qed.

(** The letter stream [build_stream] returns is [normalize_letters] of the
    text; the words it lists are the tokens at the word indexes, and the word
    indexes increase. *)
Theorem build_stream_letter_stream (text : list N) :
  stream (build_stream text) = normalize_letters text /\
  Forall2 (fun i w => tokens (build_stream text) !! i = Some w)
          (word_indexes (build_stream text)) (words (build_stream text)) /\
  StronglySorted lt (word_indexes (build_stream text)).
Proof.
  split; [|split].
  - apply stream_letters.
  - apply build_stream_words.
  - apply build_stream_sorted.
Qed.

(** ** Further properties of the reference selector *)

Lemma for_traced_invariant {A S} (Inv : S -> Prop) (body : S -> A -> traced S)
    (xs : list A) (st : S) :
  (forall st x, x ∈ xs -> Inv st -> Inv (value (body st x))) ->
  Inv st -> Inv (value (for_traced xs body st)).
Proof.
  revert st. induction xs as [|x xs IH]; intros st Hbody Hst; cbn [for_traced].
  - exact Hst.
  - rewrite value_bind. apply IH.
    + intros st' y Hy. apply Hbody. now right.
    + apply Hbody; [now left|exact Hst].
Qed.

(** What the neighbour loop of [choose_reference] keeps true of its three
    variables. *)
Definition selector_invariant (tb2_norm : list N) (ref_rows : gmap Z RowRef) (verse : Z)
    (w : Z) (st : best) : Prop :=
  match st with
  | (Some r, ModeNeighbor, ratio) =>
      exists v, v <> verse /\ (Z.max 1 (verse - w) <= v <= verse + w)%Z /\
                ref_rows !! v = Some r /\ ratio = sequence_ratio tb2_norm (normalized r)
  | (best_ref, ModeSame, _) => best_ref = ref_rows !! verse
  | _ => False
  end.

Lemma neighbor_step_invariant tb2_norm ref_rows verse w st v :
  (Z.max 1 (verse - w) <= v <= verse + w)%Z ->
  selector_invariant tb2_norm ref_rows verse w st ->
  selector_invariant tb2_norm ref_rows verse w
    (value (neighbor_step tb2_norm ref_rows verse st v)).
Proof.
  intros Hv Hst. unfold neighbor_step.
  destruct (v =? verse)%Z eqn:Hvv; [exact Hst|].
  destruct (ref_rows !! v) as [candidate|] eqn:Hcand; [|exact Hst].
  rewrite value_bind.
  change (value (ratio_against tb2_norm v candidate))
    with (sequence_ratio tb2_norm (normalized candidate)).
  destruct (Qlt_bool _ _); [|exact Hst].
  apply Z.eqb_neq in Hvv.
  exists v. repeat split; try lia; auto.
Qed.

Lemma choose_reference_backed (tb2_norm : list N) (ref_rows : gmap Z RowRef) (verse : Z)
    (min_direct min_neighbor : Q) (window : Z) :
  match value (choose_reference tb2_norm ref_rows verse min_direct min_neighbor window) with
  | (Some r, ModeSame, ratio) =>
      ref_rows !! verse = Some r /\
      ratio = sequence_ratio tb2_norm (normalized r) /\
      Qle_bool min_direct ratio = true
  | (Some r, ModeNeighbor, ratio) =>
      (exists v, v <> verse /\ (Z.max 1 (verse - window) <= v <= verse + window)%Z /\
                 ref_rows !! v = Some r /\ ratio = sequence_ratio tb2_norm (normalized r)) /\
      Qle_bool min_neighbor ratio = true
  | (Some _, ModeNone, _) => False
  | (None, mode, _) => mode = ModeNone
  end.
Proof.
  unfold choose_reference. rewrite value_bind.
  destruct (ref_rows !! verse) as [r|] eqn:Hdirect.
  - change (value (ratio_against tb2_norm verse r))
      with (sequence_ratio tb2_norm (normalized r)).
    destruct (Qle_bool min_direct _) eqn:Hle; cbn [andb].
    + rewrite bool_decide_true by eauto. cbn [value ret fst]. auto.
    + rewrite value_bind.
      set (loop := value (for_traced _ _ _)).
      assert (Hinv : selector_invariant tb2_norm ref_rows verse window loop).
      { apply for_traced_invariant.
        - intros st v Hv%elem_of_seqZ Hst.
          apply neighbor_step_invariant; [lia|exact Hst].
        - cbn. now rewrite Hdirect. }
      destruct loop as [[best_ref best_mode] best_ratio].
      destruct best_ref as [b|], best_mode; cbn in Hinv |- *; try contradiction; auto.
      destruct (Qle_bool min_neighbor best_ratio) eqn:Hn; cbn; auto.
  - cbn [value ret fst]. rewrite andb_false_r. rewrite value_bind.
    set (loop := value (for_traced _ _ _)).
    assert (Hinv : selector_invariant tb2_norm ref_rows verse window loop).
    { apply for_traced_invariant.
      - intros st v Hv%elem_of_seqZ Hst.
        apply neighbor_step_invariant; [lia|exact Hst].
      - cbn. now rewrite Hdirect. }
    destruct loop as [[best_ref best_mode] best_ratio].
    destruct best_ref as [b|], best_mode; cbn in Hinv |- *; try contradiction; auto.
    destruct (Qle_bool min_neighbor best_ratio) eqn:Hn; cbn; auto.
Qed.

(** Whatever [choose_reference] returns is backed by the rows it was given.
    In mode Same the unit is the row at the verse itself and its ratio
    reaches [min_direct_ratio]; in mode Neighbor the unit is a row of another
    verse inside the window (never below verse 1), the confidence is its
    ratio and reaches [min_neighbor_ratio]; otherwise no unit is returned and
    the mode is None. *)
Theorem choose_reference_sound (tb2_norm : list N) (ref_rows : gmap Z RowRef) (verse : Z)
    (min_direct min_neighbor : Q) (window : Z) :
  match value (choose_reference tb2_norm ref_rows verse min_direct min_neighbor window) with
  | (Some r, ModeSame, ratio) =>
      ref_rows !! verse = Some r /\
      ratio = sequence_ratio tb2_norm (normalized r) /\
      Qle_bool min_direct ratio = true
  | (Some r, ModeNeighbor, ratio) =>
      (exists v, v <> verse /\ (Z.max 1 (verse - window) <= v <= verse + window)%Z /\
                 ref_rows !! v = Some r /\ ratio = sequence_ratio tb2_norm (normalized r)) /\
      Qle_bool min_neighbor ratio = true
  | (Some _, ModeNone, _) => False
  | (None, mode, _) => mode = ModeNone
  end.
Proof. apply choose_reference_backed. Qed.

Lemma for_traced_trace {A S} (P : event -> Prop) (body : S -> A -> traced S)
    (xs : list A) (st : S) :
  (forall st x, x ∈ xs -> Forall P (trace (body st x))) ->
  Forall P (trace (for_traced xs body st)).
Proof.
  revert st. induction xs as [|x xs IH]; intros st Hbody; cbn [for_traced].
  - constructor.
  - rewrite trace_bind. apply Forall_app. split.
    + apply Hbody. now left.
    + apply IH. intros st' y Hy. apply Hbody. now right.
Qed.

(** The only ratios [choose_reference] computes are against rows it was
    given, at the verse itself or at a verse of the window, which never
    reaches below verse 1. *)
Theorem choose_reference_window (tb2_norm : list N) (ref_rows : gmap Z RowRef) (verse : Z)
    (min_direct min_neighbor : Q) (window : Z) :
  Forall (fun e => match e with
                   | EvRatio v =>
                       is_Some (ref_rows !! v) /\
                       (v = verse \/ (1 <= v /\ verse - window <= v <= verse + window)%Z)
                   | EvTrim _ _ => False
                   end)
         (trace (choose_reference tb2_norm ref_rows verse min_direct min_neighbor window)).
Proof.
  unfold choose_reference. rewrite trace_bind. apply Forall_app. split.
  - destruct (ref_rows !! verse) as [r|] eqn:Hdirect; cbn.
    + constructor; [|constructor]. split; [eauto|now left].
    + constructor.
  - destruct (_ && _); [constructor|].
    rewrite trace_bind. apply Forall_app. split.
    + apply for_traced_trace. intros st v Hv%elem_of_seqZ.
      unfold neighbor_step.
      destruct (v =? verse)%Z; [constructor|].
      destruct (ref_rows !! v) as [candidate|] eqn:Hcand; [|constructor].
      rewrite trace_bind. apply Forall_app. split.
      * cbn. constructor; [|constructor]. split; [eauto|right; lia].
      * destruct (Qlt_bool _ _); constructor.
    + destruct (value (for_traced _ _ _)) as [[best_ref best_mode] best_ratio].
      destruct best_ref; [|constructor].
      destruct best_mode; try constructor.
      destruct (Qle_bool _ _); constructor.
Qed.

(** ** Further properties of the tail trimmer *)

Lemma sentence_ends_marks idx letters source :
  Forall (fun it => idx < fst it /\
                    exists c, source !! (fst it - 1 - idx) = Some c /\ is_sentence_end c = true)
         (sentence_ends_from idx letters source).
Proof.
  revert idx letters.
  induction source as [|c source IH]; intros idx letters; cbn [sentence_ends_from].
  - constructor.
  - assert (Hrest : forall l,
      Forall (fun it => idx < fst it /\
                        exists d, (c :: source) !! (fst it - 1 - idx) = Some d /\
                                  is_sentence_end d = true)
             (sentence_ends_from (S idx) l source)).
    { intros l. eapply Forall_impl; [apply IH|].
      intros it [Hlt (d & Hd & Hend)]. split; [lia|].
      exists d. split; [|exact Hend].
      replace (fst it - 1 - idx) with (S (fst it - 1 - S idx)) by lia. exact Hd. }
    destruct (is_sentence_end c) eqn:Hc.
    + constructor; [|apply Hrest].
      cbn [fst]. split; [lia|]. exists c.
      replace (idx + 1 - 1 - idx) with 0 by lia. split; [reflexivity|exact Hc].
    + apply Hrest.
Qed.

Lemma min_by_elem {A} (key : A -> Z) (first : A) (rest : list A) :
  min_by key first rest ∈ first :: rest.
Proof.
  revert first. induction rest as [|x rest IH]; intros first; cbn [min_by].
  - now left.
  - destruct (key x <? key first)%Z.
    + right. apply IH.
    + specialize (IH first). apply elem_of_cons in IH as [->|IH]; [now left|].
      right. now right.
Qed.

(** [trim_low_confidence_tail] only ever cuts: its result is the stripped
    text, or the stripped text cut just after one of its sentence-ending
    marks and stripped again.  The result is empty only for a blank text. *)
Theorem trim_cuts_at_sentence_end (text reference_text : list N) (max_ratio : Q) :
  let source := strip text in
  let result := trim_low_confidence_tail text reference_text max_ratio in
  (result = source \/
   exists k c, source !! k = Some c /\ is_sentence_end c = true /\
               result = strip (take (k + 1) source)) /\
  (result = [] <-> source = []).
Proof.
  cbv zeta. unfold trim_low_confidence_tail.
  destruct (strip text) as [|s0 source'] eqn:Hsource; [split; [now left|tauto]|].
  set (source := s0 :: source') in *.
  destruct (normalize_letters source) as [|a an]; [split; [now left|tauto]|].
  destruct (normalize_letters reference_text) as [|b bn]; [split; [now left|tauto]|].
  destruct (_ <=? _)%Z; [split; [now left|tauto]|].
  pose proof (sentence_ends_marks 0 0 source) as Hmarks.
  destruct (sentence_ends_from 0 0 source) as [|e ends]; [split; [now left|tauto]|].
  set (all_ends := e :: ends) in *.
  match goal with |- context [List.filter ?f all_ends] => set (keep := f) end.
  destruct (List.filter keep all_ends) as [|first others] eqn:Hkept;
    [split; [now left|tauto]|].
  match goal with |- context [min_by ?key first others] =>
    pose proof (min_by_elem key first others) as Hbest;
    set (chosen := min_by key first others) in * end.
  rewrite <- Hkept in Hbest.
  apply list_elem_of_In, filter_In in Hbest as [Hbest _].
  apply list_elem_of_In in Hbest.
  rewrite Forall_forall in Hmarks. specialize (Hmarks _ Hbest) as [Hpos (c & Hc & Hend)].
  rewrite Nat.sub_0_r in Hc.
  destruct (strip (take (fst chosen) source)) as [|t0 trimmed] eqn:Htrim.
  - split; [now left|tauto].
  - split; [|split; discriminate].
    right. exists (fst chosen - 1), c. split; [exact Hc|]. split; [exact Hend|].
    replace (fst chosen - 1 + 1) with (fst chosen) by lia. now rewrite Htrim.
Qed.

(** ** Further properties of the engine *)

Section EngineOutput.

Variable rt : Runtime.
Variable args : Args.
Variable index : tb1_index.
Variable lexicon : gmap (list N) Z.
Variable hyphen_lookup : gmap (list N) (list N).

Lemma final_passes_normalized t :
  normalize_punctuation_spacing (final_passes hyphen_lookup t) = final_passes hyphen_lookup t.
Proof. unfold final_passes. apply normalize_punctuation_spacing_idempotent. Qed.

Lemma finalize_text_normalized r t :
  normalize_punctuation_spacing (value (finalize_text rt index hyphen_lookup r t))
  = value (finalize_text rt index hyphen_lookup r t).
Proof.
  unfold finalize_text. destruct (direct_ref_of rt index r) as [direct_ref|].
  - rewrite value_bind. cbn [value ret fst].
    apply normalize_punctuation_spacing_idempotent.
  - cbn [value ret fst]. apply final_passes_normalized.
Qed.

Lemma process_row_texts r :
  let res := value (process_row rt args index lexicon hyphen_lookup r) in
  let st := value (fallback_branch rt args index lexicon r
                     (value (align rt args index r))) in
  aligned_text res = value (finalize_text rt index hyphen_lookup r (fst (fst st))) /\
  aligned_pericope res =
    (if nonempty (snd (fst st)) then final_passes hyphen_lookup (snd (fst st))
     else snd (fst st)) /\
  low_confidence res = snd st.
Proof.
  unfold process_row. cbv zeta.
  rewrite value_bind.
  destruct (value (align rt args index r)) as [[[t p] m] c].
  rewrite value_bind.
  destruct (value (fallback_branch _ _ _ _ _ _)) as [[t' p'] low].
  rewrite value_bind. repeat split; reflexivity.
Qed.

End EngineOutput.

(** Whatever path a row takes through the engine, the text and the pericope
    it leaves with are fixed points of [normalize_punctuation_spacing]:
    normalizing the output again changes nothing. *)
Theorem engine_output_normalized (rt : Runtime) (args : Args)
    (index : tb1_index) (lexicon : gmap (list N) Z) (hyphen_lookup : gmap (list N) (list N))
    (r : row) :
  let res := value (process_row rt args index lexicon hyphen_lookup r) in
  normalize_punctuation_spacing (aligned_text res) = aligned_text res /\
  normalize_punctuation_spacing (aligned_pericope res) = aligned_pericope res.
Proof.
  cbv zeta.
  destruct (process_row_texts rt args index lexicon hyphen_lookup r)
    as (Ht & Hp & _).
  cbv zeta in Ht, Hp. rewrite Ht, Hp. split.
  - apply finalize_text_normalized.
  - destruct (snd (fst _)) as [|c p]; cbn [nonempty].
    + reflexivity.
    + apply final_passes_normalized.
Qed.

Section Counters.

Variable rt : Runtime.
Variable args : Args.
Variable index : tb1_index.
Variable lexicon : gmap (list N) Z.
Variable hyphen_lookup : gmap (list N) (list N).

(** A row is counted as low-confidence only on the fallback path. *)
Lemma low_confidence_fallback r :
  let res := value (process_row rt args index lexicon hyphen_lookup r) in
  low_confidence res = true -> row_method res = fallback.
Proof.
  cbv zeta.
  destruct (process_row_texts rt args index lexicon hyphen_lookup r)
    as (_ & _ & Hlow).
  destruct (process_row_fields rt args index lexicon hyphen_lookup r)
    as (Hm & _).
  cbv zeta in Hlow, Hm. rewrite Hlow, Hm. clear Hlow Hm.
  destruct (value (align rt args index r)) as [[[t p] m] c].
  rewrite fallback_branch_low. cbn [fst snd].
  destruct m; [reflexivity|discriminate|discriminate].
Qed.

Definition counters_invariant (st : list row * Stats) : Prop :=
  rows_total (snd st) = length (fst st) /\
  rows_alignment_same_verse (snd st) + rows_alignment_neighbor (snd st)
    + rows_fallback (snd st) = rows_total (snd st) /\
  low_confidence_rows (snd st) <= rows_fallback (snd st) /\
  rows_changed (snd st) <= rows_total (snd st).

Lemma row_step_counters st r :
  counters_invariant st ->
  counters_invariant (value (row_step rt args index lexicon hyphen_lookup st r)).
Proof.
  intros (Htotal & Hsum & Hlow & Hchanged).
  pose proof (low_confidence_fallback r) as Hfb. cbv zeta in Hfb.
  change (value (row_step rt args index lexicon hyphen_lookup st r))
    with (fst st ++ [out (value (process_row rt args index lexicon hyphen_lookup r))],
          count_result (snd st)
            (value (process_row rt args index lexicon hyphen_lookup r))).
  set (res := value (process_row rt args index lexicon hyphen_lookup r)) in *.
  unfold counters_invariant, count_result. cbn [fst snd rows_total rows_changed
    rows_alignment_same_verse rows_alignment_neighbor rows_fallback low_confidence_rows].
  rewrite length_app. cbn [length].
  repeat split.
  - lia.
  - destruct (row_method res); lia.
  - destruct (low_confidence res).
    + rewrite Hfb by reflexivity. lia.
    + destruct (row_method res); lia.
  - destruct (_ || _); lia.
Qed.

Lemma process_rows_counters rows :
  counters_invariant
    (value (process_rows rt args index lexicon hyphen_lookup rows)).
Proof.
  unfold process_rows. apply for_traced_invariant.
  - intros st r _. apply row_step_counters.
  - repeat split; cbn; lia.
Qed.

End Counters.

(** The counters of the summary add up: every row read is counted once,
    under exactly one of the three methods; a row is counted as
    low-confidence only if it went through the fallback; and no more rows
    are counted as changed than were read. *)
Theorem stats_account (rt : Runtime) (args : Args)
    (tb1_rows tb2_rows : list row) :
  let stats := snd (value (main rt args tb1_rows tb2_rows)) in
  rows_total stats = length tb2_rows /\
  rows_alignment_same_verse stats + rows_alignment_neighbor stats + rows_fallback stats
    = rows_total stats /\
  low_confidence_rows stats <= rows_fallback stats /\
  rows_changed stats <= rows_total stats.
Proof.
  cbv zeta. unfold main.
  destruct (build_tb1_lexicon tb1_rows) as [lexicon hyphen_lookup].
  destruct (process_rows_counters rt args (index_tb1_rows rt tb1_rows)
              lexicon hyphen_lookup tb2_rows) as (Htotal & Hsum & Hlow & Hchanged).
  rewrite process_rows_output, length_map in Htotal.
  auto.
Qed.

(** ** The reference index *)

Lemma fold_left_invariant {A B} (P : A -> Prop) (f : A -> B -> A) (xs : list B) (x : A) :
  (forall x y, y ∈ xs -> P x -> P (f x y)) -> P x -> P (fold_left f xs x).
Proof.
  revert x. induction xs as [|y xs IH]; intros x Hf Hx; cbn [fold_left].
  - exact Hx.
  - apply IH.
    + intros x' y' Hy'. apply Hf. now right.
    + apply Hf; [now left|exact Hx].
Qed.

Section Index.

Variable rt : Runtime.

(** What holds of every unit stored in the index built from [rows]. *)
Definition index_entry_ok (rows : list row) (book chapter : list N) (v : Z) (ref : RowRef)
    : Prop :=
  book <> [] /\ chapter <> [] /\
  verse ref = v /\ normalized ref = normalize_letters (text ref) /\
  exists r, r ∈ rows /\
            strip (field r "book_name") = book /\
            strip (field r "chapter") = chapter /\
            parse_int rt (strip (field r "verse")) = Some v /\
            text ref = normalize_spacing (field r "text").

Definition index_ok (rows : list row) (index : tb1_index) : Prop :=
  forall book chapter chapter_index v ref,
    index !! (book, chapter) = Some chapter_index ->
    chapter_index !! v = Some ref ->
    index_entry_ok rows book chapter v ref.

Lemma index_row_ok rows index r :
  r ∈ rows -> index_ok rows index -> index_ok rows (index_row rt index r).
Proof.
  intros Hr Hindex. unfold index_row.
  destruct (strip (field r "book_name")) as [|b0 book'] eqn:Hbook; [exact Hindex|].
  destruct (strip (field r "chapter")) as [|c0 chapter'] eqn:Hchapter; [exact Hindex|].
  destruct (strip (field r "verse")) as [|v0 verse'] eqn:Hverse; [exact Hindex|].
  destruct (parse_int rt (v0 :: verse')) as [verse_num|] eqn:Hparse; [|exact Hindex].
  intros book chapter chapter_index v ref Hlookup Hentry.
  destruct (decide ((b0 :: book', c0 :: chapter') = (book, chapter))) as [Hkey|Hkey].
  - rewrite Hkey, lookup_insert_eq in Hlookup.
    injection Hlookup as <-. injection Hkey as <- <-.
    destruct (decide (verse_num = v)) as [->|Hv].
    + rewrite lookup_insert_eq in Hentry. injection Hentry as <-.
      cbn [verse text normalized].
      repeat split; try discriminate.
      exists r. rewrite Hbook, Hchapter, Hverse. auto.
    + rewrite lookup_insert_ne in Hentry by exact Hv.
      destruct (index !! (b0 :: book', c0 :: chapter')) as [old|] eqn:Hold.
      * exact (Hindex _ _ _ _ _ Hold Hentry).
      * cbn in Hentry. rewrite lookup_empty in Hentry. discriminate.
  - rewrite lookup_insert_ne in Hlookup by exact Hkey.
    exact (Hindex _ _ _ _ _ Hlookup Hentry).
Qed.

End Index.

(** Every unit of the index built by [index_tb1_rows] comes from a row with
    that book, chapter and verse: it is stored under its own verse number,
    book and chapter are not empty, its text is the row's text after
    [normalize_spacing] and its normalized form is [normalize_letters] of
    that text. *)
Theorem index_entries_from_rows (rt : Runtime) (tb1_rows : list row) (book chapter : list N)
    (chapter_index : gmap Z RowRef) (v : Z) (ref : RowRef) :
  index_tb1_rows rt tb1_rows !! (book, chapter) = Some chapter_index ->
  chapter_index !! v = Some ref ->
  book <> [] /\ chapter <> [] /\
  verse ref = v /\ normalized ref = normalize_letters (text ref) /\
  exists r, r ∈ tb1_rows /\
            strip (field r "book_name") = book /\
            strip (field r "chapter") = chapter /\
            parse_int rt (strip (field r "verse")) = Some v /\
            text ref = normalize_spacing (field r "text").
Proof.
  intros Hlookup Hentry.
  assert (Hok : index_ok rt tb1_rows (index_tb1_rows rt tb1_rows)).
  { unfold index_tb1_rows. apply fold_left_invariant.
    - intros index r Hr. now apply index_row_ok.
    - intros b c ci v' ref' Hl. rewrite lookup_empty in Hl. discriminate. }
  exact (Hok _ _ _ _ _ Hlookup Hentry).
Qed.

Lemma index_entries_from_rows_witness :
  let tb1_rows := [make_row " Kej " "1" "+1_0" "ab  cd" ""] in
  let ref := Build_RowRef 10 (py "ab cd") (py "abcd") in
  verse ref = 10%Z /\ normalized ref = normalize_letters (text ref).
Proof.
  intros tb1_rows ref.
  assert (Hlookup : index_tb1_rows example_runtime tb1_rows !! (py "Kej", py "1")
                    = Some (<[10%Z := ref]> ∅)) by (vm_compute; reflexivity).
  assert (Hentry : (<[10%Z := ref]> (∅ : gmap Z RowRef)) !! 10%Z = Some ref)
    by (vm_compute; reflexivity).
  destruct (index_entries_from_rows example_runtime tb1_rows (py "Kej") (py "1") _ 10%Z ref Hlookup Hentry)
    as (_ & _ & Hverse & Hnorm & _).
  split; [exact Hverse|exact Hnorm].
Defined.

(** ** The hyphen forms restored from the reference corpus *)

(** What [build_tb1_lexicon] asks of a token before it counts it as a hyphen
    form. *)
Definition hyphen_form_ok (token : list N) : Prop :=
  fullmatch VALID_HYPHEN_WORD_RE token = true /\
  existsb (fun part => str_in part SUFFIX_TOKENS) (tail (split_on HYPHEN token)) = false /\
  existsb (fun part => length part <? 3) (split_on HYPHEN token) = false.

Lemma incr_ordered_keys (P : list N -> Prop) key counter :
  P key -> Forall (fun item => P (fst item)) counter ->
  Forall (fun item => P (fst item)) (incr_ordered key counter).
Proof.
  intros Hkey. induction counter as [|[k v] counter IH]; intros Hall; cbn [incr_ordered].
  - repeat constructor. exact Hkey.
  - inversion Hall as [|? ? Hk Hrest]; subst.
    destruct (bool_decide (k = key)); constructor; auto.
Qed.

Lemma count_token_forms st token :
  Forall (fun item => hyphen_form_ok (fst item)) (snd st) ->
  Forall (fun item => hyphen_form_ok (fst item)) (snd (count_token st token)).
Proof.
  destruct st as [word_counter hyphen_forms]. intros Hall. unfold count_token.
  destruct (fullmatch VALID_HYPHEN_WORD_RE (lower token)) eqn:Hvalid; [|exact Hall].
  destruct (existsb _ (tail _)) eqn:Hsuffix; [exact Hall|].
  destruct (existsb _ (split_on _ _)) eqn:Hshort; [exact Hall|].
  cbn [snd]. apply incr_ordered_keys; [|exact Hall].
  repeat split; assumption.
Qed.

Lemma count_row_forms st r :
  Forall (fun item => hyphen_form_ok (fst item)) (snd st) ->
  Forall (fun item => hyphen_form_ok (fst item)) (snd (count_row st r)).
Proof.
  intros Hall. unfold count_row.
  apply (fold_left_preserves
           (fun st => Forall (fun item => hyphen_form_ok (fst item)) (snd st))); [|exact Hall].
  intros st' name Hst'.
  apply (fold_left_preserves
           (fun st => Forall (fun item => hyphen_form_ok (fst item)) (snd st))); [|exact Hst'].
  intros st'' token. apply count_token_forms.
Qed.

Definition options_ok (entry : list N * list (list N * Z)) : Prop :=
  Forall (fun item => hyphen_form_ok (fst item) /\
                      replace_char HYPHEN [] (fst item) = fst entry) (snd entry).

Lemma append_option_ok joined item by_joined :
  hyphen_form_ok (fst item) -> replace_char HYPHEN [] (fst item) = joined ->
  Forall options_ok by_joined -> Forall options_ok (append_option joined item by_joined).
Proof.
  intros Hitem Hjoined.
  induction by_joined as [|[k options] by_joined IH]; intros Hall; cbn [append_option].
  - constructor; [|constructor].
    unfold options_ok. cbn [fst snd]. constructor; [|constructor]. now split.
  - inversion Hall as [|? ? Hk Hrest]; subst.
    destruct (bool_decide (k = replace_char HYPHEN [] (fst item))) eqn:Hdec.
    + apply bool_decide_eq_true in Hdec. constructor; [|exact Hrest].
      unfold options_ok in *. cbn [fst snd] in *. apply Forall_app. split; [exact Hk|].
      constructor; [|constructor]. split; [exact Hitem|]. now symmetry.
    + constructor; auto.
Qed.

Lemma insert_by_freq_elem x sorted y :
  y ∈ insert_by_freq x sorted -> y = x \/ y ∈ sorted.
Proof.
  induction sorted as [|z sorted IH]; cbn [insert_by_freq].
  - intros ->%list_elem_of_singleton. now left.
  - destruct (snd z <=? snd x)%Z.
    + intros [->|H]%elem_of_cons; [now left|now right].
    + intros [->|H]%elem_of_cons; [right; now left|].
      destruct (IH H) as [->|H']; [now left|right; now right].
Qed.

Lemma sort_by_freq_elem options y : y ∈ sort_by_freq options -> y ∈ options.
Proof.
  unfold sort_by_freq. induction options as [|x options IH]; cbn [foldr].
  - auto.
  - intros [->|H]%insert_by_freq_elem; [now left|right; auto].
Qed.

Lemma build_hyphen_lookup_ok hyphen_forms joined token :
  Forall (fun item => hyphen_form_ok (fst item)) hyphen_forms ->
  build_hyphen_lookup hyphen_forms !! joined = Some token ->
  hyphen_form_ok token /\ replace_char HYPHEN [] token = joined.
Proof.
  intros Hforms. unfold build_hyphen_lookup.
  set (by_joined := fold_left _ hyphen_forms []).
  assert (Hby : Forall options_ok by_joined).
  { subst by_joined.
    apply (fold_left_invariant (Forall options_ok)); [|constructor].
    intros acc item Hitem Hacc. apply append_option_ok; auto.
    rewrite Forall_forall in Hforms. now apply Hforms. }
  revert joined token.
  apply (fold_left_invariant
           (fun lookup : gmap (list N) (list N) => forall joined token,
              lookup !! joined = Some token ->
              hyphen_form_ok token /\ replace_char HYPHEN [] token = joined)).
  - intros lookup entry Hentry Hlookup joined token.
    destruct (sort_by_freq (snd entry)) as [|top others] eqn:Hsort; [apply Hlookup|].
    destruct (decide (fst entry = joined)) as [<-|Hne].
    + rewrite lookup_insert_eq. intros [= <-].
      rewrite Forall_forall in Hby. specialize (Hby _ Hentry).
      unfold options_ok in Hby. rewrite Forall_forall in Hby. apply Hby.
      apply sort_by_freq_elem. rewrite Hsort. now left.
    + rewrite lookup_insert_ne by exact Hne. apply Hlookup.
  - intros joined token Hl. rewrite lookup_empty in Hl. discriminate.
Qed.

(** Every hyphen form [build_tb1_lexicon] offers for restoration is a
    lowered hyphenated word of letters that gives back its key when the
    hyphens are removed; each of its parts has at least three letters and no
    part after the first is an enclitic. *)
Theorem hyphen_lookup_sound (tb1_rows : list row) (joined token : list N) :
  snd (build_tb1_lexicon tb1_rows) !! joined = Some token ->
  replace_char HYPHEN [] token = joined /\
  fullmatch VALID_HYPHEN_WORD_RE token = true /\
  Forall (fun part => 3 <= length part) (split_on HYPHEN token) /\
  Forall (fun part => part ∉ SUFFIX_TOKENS) (tail (split_on HYPHEN token)).
Proof.
  unfold build_tb1_lexicon.
  destruct (fold_left count_row tb1_rows (∅, [])) as [word_counter hyphen_forms] eqn:Hfold.
  cbn [snd]. intros Hlookup.
  assert (Hforms : Forall (fun item => hyphen_form_ok (fst item)) hyphen_forms).
  { change hyphen_forms with (snd (word_counter, hyphen_forms)). rewrite <- Hfold.
    apply (fold_left_preserves
             (fun st => Forall (fun item => hyphen_form_ok (fst item)) (snd st)));
      [|constructor].
    intros st r. apply count_row_forms. }
  destruct (build_hyphen_lookup_ok _ _ _ Hforms Hlookup) as ((Hvalid & Hsuffix & Hshort) & Hkey).
  repeat split; [exact Hkey|exact Hvalid| |].
  - apply Forall_forall. intros part Hpart.
    destruct (Nat.ltb_spec (length part) 3) as [Hlt|Hge]; [|exact Hge].
    exfalso. assert (Hex : existsb (fun part => length part <? 3) (split_on HYPHEN token) = true).
    { apply existsb_exists. exists part. split; [now apply list_elem_of_In|].
      now apply Nat.ltb_lt. }
    congruence.
  - apply Forall_forall. intros part Hpart Hin.
    assert (Hex : existsb (fun part => str_in part SUFFIX_TOKENS)
                          (tail (split_on HYPHEN token)) = true).
    { apply existsb_exists. exists part. split; [now apply list_elem_of_In|].
      unfold str_in. now apply bool_decide_eq_true. }
    congruence.
Qed.

Lemma hyphen_lookup_sound_witness :
  replace_char HYPHEN [] (py "anak-anak") = py "anakanak" /\
  fullmatch VALID_HYPHEN_WORD_RE (py "anak-anak") = true.
Proof.
  assert (Hlookup : snd (build_tb1_lexicon [make_row "Kej" "1" "1" "Anak-anak itu" ""])
                      !! py "anakanak" = Some (py "anak-anak")) by (vm_compute; reflexivity).
  destruct (hyphen_lookup_sound _ _ _ Hlookup) as (Hkey & Hvalid & _).
  split; [exact Hkey|exact Hvalid].
Defined.

(** ** The groups the fallback merger forms *)

Lemma read_plan_Forall (P : nat -> Prop) words fuel best_len i :
  (forall i', i' < length words -> exists k, best_len !! i' = Some k /\ P k) ->
  Forall P (read_plan words fuel best_len i).
Proof.
  intros Hlen. revert i. induction fuel as [|fuel IH]; intros i; cbn [read_plan].
  - constructor.
  - destruct (Nat.ltb_spec i (length words)) as [Hlt|Hge]; [|constructor].
    destruct (Hlen i Hlt) as (k & -> & Hk). cbn [default]. constructor; [exact Hk|apply IH].
Qed.

(** Whatever the run, the lexicon and the group size, [fallback_merge_words]
    joins the words in contiguous groups that cover the run in order; a
    group holds at least one word, and more than one only up to
    [max_group]. *)
Theorem merge_groups_shape (rt : Runtime)
    (lexicon : gmap (list N) Z) (words : list (list N)) (max_group : nat) :
  let plan := chosen_plan rt lexicon words max_group in
  fallback_merge_words rt words lexicon max_group
    = join_space (map (@concat N) (groups_of words 0 plan)) /\
  Forall (fun k => 1 <= k /\ (k = 1 \/ k <= max_group)) plan /\
  list_sum plan = length words.
Proof.
  cbv zeta.
  destruct (best_table_shape rt lexicon words max_group)
    as (_ & _ & _ & Hrows).
  split; [apply merged_words_plan|]. split.
  - unfold chosen_plan. apply read_plan_Forall. intros i Hi.
    destruct (Hrows i) as (k & Hk & Hrange & Hgroup); [lia|].
    exists k. split; [exact Hk|]. split; [lia|].
    destruct Hgroup as [->|[Hmax _]]; [now left|now right].
  - unfold chosen_plan.
    destruct (read_plan_covers words (length words)
                (snd (best_table rt words lexicon max_group)) 0) as [_ Hsum].
    + intros i Hi. destruct (Hrows i) as (k & Hk & Hrange & _); [lia|].
      exists k. split; [exact Hk|lia].
    + lia.
    + lia.
    + exact Hsum.
Qed.

(** ** Letters *)

Lemma is_letter_ranges c :
  is_letter c = true <->
  (65 <= c <= 90 \/ 97 <= c <= 122 \/ 192 <= c <= 214 \/ 216 <= c <= 246 \/ 248 <= c <= 255)%N.
Proof.
  unfold is_letter, in_range.
  rewrite !orb_true_iff, !andb_true_iff, !N.leb_le. tauto.
Qed.

Lemma lower_char_letter c :
  is_letter c = true ->
  is_letter (lower_char c) = true /\ lower_char (lower_char c) = lower_char c.
Proof.
  intros Hc%is_letter_ranges.
  assert (Hcases : (lower_char c = c + 32 /\ (65 <= c <= 90 \/ 192 <= c <= 214 \/ 216 <= c <= 222)
                    \/ lower_char c = c /\ (97 <= c <= 122 \/ 223 <= c <= 246 \/ 248 <= c <= 255))%N).
  { unfold lower_char, in_range.
    destruct ((65 <=? c) && (c <=? 90))%N eqn:H1.
    - apply andb_true_iff in H1 as [?%N.leb_le ?%N.leb_le]. left. split; [reflexivity|lia].
    - destruct ((192 <=? c) && (c <=? 222) && negb (c =? 215))%N eqn:H2.
      + rewrite !andb_true_iff, negb_true_iff, !N.leb_le, N.eqb_neq in H2.
        left. split; [reflexivity|lia].
      + right. split; [reflexivity|].
        rewrite andb_false_iff, !N.leb_gt in H1.
        rewrite !andb_false_iff, negb_false_iff, !N.leb_gt, N.eqb_eq in H2. lia. }
  assert (Hfixed : forall d, (97 <= d <= 122 \/ 223 <= d <= 246 \/ 248 <= d <= 255)%N ->
                             lower_char d = d).
  { intros d Hd. unfold lower_char, in_range.
    destruct ((65 <=? d) && (d <=? 90))%N eqn:H1.
    - apply andb_true_iff in H1 as [?%N.leb_le ?%N.leb_le]. lia.
    - destruct ((192 <=? d) && (d <=? 222) && negb (d =? 215))%N eqn:H2; [|reflexivity].
      rewrite !andb_true_iff, negb_true_iff, !N.leb_le, N.eqb_neq in H2. lia. }
  destruct Hcases as [[-> Hr]|[-> Hr]].
  - split; [apply is_letter_ranges; lia|apply Hfixed; lia].
  - split; [apply is_letter_ranges; lia|apply Hfixed; lia].
Qed.

(** [normalize_letters] gives lowered letters only, and is idempotent:
    normalizing a normalized text changes nothing. *)
Theorem normalize_letters_idempotent (text : list N) :
  normalize_letters (normalize_letters text) = normalize_letters text /\
  Forall (fun c => is_letter c = true /\ lower_char c = c) (normalize_letters text).
Proof.
  unfold normalize_letters, lower.
  induction text as [|c text [IHeq IHall]]; [split; [reflexivity|constructor]|].
  cbn [List.filter]. destruct (is_letter c) eqn:Hc; [|split; assumption].
  destruct (lower_char_letter c Hc) as [Hletter Hfixed].
  cbn [map List.filter]. rewrite Hletter. cbn [map]. rewrite Hfixed.
  split; [now rewrite IHeq|].
  constructor; [split; assumption|exact IHall].
Qed.

(** ** The shape of normalized text *)

(** After [normalize_spacing] the only whitespace left is the plain space,
    none of the glyphs the function replaces is left, and the text has no
    space at either end and no run of spaces: stripping and collapsing it
    again changes nothing. *)
Theorem normalize_spacing_tidy (x : list N) :
  let y := normalize_spacing x in
  Forall (fun c => (isspace c = true -> c = SP) /\
                   existsb (N.eqb c) replaced_glyphs = false) y /\
  strip (collapse_spaces y) = y.
Proof.
  cbv zeta.
  assert (Hchars : Forall (fun c => (isspace c = true -> c = SP) /\
                                    existsb (N.eqb c) replaced_glyphs = false)
                          (normalize_spacing x)).
  { rewrite normalize_spacing_unfold.
    destruct (segs_exist (replace_glyphs x)) as (l & gl & Hwf & Hx).
    rewrite Hx. rewrite (tidy_gapmap gap_id l gl keeps_space_id Hwf).
    apply gapmap_chars.
    - intros u g v. destruct (gap_tidy_values gap_id u g v) as [-> | ->].
      + constructor.
      + constructor; [|constructor]. split; [reflexivity|].
        vm_compute. reflexivity.
    - pose proof (replace_glyphs_free x) as Hfree. rewrite Hx in Hfree.
      apply gapmap_id_chars in Hfree.
      destruct Hwf as [Hl _].
      rewrite Forall_forall in Hfree, Hl. apply Forall_forall.
      intros gc Hgc. specialize (Hfree gc Hgc). specialize (Hl gc Hgc) as [_ Hns].
      unfold glyph_free in Hfree. rewrite Hns in Hfree. cbn [orb] in Hfree.
      split; [congruence|]. now apply negb_true_iff. }
  split; [exact Hchars|].
  pose proof (normalize_spacing_idempotent x) as Hidem.
  rewrite (normalize_spacing_unfold (normalize_spacing x)) in Hidem.
  rewrite replace_glyphs_fixed in Hidem; [exact Hidem|].
  eapply Forall_impl; [exact Hchars|]. intros c [_ Hc]. exact Hc.
Qed.

(** ** Which rows are aligned *)

Lemma align_trusted (rt : Runtime) (args : Args) (index : tb1_index) (r : row) :
  match snd (fst (value (align rt args index r))) with
  | alignment_same =>
      is_Some (direct_ref_of rt index r) /\
      Qle_bool (min_direct_ratio args) (snd (value (align rt args index r))) = true
  | alignment_neighbor =>
      Qle_bool (min_neighbor_ratio args) (snd (value (align rt args index r))) = true
  | fallback => True
  end.
Proof.
  unfold align, direct_ref_of.
  destruct (parse_int _) as [verse_num|]; [|exact I].
  destruct (negb _); [|exact I].
  rewrite value_bind.
  match goal with |- context [choose_reference ?t ?rows ?v ?d ?n ?w] =>
    pose proof (choose_reference_backed t rows v d n w) as Hsound;
    destruct (value (choose_reference t rows v d n w)) as [[ref mode] ratio]
  end.
  destruct ref as [ref|]; [|exact I].
  destruct mode; cbn [value ret fst snd].
  - destruct Hsound as (Hrow & _ & Hle). split; [rewrite Hrow; eauto|exact Hle].
  - destruct Hsound as (_ & Hle). exact Hle.
  - contradiction.
Qed.

(** A row leaves the engine as aligned only on a reference that earned it:
    method [alignment_same] means the row has a reference at its own verse
    whose ratio, the confidence, reaches [min_direct_ratio];
    [alignment_neighbor] means the confidence reaches [min_neighbor_ratio];
    and a fallback row is counted as low-confidence exactly when its
    confidence is under [min_neighbor_ratio]. *)
Theorem aligned_rows_trusted (rt : Runtime) (args : Args)
    (index : tb1_index) (lexicon : gmap (list N) Z) (hyphen_lookup : gmap (list N) (list N))
    (r : row) :
  let res := value (process_row rt args index lexicon hyphen_lookup r) in
  match row_method res with
  | alignment_same =>
      is_Some (direct_ref_of rt index r) /\
      Qle_bool (min_direct_ratio args) (confidence res) = true /\
      low_confidence res = false
  | alignment_neighbor =>
      Qle_bool (min_neighbor_ratio args) (confidence res) = true /\
      low_confidence res = false
  | fallback => low_confidence res = Qlt_bool (confidence res) (min_neighbor_ratio args)
  end.
Proof.
  cbv zeta.
  destruct (process_row_fields rt args index lexicon hyphen_lookup r)
    as (Hm & Hc).
  destruct (process_row_texts rt args index lexicon hyphen_lookup r)
    as (_ & _ & Hlow).
  cbv zeta in Hm, Hc, Hlow. rewrite Hm, Hc, Hlow. clear Hm Hc Hlow.
  pose proof (align_trusted rt args index r) as Htrust.
  destruct (value (align rt args index r)) as [[[t p] m] c].
  rewrite fallback_branch_low. cbn [fst snd] in *.
  destruct m.
  - reflexivity.
  - destruct Htrust. auto.
  - auto.
Qed.

(** ** The merger joins only what the lexicon knows *)

(** Without [wordfreq], a group of several tokens is considered by the
    merger only when the lowered form of the joined tokens has a count in
    the lexicon: otherwise its merged score is one of -10, -6, -3.5 and
    -2.5, under the floor 0.5, and the group gets the rejection score. *)
Lemma considered_group_attested (rt : Runtime) (lexicon : gmap (list N) Z)
    (tokens : list (list N)) :
  zipf_frequency rt = None ->
  length tokens <> 1 ->
  PrimFloat.leb (fallback_group_score rt tokens lexicon) REJECT_BELOW = false ->
  (0 < lexicon_get lexicon (lower (concat tokens)))%Z.
Proof.
  intros Hnone Hlen Hconsidered.
  destruct (Z.ltb_spec 0 (lexicon_get lexicon (lower (concat tokens)))) as [Hpos|Hzero];
    [exact Hpos|exfalso].
  assert (Hfreq : (0 <? lexicon_get lexicon (lower (concat tokens)))%Z = false)
    by (apply Z.ltb_ge; exact Hzero).
  assert (Hmerged : merged_group_score rt tokens lexicon = REJECTED).
  { unfold merged_group_score.
    destruct (PrimFloat.ltb _ _); [reflexivity|].
    unfold token_score. rewrite Hnone, Hfreq.
    destruct (lower (concat tokens)) as [|c l]; [reflexivity|].
    unfold short_token_score.
    destruct (_ && _); [reflexivity|]. destruct (_ && _); reflexivity. }
  assert (Hscore : fallback_group_score rt tokens lexicon = REJECTED).
  { unfold fallback_group_score.
    destruct tokens as [|t [|t' ts]]; [| cbn in Hlen; lia |].
    - destruct (_ && _); [reflexivity|exact Hmerged].
    - destruct (_ && _); [reflexivity|exact Hmerged]. }
  rewrite Hscore in Hconsidered. discriminate.
Qed.

(** Without [wordfreq] the fallback merger invents no word: every group of
    two or more tokens that [fallback_merge_words] joins gives, lowered, a
    word that has a count in the lexicon. *)
Theorem merged_groups_attested (rt : Runtime) (lexicon : gmap (list N) Z)
    (words : list (list N)) (max_group : nat) :
  zipf_frequency rt = None ->
  Forall (fun group => 2 <= length group ->
                       (0 < lexicon_get lexicon (lower (concat group)))%Z)
         (groups_of words 0 (chosen_plan rt lexicon words max_group)).
Proof.
  intros Hnone.
  eapply Forall_impl; [apply plan_groups_considered|].
  intros group [Hone|[_ Hconsidered]] Hlen; [lia|].
  apply (considered_group_attested rt); [exact Hnone|lia|exact Hconsidered].
Qed.

Lemma merged_groups_attested_witness :
  Forall (fun group => 2 <= length group ->
                       (0 < lexicon_get {[py "diri" := 50%Z]} (lower (concat group)))%Z)
         (groups_of [py "di"; py "ri"] 0
            (chosen_plan example_runtime {[py "diri" := 50%Z]} [py "di"; py "ri"] 5)).
Proof.
  apply (merged_groups_attested example_runtime {[py "diri" := 50%Z]} [py "di"; py "ri"] 5).
  reflexivity.
Defined.

(** ** The text handed to the tail trimmer *)

Lemma lstrip_head (t : list N) :
  (forall c, head t = Some c -> isspace c = false) -> lstrip t = t.
Proof. destruct t as [|c t]; [reflexivity|]. intros H. cbn. now rewrite (H c eq_refl). Qed.

Lemma rstrip_last (t : list N) :
  (forall d, last t = Some d -> isspace d = false) -> rstrip t = t.
Proof.
  induction t as [|c t IH]; [reflexivity|]. intros H. cbn [rstrip].
  destruct t as [|c' t'].
  - cbn. now rewrite (H c eq_refl).
  - rewrite IH; [reflexivity|]. intros d Hd. apply H. exact Hd.
Qed.

(** A text that neither starts nor ends with whitespace is its own
    [strip]. *)
Lemma strip_edges (t : list N) :
  (forall c, head t = Some c -> isspace c = false) ->
  (forall d, last t = Some d -> isspace d = false) ->
  strip t = t.
Proof. intros Hh Hl. unfold strip. rewrite (lstrip_head t Hh). now apply rstrip_last. Qed.

Lemma lstrip_head_nonspace (s : list N) c : head (lstrip s) = Some c -> isspace c = false.
Proof.
  induction s as [|x s IH]; [discriminate|]. cbn [lstrip].
  destruct (isspace x) eqn:Hx; [exact IH|]. cbn. intros [= <-]. exact Hx.
Qed.

Lemma head_rstrip (u : list N) c : head (rstrip u) = Some c -> head u = Some c.
Proof.
  destruct u as [|x u]; [discriminate|]. cbn [rstrip].
  destruct (rstrip u); [destruct (isspace x)|]; cbn; congruence.
Qed.

Lemma rstrip_last_nonspace (u : list N) d : last (rstrip u) = Some d -> isspace d = false.
Proof.
  induction u as [|x u IH]; [discriminate|]. cbn [rstrip].
  destruct (rstrip u) as [|y r] eqn:Hr.
  - destruct (isspace x) eqn:Hx; [discriminate|]. cbn. intros [= <-]. exact Hx.
  - intros Hd. apply IH. exact Hd.
Qed.

Lemma strip_stripped (s : list N) : strip (strip s) = strip s.
Proof.
  apply strip_edges.
  - intros c Hc. unfold strip in Hc. apply head_rstrip in Hc.
    now apply lstrip_head_nonspace in Hc.
  - intros d Hd. unfold strip in Hd. now apply rstrip_last_nonspace in Hd.
Qed.

Lemma join_space_edges (parts : list (list N)) :
  parts <> [] ->
  Forall (fun p => p <> [] /\ Forall (fun c => isspace c = false) p) parts ->
  join_space parts <> [] /\
  (forall c, head (join_space parts) = Some c -> isspace c = false) /\
  (forall d, last (join_space parts) = Some d -> isspace d = false).
Proof.
  intros Hne Hall. induction Hall as [|p parts [Hp Hchars] Hall IH]; [congruence|].
  destruct parts as [|q parts].
  - cbn [join_space]. split; [exact Hp|]. split.
    + intros c Hc. rewrite Forall_forall in Hchars. apply Hchars.
      destruct p; [discriminate|]. cbn in Hc. injection Hc as <-. now left.
    + intros d Hd. rewrite Forall_forall in Hchars. apply Hchars.
      apply last_Some in Hd as [l' ->]. apply elem_of_app. right. now left.
  - destruct IH as (Hj & _ & Hlast); [discriminate|].
    change (join_space (p :: q :: parts)) with (p ++ SP :: join_space (q :: parts)).
    split; [destruct p; discriminate|]. split.
    + intros c Hc. rewrite Forall_forall in Hchars. apply Hchars.
      destruct p; [congruence|]. cbn in Hc. injection Hc as <-. now left.
    + intros d Hd. rewrite last_app, last_cons in Hd.
      destruct (last (join_space (q :: parts))) as [y|] eqn:Hy.
      * injection Hd as <-. now apply Hlast.
      * apply last_None in Hy. contradiction.
Qed.

(** What [fallback_merge_words] makes of a run of word tokens starts and
    ends with a word character. *)
Lemma merged_words_edges rt lexicon (ws : list (list N)) max_group :
  ws <> [] -> Forall (fun w => is_word_token w = true) ws ->
  let merged := fallback_merge_words rt ws lexicon max_group in
  merged <> [] /\
  (forall c, head merged = Some c -> isspace c = false) /\
  (forall d, last merged = Some d -> isspace d = false).
Proof.
  intros Hne Hws. cbv zeta. rewrite merged_words_plan.
  apply join_space_edges.
  - unfold chosen_plan. destruct ws as [|w ws']; [congruence|].
    cbn [length read_plan Nat.ltb Nat.leb groups_of map]. discriminate.
  - apply Forall_fmap. unfold chosen_plan.
    apply read_plan_groups. intros i Hi.
    destruct (best_table_shape rt lexicon ws max_group) as (_ & _ & _ & D).
    destruct (D i) as (k & Hk & Hrange & _); [lia|].
    exists k. split; [exact Hk|]. cbn.
    assert (Hslice : Forall (fun w => is_word_token w = true) (slice ws i (i + k))).
    { unfold slice. apply Forall_take, Forall_drop, Hws. }
    assert (Hlen : length (slice ws i (i + k)) = k).
    { unfold slice. rewrite length_take, length_drop. lia. }
    split.
    + destruct (slice ws i (i + k)) as [|w g]; [cbn in Hlen; lia|].
      apply Forall_cons in Hslice as [Hw _].
      destruct w; [discriminate|]. discriminate.
    + apply Forall_concat. eapply Forall_impl; [exact Hslice|].
      intros w Hw. eapply Forall_impl; [apply word_token_chars, Hw|].
      intros c Hc. now apply word_char_not_space.
Qed.

Lemma span_suffix (P : N -> bool) (s : list N) : snd (span P s) `suffix_of` s.
Proof. exists (fst (span P s)). apply span_spec. Qed.

Lemma more_words_suffix fuel (s : list N) : snd (more_words fuel s) `suffix_of` s.
Proof.
  revert s. induction fuel as [|fuel IH]; intros s; cbn [more_words]; [reflexivity|].
  destruct (fst (span isspace s)) as [|g gs]; [reflexivity|].
  destruct (fst (span is_word_char (snd (span isspace s)))) as [|w wd]; [reflexivity|].
  cbn [fst snd]. etransitivity; [apply IH|].
  etransitivity; [apply span_suffix|apply span_suffix].
Qed.

Lemma match_word_run_parts (s : list N) ws after :
  match_word_run s = Some (ws, after) ->
  after `suffix_of` s /\ ws <> [] /\
  Forall (fun w => is_word_token w = true) ws.
Proof.
  intros H. destruct (match_word_run_spec s ws after H) as (_ & Hws & _).
  unfold match_word_run in H.
  destruct (fst (span is_word_char s)) as [|w wd]; [discriminate|].
  pose proof (more_words_suffix (length s) (snd (span is_word_char s))) as Hsuf.
  destruct (fst (more_words (length s) (snd (span is_word_char s)))) as [|w2 ws2];
    [discriminate|].
  injection H as <- <-. split; [|split; [discriminate|exact Hws]].
  etransitivity; [exact Hsuf|apply span_suffix].
Qed.

Lemma last_suffix (after s : list N) d :
  after `suffix_of` s -> last after = Some d -> last s = Some d.
Proof. intros [pre ->] Hd. rewrite last_app, Hd. reflexivity. Qed.

Lemma sub_word_runs_nonempty rt lexicon fuel (s : list N) :
  s <> [] -> sub_word_runs rt fuel lexicon s <> [].
Proof.
  destruct fuel as [|fuel]; [auto|]. destruct s as [|c rest]; [congruence|]. intros _.
  cbn [sub_word_runs].
  destruct (match_word_run (c :: rest)) as [[ws after]|] eqn:E; [|discriminate].
  destruct (match_word_run_parts _ _ _ E) as (_ & Hne & Hws).
  destruct (merged_words_edges rt lexicon ws 5 Hne Hws) as (Hm & _).
  cbv zeta in Hm. destruct (fallback_merge_words rt ws lexicon 5); [congruence|discriminate].
Qed.

(** The fallback keeps the ends of a text free of whitespace. *)
Lemma sub_word_runs_edges rt lexicon fuel (s : list N) :
  (forall c, head s = Some c -> isspace c = false) ->
  (forall d, last s = Some d -> isspace d = false) ->
  (forall c, head (sub_word_runs rt fuel lexicon s) = Some c -> isspace c = false) /\
  (forall d, last (sub_word_runs rt fuel lexicon s) = Some d -> isspace d = false).
Proof.
  intros Hhead Hlast. split.
  - destruct fuel as [|fuel]; [exact Hhead|]. destruct s as [|c rest]; [discriminate|].
    cbn [sub_word_runs].
    destruct (match_word_run (c :: rest)) as [[ws after]|] eqn:E; [|exact Hhead].
    destruct (match_word_run_parts _ _ _ E) as (_ & Hne & Hws).
    destruct (merged_words_edges rt lexicon ws 5 Hne Hws) as (Hm & Hmh & _).
    cbv zeta in Hm, Hmh.
    destruct (fallback_merge_words rt ws lexicon 5) as [|m0 m]; [congruence|].
    exact Hmh.
  - clear Hhead. revert s Hlast. induction fuel as [|fuel IH]; intros s Hlast; [exact Hlast|].
    destruct s as [|c rest]; [discriminate|]. cbn [sub_word_runs].
    destruct (match_word_run (c :: rest)) as [[ws after]|] eqn:E.
    + destruct (match_word_run_parts _ _ _ E) as (Hsuf & Hne & Hws).
      destruct (merged_words_edges rt lexicon ws 5 Hne Hws) as (_ & _ & Hml).
      cbv zeta in Hml. intros d Hd. rewrite last_app in Hd.
      destruct (last (sub_word_runs rt fuel lexicon after)) as [y|] eqn:Hy.
      * injection Hd as <-. apply (IH after); [|exact Hy].
        intros d' Hd'. apply Hlast. exact (last_suffix _ _ _ Hsuf Hd').
      * now apply Hml.
    + intros d Hd. rewrite last_cons in Hd.
      destruct (last (sub_word_runs rt fuel lexicon rest)) as [y|] eqn:Hy.
      * injection Hd as <-. apply (IH rest); [|exact Hy].
        intros d' Hd'. apply Hlast. rewrite last_cons, Hd'. reflexivity.
      * injection Hd as <-. apply last_None in Hy.
        destruct rest as [|c' rest'].
        -- apply Hlast. reflexivity.
        -- exfalso. revert Hy. apply sub_word_runs_nonempty. discriminate.
Qed.

Lemma fallback_clean_text_stripped rt lexicon (text : list N) :
  strip text = text -> strip (fallback_clean_text rt text lexicon) = fallback_clean_text rt text lexicon.
Proof.
  intros Hs. unfold fallback_clean_text.
  destruct (sub_word_runs_edges rt lexicon (length text) text) as [Hh Hl].
  - intros c Hc. rewrite <- Hs in Hc. unfold strip in Hc. apply head_rstrip in Hc.
    now apply lstrip_head_nonspace in Hc.
  - intros d Hd. rewrite <- Hs in Hd. unfold strip in Hd.
    now apply rstrip_last_nonspace in Hd.
  - now apply strip_edges.
Qed.

(** Every text the engine hands to the tail trimmer is stripped: the
    fallback branch passes the fallback's result on normalized text, the
    final normalizations pass the result of
    [normalize_punctuation_spacing]. *)
Theorem trimmer_gets_stripped_text (rt : Runtime) (args : Args)
    (index : tb1_index) (lexicon : gmap (list N) Z) (hyphen_lookup : gmap (list N) (list N))
    (r : row) :
  Forall (fun call => strip (fst call) = fst call)
         (trim_calls (trace (process_row rt args index lexicon hyphen_lookup r))).
Proof.
  destruct (process_row_trims rt args index lexicon hyphen_lookup r) as [t Ht].
  cbv zeta in Ht. rewrite Ht. clear Ht.
  apply Forall_app. split.
  - destruct (row_method _); try constructor.
    destruct (direct_ref_of rt index r); [|constructor].
    destruct (Qlt_bool _ _); constructor; [|constructor].
    cbn [fst]. apply fallback_clean_text_stripped.
    unfold normalize_spacing. apply strip_stripped.
  - destruct (direct_ref_of rt index r); constructor; [|constructor].
    cbn [fst]. unfold final_passes, normalize_punctuation_spacing. apply strip_stripped.
Qed.
